(** * Test-fixture lifecycle script of the MySQL source connector

    A shallow embedding of
    [airbyte-integrations/connectors/source-mysql/integration_tests/seed/hook.py]
    and the properties its specification states about it.

    The script is sequential Python that talks to three things outside
    itself: the file system, a MySQL server reached through
    [mysql.connector], and the process environment (clock, random source,
    standard output).  Each of them is a field of an explicit [world]; a
    Python function becomes a computation in a small state-and-exception
    monad over that world, written in the order of the source, and
    [sys.argv] is the argument of [main].

    Conventions of the model:
    - a Python [str] is a [string], one [ascii] per code point (the Latin-1
      range);
    - an exception is a value of [exn]; the state reached when it is raised
      is kept, as in Python;
    - SQL text built with f-strings is represented by the statement the
      server parses from it when the interpolated names are plain unquoted
      identifiers ([stmt]);
    - the JSON codec of the standard library is an interface ([JsonCodec]). *)

From stdpp Require Import base option list strings gmap fin_maps.
From Stdlib Require Import Ascii String Lia.

#[local] Open Scope string_scope.
#[local] Open Scope nat_scope.
#[local] Set Warnings "-abstract-large-number,-register-all".

(** ** Exceptions and results *)

Inductive exn :=
| SystemExit (code : nat)
| MySQLError (msg : string)          (* mysql.connector.Error *)
| FileNotFoundError (path : string)
| FileExistsError (path : string)
| IsADirectoryError (path : string)
| JSONDecodeError
| KeyError (key : string)
| TypeError (msg : string)
| ValueError (msg : string)
| IndexError
| OverflowError
| UnboundLocalError (name : string).

Inductive result (A : Type) :=
| Ret (a : A)
| Raise (e : exn).
Arguments Ret {A} a.
Arguments Raise {A} e.

(** ** Characters and text *)

Definition code (c : ascii) : nat := nat_of_ascii c.

Definition in_range (lo hi : nat) (c : ascii) : bool :=
  (lo <=? code c) && (code c <=? hi).

Definition is_digit (c : ascii) : bool := in_range 48 57 c.
Definition is_lower (c : ascii) : bool := in_range 97 122 c.

Definition digit_val (c : ascii) : nat := code c - 48.

Definition digit_char (n : nat) : ascii := ascii_of_nat (48 + n).

Definition char (c : ascii) : string := String c "".

(** [string.ascii_lowercase] and [string.digits]. *)
Definition ascii_lowercase : string := "abcdefghijklmnopqrstuvwxyz".
Definition digits : string := "0123456789".

Fixpoint repeat_char (c : ascii) (n : nat) : string :=
  match n with
  | O => ""
  | S n' => String c (repeat_char c n')
  end.

Fixpoint take (n : nat) (s : string) : string :=
  match n, s with
  | S n', String c s' => String c (take n' s')
  | _, _ => ""
  end.

Fixpoint mem_char (c : ascii) (s : string) : bool :=
  match s with
  | "" => false
  | String d s' => Ascii.eqb c d || mem_char c s'
  end.

(** [s.startswith(p)]. *)
Fixpoint starts_with (p s : string) : bool :=
  match p, s with
  | "", _ => true
  | String c p', String d s' => Ascii.eqb c d && starts_with p' s'
  | String _ _, "" => false
  end.

(** ** [repr] of a string, as the [%r] and [%a] conversions print it *)

Definition hex_digit (n : nat) : ascii :=
  if n <? 10 then ascii_of_nat (48 + n) else ascii_of_nat (87 + n).

Definition hex_escape (c : ascii) : string :=
  String "\" (String "x" (String (hex_digit (code c / 16))
                            (String (hex_digit (code c mod 16)) ""))).

(** Printable code points of the Latin-1 range ([str.isprintable]). *)
Definition is_printable (c : ascii) : bool :=
  in_range 32 126 c || (in_range 161 255 c && negb (code c =? 173)).

Definition repr_char (only_ascii : bool) (quote c : ascii) : string :=
  if Ascii.eqb c "\" then "\\"
  else if Ascii.eqb c quote then String "\" (char c)
  else if code c =? 9 then "\t"
  else if code c =? 10 then "\n"
  else if code c =? 13 then "\r"
  else if is_printable c && (negb only_ascii || (code c <? 128)) then char c
  else hex_escape c.

Fixpoint repr_body (only_ascii : bool) (quote : ascii) (s : string) : string :=
  match s with
  | "" => ""
  | String c s' => repr_char only_ascii quote c +:+ repr_body only_ascii quote s'
  end.

(** The double quote, by its code. *)
Definition dquote : ascii := ascii_of_nat 34.

Definition py_repr (only_ascii : bool) (s : string) : string :=
  let quote : ascii :=
    if mem_char "'" s && negb (mem_char dquote s) then dquote else "'"%char in
  String quote (repr_body only_ascii quote s) +:+ char quote.

(** ** The [%] operator on strings

    [fmt % args], for arguments that are strings: [fmt % name] has the one
    argument [[name]], [fmt % (a, b)] the two [[a; b]].  The scanner follows
    CPython's: literal text is copied; after a [%] come an optional mapping
    key, flags, width, precision, a length modifier and the conversion
    character.  Widths are kept as numbers (CPython refuses those beyond the
    address space). *)

Record fspec := { f_ljust : bool; f_width : option nat; f_prec : option nat }.

Inductive fstate :=
| FText                                            (* copying literal text *)
| FStart                                           (* right after [%] *)
| FFlags (lj : bool)                               (* reading flags *)
| FWidth (lj : bool) (w : nat)                     (* reading width digits *)
| FDot (lj : bool) (w : option nat)                (* right after [.] *)
| FPrec (lj : bool) (w : option nat) (p : nat)     (* reading precision digits *)
| FConv (sp : fspec).                              (* after [h], [l] or [L] *)

Inductive fstep :=
| Goto (st : fstate) (args : list string) (out : string)
| Stop (e : exn).

Definition pad (sp : fspec) (s : string) : string :=
  match f_width sp with
  | None => s
  | Some w =>
      let fill := repeat_char " " (w - String.length s) in
      if f_ljust sp then s +:+ fill else fill +:+ s
  end.

Definition truncate (sp : fspec) (s : string) : string :=
  match f_prec sp with
  | None => s
  | Some p => take p s
  end.

(** The conversion itself: the next argument is fetched first, then the
    conversion character is looked at. *)
Definition convert (sp : fspec) (c : ascii) (args : list string) (out : string) : fstep :=
  match args with
  | [] => Stop (TypeError "not enough arguments for format string")
  | v :: rest =>
      if Ascii.eqb c "s" then Goto FText rest (out +:+ pad sp (truncate sp v))
      else if Ascii.eqb c "r" then Goto FText rest (out +:+ pad sp (truncate sp (py_repr false v)))
      else if Ascii.eqb c "a" then Goto FText rest (out +:+ pad sp (truncate sp (py_repr true v)))
      else if Ascii.eqb c "c" then
        if String.length v =? 1 then Goto FText rest (out +:+ pad sp v)
        else Stop (TypeError "%c requires int or char")
      else if mem_char c "diouxXeEfFgG" then Stop (TypeError "a number is required, not str")
      else Stop (ValueError "unsupported format character")
  end.

Definition at_lenmod (sp : fspec) (c : ascii) (args : list string) (out : string) : fstep :=
  if mem_char c "hlL" then Goto (FConv sp) args out else convert sp c args out.

Definition star (args : list string) : fstep :=
  match args with
  | [] => Stop (TypeError "not enough arguments for format string")
  | _ :: _ => Stop (TypeError "* wants int")
  end.

Definition at_dot (lj : bool) (w : option nat) (c : ascii) (args : list string) (out : string) : fstep :=
  if Ascii.eqb c "." then Goto (FDot lj w) args out
  else at_lenmod {| f_ljust := lj; f_width := w; f_prec := None |} c args out.

Definition at_width (lj : bool) (c : ascii) (args : list string) (out : string) : fstep :=
  if Ascii.eqb c "*" then star args
  else if is_digit c then Goto (FWidth lj (digit_val c)) args out
  else at_dot lj None c args out.

Definition at_flags (lj : bool) (c : ascii) (args : list string) (out : string) : fstep :=
  if mem_char c "-+ #0" then Goto (FFlags (lj || Ascii.eqb c "-")) args out
  else at_width lj c args out.

Definition format_step (st : fstate) (c : ascii) (args : list string) (out : string) : fstep :=
  match st with
  | FText =>
      if Ascii.eqb c "%" then Goto FStart args out else Goto FText args (out +:+ char c)
  | FStart =>
      if Ascii.eqb c "%" then Goto FText args (out +:+ "%")
      else if Ascii.eqb c "(" then Stop (TypeError "format requires a mapping")
      else at_flags false c args out
  | FFlags lj => at_flags lj c args out
  | FWidth lj w =>
      if is_digit c then Goto (FWidth lj (10 * w + digit_val c)) args out
      else at_dot lj (Some w) c args out
  | FDot lj w =>
      if Ascii.eqb c "*" then star args
      else if is_digit c then Goto (FPrec lj w (digit_val c)) args out
      else at_lenmod {| f_ljust := lj; f_width := w; f_prec := Some 0 |} c args out
  | FPrec lj w p =>
      if is_digit c then Goto (FPrec lj w (10 * p + digit_val c)) args out
      else at_lenmod {| f_ljust := lj; f_width := w; f_prec := Some p |} c args out
  | FConv sp => convert sp c args out
  end.

Fixpoint format_loop (st : fstate) (fmt : string) (args : list string) (out : string)
  : result string :=
  match fmt with
  | "" =>
      match st with
      | FText =>
          match args with
          | [] => Ret out
          | _ :: _ => Raise (TypeError "not all arguments converted during string formatting")
          end
      | _ => Raise (ValueError "incomplete format")
      end
  | String c fmt' =>
      match format_step st c args out with
      | Goto st' args' out' => format_loop st' fmt' args' out'
      | Stop e => Raise e
      end
  end.

(** [fmt % args]. *)
Definition py_format (fmt : string) (args : list string) : result string :=
  format_loop FText fmt args "".

(** ** Regular expressions of the shape [^c1{n1}c2{n2}...$] *)

Inductive cclass :=
| CDigit                 (* \d *)
| CLowerOrDigit          (* [a-z0-9] *)
| CLit (c : ascii).      (* a literal character *)

Definition class_mem (k : cclass) (c : ascii) : bool :=
  match k with
  | CDigit => is_digit c
  | CLowerOrDigit => is_lower c || is_digit c
  | CLit d => Ascii.eqb c d
  end.

Definition regex := list (cclass * nat).

(** Consume exactly [n] characters of class [k]. *)
Fixpoint match_repeat (k : cclass) (n : nat) (s : string) : option string :=
  match n with
  | O => Some s
  | S n' =>
      match s with
      | String c s' => if class_mem k c then match_repeat k n' s' else None
      | "" => None
      end
  end.

Fixpoint fullmatch (re : regex) (s : string) : bool :=
  match re with
  | [] => String.eqb s ""
  | (k, n) :: re' =>
      match match_repeat k n s with
      | Some rest => fullmatch re' rest
      | None => false
      end
  end.

(** [^\d{8}_[a-z0-9]{8}$] *)
Definition schema_name_re : regex :=
  [(CDigit, 8); (CLit "_", 1); (CLowerOrDigit, 8)].

(** ** Calendar dates

    [datetime.now(la_timezone)] is used for its calendar date only; the time
    of day never reaches a format string. *)

Record date := { year : nat; month : nat; day : nat }.

Definition is_leap (y : nat) : bool :=
  (y mod 4 =? 0) && (negb (y mod 100 =? 0) || (y mod 400 =? 0)).

Definition days_in_month (y m : nat) : nat :=
  match m with
  | 2 => if is_leap y then 29 else 28
  | 4 | 6 | 9 | 11 => 30
  | _ => 31
  end.

Definition MINYEAR : nat := 1.
Definition MAXYEAR : nat := 9999.

(** The invariant of a [datetime]. *)
Definition valid_date (d : date) : bool :=
  (MINYEAR <=? year d) && (year d <=? MAXYEAR) &&
  (1 <=? month d) && (month d <=? 12) &&
  (1 <=? day d) && (day d <=? days_in_month (year d) (month d)).

(** [d - timedelta(days=1)]: arithmetic on the wall-clock fields. *)
Definition minus_one_day (d : date) : result date :=
  if 1 <? day d then Ret {| year := year d; month := month d; day := day d - 1 |}
  else if 1 <? month d then
    Ret {| year := year d; month := month d - 1;
           day := days_in_month (year d) (month d - 1) |}
  else if 1 <? year d then Ret {| year := year d - 1; month := 12; day := 31 |}
  else Raise OverflowError.

(** Decimal digits of a number, no padding (what the C library prints for
    [%Y]). *)
Fixpoint decimal_aux (fuel n : nat) (acc : string) : string :=
  match fuel with
  | O => acc
  | S fuel' =>
      let acc' := String (digit_char (n mod 10)) acc in
      if n <? 10 then acc' else decimal_aux fuel' (n / 10) acc'
  end.

Definition decimal (n : nat) : string := decimal_aux (S n) n "".

(** Two digits, zero padded ([%m], [%d]). *)
Definition two_digits (n : nat) : string :=
  String (digit_char (n / 10 mod 10)) (char (digit_char (n mod 10))).

(** [d.strftime("%Y%m%d")] *)
Definition strftime_Ymd (d : date) : string :=
  decimal (year d) +:+ two_digits (month d) +:+ two_digits (day d).

(** ** SQL [LIKE]

    [%] matches any run of characters, [_] any one character, every other
    character itself (the comparison of [information_schema] names is
    binary on a case-sensitive server).  Patterns here come from schema
    names and date stamps, which hold no backslash. *)

Fixpoint like (p s : string) : bool :=
  match p with
  | "" => String.eqb s ""
  | String c p' =>
      if Ascii.eqb c "%" then
        (fix any (s : string) : bool :=
           like p' s || match s with
                        | "" => false
                        | String _ s' => any s'
                        end) s
      else
        match s with
        | "" => false
        | String d s' => (Ascii.eqb c "_" || Ascii.eqb c d) && like p' s'
        end
  end.

(** ** JSON documents *)

Inductive json :=
| JNull
| JBool (b : bool)
| JInt (z : Z)
| JFloat (literal : string)
| JStr (s : string)
| JArr (items : list json)
| JObj (fields : list (string * json)).   (* a dict, in insertion order *)

(** [json.loads] and [json.dumps]; [None] is a [JSONDecodeError]. *)
Class JsonCodec := {
  json_loads : string -> option json;
  json_dumps : json -> string
}.

Fixpoint assoc_get {A} (k : string) (l : list (string * A)) : option A :=
  match l with
  | [] => None
  | (k', v) :: l' => if String.eqb k k' then Some v else assoc_get k l'
  end.

(** Assignment to a key of a dict: an existing key keeps its place, a new
    one goes last. *)
Fixpoint assoc_set {A} (k : string) (v : A) (l : list (string * A)) : list (string * A) :=
  match l with
  | [] => [(k, v)]
  | (k', v') :: l' =>
      if String.eqb k k' then (k, v) :: l' else (k', v') :: assoc_set k v l'
  end.

(** [obj[key]] *)
Definition getitem (obj : json) (key : string) : result json :=
  match obj with
  | JObj fields =>
      match assoc_get key fields with
      | Some v => Ret v
      | None => Raise (KeyError key)
      end
  | _ => Raise (TypeError "object is not subscriptable by a string")
  end.

(** [obj[key] = value] *)
Definition setitem (obj : json) (key : string) (value : json) : result json :=
  match obj with
  | JObj fields => Ret (JObj (assoc_set key value fields))
  | _ => Raise (TypeError "object does not support item assignment")
  end.

(** ** The MySQL server

    A catalog maps a schema name to its tables; a table of the script has
    the columns [(id, name)] with [id] the primary key and is kept as the
    list of its rows. *)

Definition row : Type := string * string.
Definition table : Type := list row.
Abbreviation catalog := (gmap string (gmap string table)).

(** The statements the script sends:
    - [CREATE DATABASE IF NOT EXISTS {schema_name}]
    - [CREATE TABLE IF NOT EXISTS {schema_name}.{table_name} (id VARCHAR(100)
      PRIMARY KEY, name VARCHAR(255) NOT NULL)]
    - [INSERT INTO {schema_name}.{table_name} (id, name) VALUES (%s, %s) ON
      DUPLICATE KEY UPDATE id=id], with the record as parameters
    - [SELECT schema_name FROM information_schema.schemata WHERE schema_name
      LIKE '{pattern}']
    - [DROP DATABASE IF EXISTS {schema_name}] *)
Inductive stmt :=
| CreateDatabaseIfNotExists (schema_name : string)
| CreateTableIfNotExists (schema_name table_name : string)
| InsertOnDuplicateKeyKeep (schema_name table_name : string) (record : row)
| SelectSchemataLike (pattern : string)
| DropDatabaseIfExists (schema_name : string).

(** Data definition statements commit the open transaction first. *)
Definition implicit_commit (q : stmt) : bool :=
  match q with
  | InsertOnDuplicateKeyKeep _ _ _ | SelectSchemataLike _ => false
  | _ => true
  end.

Definition has_key (id : string) (t : table) : bool :=
  existsb (fun r => String.eqb (fst r) id) t.

(** [INSERT ... ON DUPLICATE KEY UPDATE id=id]: a row whose key is present
    is updated to itself. *)
Definition upsert (r : row) (t : table) : table :=
  if has_key (fst r) t then t else (t ++ [r])%list.

(** What a statement does to the catalog and the rows it returns; an error
    carries the server's message. *)
Definition run_stmt (q : stmt) (db : catalog) : string + (catalog * list string) :=
  match q with
  | CreateDatabaseIfNotExists s =>
      match db !! s with
      | Some _ => inr (db, [])
      | None => inr (<[s := ∅]> db, [])
      end
  | CreateTableIfNotExists s t =>
      match db !! s with
      | None => inl ("Unknown database '" +:+ s +:+ "'")
      | Some tables =>
          match tables !! t with
          | Some _ => inr (db, [])
          | None => inr (<[s := <[t := []]> tables]> db, [])
          end
      end
  | InsertOnDuplicateKeyKeep s t r =>
      match db !! s with
      | None => inl ("Unknown database '" +:+ s +:+ "'")
      | Some tables =>
          match tables !! t with
          | None => inl ("Table '" +:+ s +:+ "." +:+ t +:+ "' doesn't exist")
          | Some rows => inr (<[s := <[t := upsert r rows]> tables]> db, [])
          end
      end
  | SelectSchemataLike p =>
      inr (db, filter (fun n => like p n = true) (map_to_list db).*1)
  | DropDatabaseIfExists s => inr (delete s db, [])
  end.

(** The session of the one client the script is.  [live] is the catalog as
    the session sees it, [committed] what a rollback returns to.  A call
    that reaches the server takes the head of [faults]: [Some msg] makes it
    fail with that message whatever the catalog holds (lost connection,
    missing privilege, a column limit). *)
Record session := {
  live : catalog;
  committed : catalog;
  faults : list (option string);
  connections : nat;          (* connections open *)
  cursors : nat;              (* cursors open *)
  fetched : list string       (* rows the last statement returned *)
}.

Record filesystem := {
  files : gmap string string;
  dirs : gset string
}.

Record world := {
  fs : filesystem;
  mysql : session;
  stdout : list string;       (* lines printed, oldest first *)
  now_la : date;              (* the date in America/Los_Angeles *)
  tape : nat -> nat;          (* the random source *)
  drawn : nat                 (* draws taken from it *)
}.

Definition set_fs (f : filesystem -> filesystem) (w : world) : world :=
  {| fs := f (fs w); mysql := mysql w; stdout := stdout w;
     now_la := now_la w; tape := tape w; drawn := drawn w |}.

Definition set_mysql (f : session -> session) (w : world) : world :=
  {| fs := fs w; mysql := f (mysql w); stdout := stdout w;
     now_la := now_la w; tape := tape w; drawn := drawn w |}.

Definition set_stdout (f : list string -> list string) (w : world) : world :=
  {| fs := fs w; mysql := mysql w; stdout := f (stdout w);
     now_la := now_la w; tape := tape w; drawn := drawn w |}.

Definition set_drawn (f : nat -> nat) (w : world) : world :=
  {| fs := fs w; mysql := mysql w; stdout := stdout w;
     now_la := now_la w; tape := tape w; drawn := f (drawn w) |}.

(** ** The monad of the script: state that survives exceptions *)

Definition M (A : Type) : Type := world -> result A * world.

#[global] Instance M_ret : MRet M := fun A a w => (Ret a, w).

#[global] Instance M_bind : MBind M := fun A B k m w =>
  match m w with
  | (Ret a, w') => k a w'
  | (Raise e, w') => (Raise e, w')
  end.

Definition raise {A} (e : exn) : M A := fun w => (Raise e, w).

Definition lift {A} (r : result A) : M A := fun w => (r, w).

(** [try: body / except Error as error: handler error] *)
Definition try_except_Error {A} (body : M A) (handler : string -> M A) : M A :=
  fun w =>
    match body w with
    | (Raise (MySQLError msg), w') => handler msg w'
    | r => r
    end.

(** [try: body / finally: cleanup]: the cleanup runs on every way out of
    the body, an exception on its way (a [SystemExit] too) goes on after
    it, and one raised by the cleanup replaces it. *)
Definition try_finally {A} (body : M A) (cleanup : M unit) : M A :=
  fun w =>
    let '(r, w') := body w in
    match cleanup w' with
    | (Ret _, w'') => (r, w'')
    | (Raise e, w'') => (Raise e, w'')
    end.

(** A local variable that the first statement of a [try] block binds and
    the [finally] block reads.  [attempt first scope] runs that statement
    and goes on with the whole [try] statement, told how the statement
    ended: inside the block [lift bound] is the statement's outcome, its
    exception included, and [local name bound] reads the variable, which is
    unbound when the statement raised. *)
Definition attempt {L A} (first : M L) (scope : result L -> M A) : M A :=
  fun w => let '(bound, w') := first w in scope bound w'.

Definition local {L} (name : string) (bound : result L) : M L :=
  match bound with
  | Ret x => mret x
  | Raise _ => raise (UnboundLocalError name)
  end.

(** [for x in l: body x] *)
Fixpoint for_each {A} (l : list A) (body : A -> M unit) : M unit :=
  match l with
  | [] => mret tt
  | x :: l' => body x ;; for_each l' body
  end.

(** The exit status of the process once the script is over: an uncaught
    exception other than [SystemExit] ends it with a traceback and 1. *)
Definition exit_status {A} (r : result A) : nat :=
  match r with
  | Ret _ => 0
  | Raise (SystemExit n) => n
  | Raise _ => 1
  end.

(** ** Process environment *)

Definition print (line : string) : M unit :=
  fun w => (Ret tt, set_stdout (fun out => (out ++ [line])%list) w).

Definition sys_exit {A} (status : nat) : M A := raise (SystemExit status).

(** [datetime.datetime.now(la_timezone)] *)
Definition datetime_now : M date := fun w => (Ret (now_la w), w).

(** One draw [floor(random() * n)]: the tape holds the raw draws and every
    index below [n] can come out. *)
Definition randbelow (n : nat) : M nat :=
  fun w => (Ret (tape w (drawn w) mod n), set_drawn S w).

Definition char_at (i : nat) (s : string) : ascii :=
  default Ascii.zero (String.get i s).

(** [''.join(random.choices(population, k=k))] *)
Fixpoint random_choices (population : string) (k : nat) : M string :=
  match k with
  | O => mret ""
  | S k' =>
      i ← randbelow (String.length population);
      rest ← random_choices population k';
      mret (String (char_at i population) rest)
  end.

(** ** File system *)

(** The directory a path lies in. *)
Fixpoint dirname_aux (p : string) : option string :=
  match p with
  | "" => None
  | String c p' =>
      match dirname_aux p' with
      | Some d => Some (String c d)
      | None => if Ascii.eqb c "/" then Some "" else None
      end
  end.

Definition dirname (p : string) : string :=
  match dirname_aux p with
  | None => "."
  | Some "" => "/"
  | Some d => d
  end.

(** [open(path)] for reading, and [read()] of all of it. *)
Definition open_r (path : string) : M string :=
  fun w =>
    match files (fs w) !! path with
    | Some content => (Ret content, w)
    | None =>
        if decide (path ∈ dirs (fs w)) then (Raise (IsADirectoryError path), w)
        else (Raise (FileNotFoundError path), w)
    end.

(** [open(path, "w")]: the file is created or emptied at once. *)
Definition open_w (path : string) : M unit :=
  fun w =>
    if decide (path ∈ dirs (fs w)) then (Raise (IsADirectoryError path), w)
    else if decide (dirname path ∈ dirs (fs w)) then
      (Ret tt, set_fs (fun f => {| files := <[path := ""]> (files f); dirs := dirs f |}) w)
    else (Raise (FileNotFoundError path), w).

(** [file.write(text)] on a file open for writing. *)
Definition file_write (path text : string) : M unit :=
  fun w =>
    (Ret tt,
     set_fs (fun f =>
       {| files := <[path := default "" (files f !! path) +:+ text]> (files f);
          dirs := dirs f |}) w).

(** [Path(path).mkdir(parents=False, exist_ok=True)] *)
Definition mkdir (path : string) : M unit :=
  fun w =>
    if decide (path ∈ dirs (fs w)) then (Ret tt, w)
    else if decide (is_Some (files (fs w) !! path)) then (Raise (FileExistsError path), w)
    else if decide (dirname path ∈ dirs (fs w)) then
      (Ret tt, set_fs (fun f => {| files := files f; dirs := {[path]} ∪ dirs f |}) w)
    else (Raise (FileNotFoundError path), w).

(** [json.load(f)] on the text read from [f]. *)
Definition json_load `{JsonCodec} (text : string) : M json :=
  match json_loads text with
  | Some v => mret v
  | None => raise JSONDecodeError
  end.

(** [json.dump(obj, f)] *)
Definition json_dump `{JsonCodec} (obj : json) (path : string) : M unit :=
  file_write path (json_dumps obj).

(** ** The connector: [mysql.connector]

    One connection and one cursor are alive at a time, so they are tokens.
    [connect], [cursor()], [execute], [commit()] and [rollback()] each make
    a round trip to the server and raise [mysql.connector.Error] when it
    fails; the two [close()] are local. *)

Inductive connection := Connection.
Inductive cursor := Cursor.

(** A round trip to the server, which the fault schedule may fail. *)
Definition server_call : M unit :=
  fun w =>
    let s := mysql w in
    let rest := tail (faults s) in
    let w' := set_mysql (fun s =>
      {| live := live s; committed := committed s; faults := rest;
         connections := connections s; cursors := cursors s;
         fetched := fetched s |}) w in
    match faults s with
    | Some msg :: _ => (Raise (MySQLError msg), w')
    | _ => (Ret tt, w')
    end.

(** [mysql.connector.connect(database=None, user=.., password=.., host=..,
    port=..)] *)
Definition mysql_connect (user password host port : json) : M connection :=
  server_call ;;
  ((fun w =>
    (Ret Connection,
     set_mysql (fun s =>
       {| live := live s; committed := committed s; faults := faults s;
          connections := S (connections s); cursors := cursors s;
          fetched := fetched s |}) w)) : M connection).

(** [conn.cursor()]: the connector first pings the server and raises
    [OperationalError], with a message of its own, when the connection is
    not there. *)
Definition connection_not_available : string := "MySQL Connection not available.".

Definition conn_cursor (conn : connection) : M cursor :=
  fun w =>
    match server_call w with
    | (Ret _, w') =>
        (Ret Cursor,
         set_mysql (fun s =>
           {| live := live s; committed := committed s; faults := faults s;
              connections := connections s; cursors := S (cursors s);
              fetched := [] |}) w')
    | (Raise _, w') => (Raise (MySQLError connection_not_available), w')
    end.

(** [cursor.close()] *)
Definition cursor_close (c : cursor) : M unit :=
  fun w =>
    (Ret tt,
     set_mysql (fun s =>
       {| live := live s; committed := committed s; faults := faults s;
          connections := connections s; cursors := pred (cursors s);
          fetched := [] |}) w).

(** [cursor.execute(query)] *)
Definition cursor_execute (c : cursor) (q : stmt) : M unit :=
  server_call ;;
  ((fun w =>
    let s := mysql w in
    let kept := if implicit_commit q then live s else committed s in
    match run_stmt q (live s) with
    | inl msg =>
        (Raise (MySQLError msg),
         set_mysql (fun s =>
           {| live := live s; committed := kept; faults := faults s;
              connections := connections s; cursors := cursors s;
              fetched := [] |}) w)
    | inr (db, rows) =>
        (Ret tt,
         set_mysql (fun s =>
           {| live := db; committed := if implicit_commit q then db else kept;
              faults := faults s;
              connections := connections s; cursors := cursors s;
              fetched := rows |}) w)
    end) : M unit).

(** [cursor.fetchall()]: the rows of the last statement, one column each. *)
Definition cursor_fetchall (c : cursor) : M (list string) :=
  fun w => (Ret (fetched (mysql w)), w).

(** [conn.commit()] *)
Definition conn_commit (conn : connection) : M unit :=
  server_call ;;
  ((fun w =>
    (Ret tt,
     set_mysql (fun s =>
       {| live := live s; committed := live s; faults := faults s;
          connections := connections s; cursors := cursors s;
          fetched := fetched s |}) w)) : M unit).

(** [conn.rollback()]: a [ROLLBACK] sent to the server. *)
Definition conn_rollback (conn : connection) : M unit :=
  server_call ;;
  ((fun w =>
    (Ret tt,
     set_mysql (fun s =>
       {| live := committed s; committed := committed s; faults := faults s;
          connections := connections s; cursors := cursors s;
          fetched := fetched s |}) w)) : M unit).

(** [conn.close()]: what was not committed is lost. *)
Definition conn_close (conn : connection) : M unit :=
  fun w =>
    (Ret tt,
     set_mysql (fun s =>
       {| live := committed s; committed := committed s; faults := faults s;
          connections := pred (connections s); cursors := cursors s;
          fetched := fetched s |}) w).

(** ** The script *)

Definition support_file_path_prefix : string := "/connector/integration_tests".
Definition catalog_write_file : string :=
  support_file_path_prefix +:+ "/temp/configured_catalog_copy.json".
Definition catalog_source_file : string :=
  support_file_path_prefix +:+ "/configured_catalog_template.json".
Definition catalog_incremental_write_file : string :=
  support_file_path_prefix +:+ "/temp/incremental_configured_catalog_copy.json".
Definition catalog_incremental_source_file : string :=
  support_file_path_prefix +:+ "/incremental_configured_catalog_template.json".
Definition abnormal_state_write_file : string :=
  support_file_path_prefix +:+ "/temp/abnormal_state_copy.json".
Definition abnormal_state_file : string :=
  support_file_path_prefix +:+ "/abnormal_state_template.json".

Definition secret_config_file : string := "/connector/secrets/cat-config.json".
Definition secret_active_config_file : string :=
  support_file_path_prefix +:+ "/temp/config_active.json".
Definition secret_config_cdc_file : string := "/connector/secrets/cat-config-cdc.json".
Definition secret_active_config_cdc_file : string :=
  support_file_path_prefix +:+ "/temp/config_cdc_active.json".

Definition generated_schema_file : string := "./generated_schema.txt".

Section Script.
Context `{JsonCodec}.

Definition connect_to_db : M connection :=
  f ← open_r secret_config_file;
  secret ← json_load f;
  try_except_Error
    (user ← lift (getitem secret "username");
     password ← lift (getitem secret "password");
     host ← lift (getitem secret "host");
     port ← lift (getitem secret "port");
     conn ← mysql_connect user password host port;
     print "Connected to the database successfully" ;;
     mret conn)
    (fun error =>
       print ("Error connecting to the database: " +:+ error) ;;
       sys_exit 1).

Definition insert_records (conn : connection) (schema_name table_name : string)
    (records : list row) : M unit :=
  attempt (conn_cursor conn) (fun bound =>
    try_finally
      (try_except_Error
         (cursor ← lift bound;
          for_each records (fun record =>
            cursor_execute cursor
              (InsertOnDuplicateKeyKeep schema_name table_name record)) ;;
          conn_commit conn ;;
          print "Records inserted successfully")
         (fun error =>
            print ("Error inserting records: " +:+ error) ;;
            conn_rollback conn))
      (cursor ← local "cursor" bound;
       cursor_close cursor)).

Definition create_schema (conn : connection) (schema_name : string) : M unit :=
  attempt (conn_cursor conn) (fun bound =>
    try_finally
      (try_except_Error
         (cursor ← lift bound;
          cursor_execute cursor (CreateDatabaseIfNotExists schema_name) ;;
          conn_commit conn ;;
          print ("Database '" +:+ schema_name +:+ "' created successfully"))
         (fun error =>
            print ("Error creating database: " +:+ error) ;;
            conn_rollback conn))
      (cursor ← local "cursor" bound;
       cursor_close cursor)).

Definition write_supporting_file (schema_name : string) : M unit :=
  print ("writing schema name to files: " +:+ schema_name) ;;
  mkdir (support_file_path_prefix +:+ "/temp") ;;
  (open_w catalog_write_file ;;
   source_file ← open_r catalog_source_file;
   text ← lift (py_format source_file [schema_name]);
   file_write catalog_write_file text) ;;
  (open_w catalog_incremental_write_file ;;
   source_file ← open_r catalog_incremental_source_file;
   text ← lift (py_format source_file [schema_name]);
   file_write catalog_incremental_write_file text) ;;
  (open_w abnormal_state_write_file ;;
   source_file ← open_r abnormal_state_file;
   text ← lift (py_format source_file [schema_name; schema_name]);
   file_write abnormal_state_write_file text) ;;
  (base_config ← open_r secret_config_file;
   secret ← json_load base_config;
   secret ← lift (setitem secret "database" (JStr schema_name));
   open_w secret_active_config_file ;;
   json_dump secret secret_active_config_file) ;;
  (base_config ← open_r secret_config_cdc_file;
   secret ← json_load base_config;
   secret ← lift (setitem secret "database" (JStr schema_name));
   open_w secret_active_config_cdc_file ;;
   json_dump secret secret_active_config_cdc_file).

Definition create_table (conn : connection) (schema_name table_name : string) : M unit :=
  attempt (conn_cursor conn) (fun bound =>
    try_finally
      (try_except_Error
         (cursor ← lift bound;
          cursor_execute cursor (CreateTableIfNotExists schema_name table_name) ;;
          conn_commit conn ;;
          print ("Table '" +:+ schema_name +:+ "." +:+ table_name
                 +:+ "' created successfully"))
         (fun error =>
            print ("Error creating table: " +:+ error) ;;
            conn_rollback conn))
      (cursor ← local "cursor" bound;
       cursor_close cursor)).

Definition generate_schema_date_with_suffix : M string :=
  today ← datetime_now;
  let current_date := strftime_Ymd today in
  suffix ← random_choices (ascii_lowercase +:+ digits) 8;
  mret (current_date +:+ "_" +:+ suffix).

Definition prepare : M unit :=
  schema_name ← generate_schema_date_with_suffix;
  print ("schema_name: " +:+ schema_name) ;;
  open_w generated_schema_file ;;
  file_write generated_schema_file schema_name.

Definition load_schema_name_from_catalog : M string :=
  open_r generated_schema_file.

Definition cdc_insert : M unit :=
  schema_name ← load_schema_name_from_catalog;
  let new_records := [("4", "four"); ("5", "five")] in
  connection ← connect_to_db;
  let table_name := "id_and_name_cat" in
  (* [if connection:] a connection object is always true *)
  insert_records connection schema_name table_name new_records ;;
  conn_close connection.

Definition setup : M unit :=
  schema_name ← load_schema_name_from_catalog;
  write_supporting_file schema_name ;;
  let table_name := "id_and_name_cat" in
  let records := [("1", "one"); ("2", "two"); ("3", "three")] in
  connection ← connect_to_db;
  create_schema connection schema_name ;;
  create_table connection schema_name table_name ;;
  insert_records connection schema_name table_name records ;;
  conn_close connection.

Definition delete_schemas_with_prefix (conn : connection) (date_prefix : string) : M unit :=
  attempt (conn_cursor conn) (fun bound =>
    try_finally
      (try_except_Error
         (cursor ← lift bound;
          cursor_execute cursor (SelectSchemataLike (date_prefix +:+ "%")) ;;
          schemas ← cursor_fetchall cursor;
          for_each schemas (fun schema =>
            cursor_execute cursor (DropDatabaseIfExists schema) ;;
            print ("Database " +:+ schema +:+ " has been dropped.")) ;;
          conn_commit conn)
         (fun e =>
            print ("An error occurred: " +:+ e) ;;
            sys_exit 1))
      (cursor ← local "cursor" bound;
       cursor_close cursor)).

Definition teardown : M unit :=
  conn ← connect_to_db;
  today ← datetime_now;
  yesterday ← lift (minus_one_day today);
  let formatted_yesterday := strftime_Ymd yesterday in
  delete_schemas_with_prefix conn formatted_yesterday.

Definition final_teardown : M unit :=
  conn ← connect_to_db;
  schema_name ← load_schema_name_from_catalog;
  print ("delete database " +:+ schema_name) ;;
  delete_schemas_with_prefix conn schema_name.

(** The body under [if __name__ == "__main__":], with [sys.argv]. *)
Definition main (argv : list string) : M unit :=
  command ← match argv !! 1 with
            | Some arg => mret arg
            | None => raise IndexError
            end;
  if String.eqb command "setup" then setup
  else if String.eqb command "setup_cdc" then setup
  else if String.eqb command "teardown" then teardown
  else if String.eqb command "final_teardown" then final_teardown
  else if String.eqb command "prepare" then prepare
  else if String.eqb command "insert" then cdc_insert
  else
    print ("Unrecognized command " +:+ command +:+ ".") ;;
    sys_exit 1.

End Script.

(** ** Sample worlds

    A codec that knows the two documents of the sample file system, and the
    worlds the concrete runs below start from. *)

Definition sample_secret : json :=
  JObj [("username", JStr "root"); ("password", JStr "example");
        ("host", JStr "127.0.0.1"); ("port", JInt 3306)].

Definition sample_secret_cdc : json :=
  JObj [("username", JStr "root"); ("password", JStr "example");
        ("host", JStr "127.0.0.1"); ("port", JInt 3306);
        ("replication_method", JStr "CDC")].

Definition sample_secret_text : string := "{plain connector config}".
Definition sample_secret_cdc_text : string := "{cdc connector config}".

#[local] Instance sample_codec : JsonCodec := {|
  json_loads text :=
    if String.eqb text sample_secret_text then Some sample_secret
    else if String.eqb text sample_secret_cdc_text then Some sample_secret_cdc
    else None;
  json_dumps obj :=
    match obj with
    | JObj fields => "{" +:+ String.concat ", " fields.*1 +:+ "}"
    | _ => "null"
    end
|}.

Definition sample_name : string := "20240101_abcd1234".

Definition sample_files (catalog_template abnormal_template : string)
  : gmap string string :=
  list_to_map
    [(secret_config_file, sample_secret_text);
     (secret_config_cdc_file, sample_secret_cdc_text);
     (catalog_source_file, catalog_template);
     (catalog_incremental_source_file, "incremental: %s");
     (abnormal_state_file, abnormal_template);
     (generated_schema_file, sample_name)].

Definition sample_fs (catalog_template abnormal_template : string) : filesystem :=
  {| files := sample_files catalog_template abnormal_template;
     dirs := {[ "."; "/connector/secrets"; support_file_path_prefix ]} |}.

Definition fixture_table : gmap string table := {[ "id_and_name_cat" := [] ]}.

Definition sample_session (db : catalog) (schedule : list (option string)) : session :=
  {| live := db; committed := db; faults := schedule;
     connections := 0; cursors := 0; fetched := [] |}.

Definition sample_world (f : filesystem) (db : catalog)
    (schedule : list (option string)) (today : date) : world :=
  {| fs := f; mysql := sample_session db schedule; stdout := [];
     now_la := today; tape := fun i => 7 * i + 3; drawn := 0 |}.

Definition jan (d : nat) : date := {| year := 2024; month := 1; day := d |}.

(** Three runs of three consecutive days are on the server. *)
Definition three_days : catalog :=
  {[ "20240101_aaaaaaaa" := fixture_table;
     "20240102_bbbbbbbb" := fixture_table;
     "20240103_cccccccc" := fixture_table ]}.

(** The run of [sample_name] and another whose name goes on after it. *)
Definition two_runs : catalog :=
  {[ sample_name := fixture_table;
     sample_name +:+ "_keep" := fixture_table ]}.

Definition plain_fs : filesystem := sample_fs "catalog: %s" "state: %s %s".

(** ** Vocabulary of the statements *)

(** Every character of [s] satisfies [p]. *)
Fixpoint all_chars (p : ascii -> bool) (s : string) : bool :=
  match s with
  | "" => true
  | String c s' => p c && all_chars p s'
  end.

(** A character that [LIKE] reads as a wildcard. *)
Definition is_wildcard (c : ascii) : bool := Ascii.eqb c "%" || Ascii.eqb c "_".

Definition not_percent (c : ascii) : bool := negb (Ascii.eqb c "%").

(** The rows of a table of the catalog, if it is there. *)
Definition rows_of (db : catalog) (schema_name table_name : string) : option table :=
  db !! schema_name ≫= fun tables => tables !! table_name.

(** The secrets file is readable, parses, and holds the four credentials. *)
Definition has_credentials `{JsonCodec} (w : world) : Prop :=
  exists text secret,
    files (fs w) !! secret_config_file = Some text /\
    json_loads text = Some secret /\
    Forall (fun key => exists v, getitem secret key = Ret v)
      ["username"; "password"; "host"; "port"].

(** The first [k] calls the server gets from [w] on are answered, the next
    is refused with [msg], and [rest] is the schedule after it. *)
Definition refused_after (k : nat) (msg : string) (rest : list (option string))
    (w : world) : Prop :=
  faults (mysql w) = (replicate k None ++ Some msg :: rest)%list.

(** [op] recovers from a failed call when the server lets it.  [calls] is
    the number of calls of its [try] block after the cursor is obtained,
    the commit being the last; [ready] says that the catalog holds what the
    statements name.
    - With the server answering every call, [op] returns normally with its
      cursor closed and nothing left uncommitted, having printed its
      success line or an error behind [log_prefix].
    - When one of the [calls] is refused, the message is the line printed
      behind [log_prefix] and the cursor is closed; if the server answers
      the rollback, [op] returns normally with nothing left uncommitted; if
      it refuses the rollback as well, [op] raises what the rollback
      raised. *)
Definition recovers (op : M unit) (calls : nat) (ready : Prop)
    (success_line log_prefix : string) (w : world) : Prop :=
  (faults (mysql w) = [] ->
     (op w).1 = Ret tt /\
     cursors (mysql (op w).2) = cursors (mysql w) /\
     live (mysql (op w).2) = committed (mysql (op w).2) /\
     (stdout (op w).2 = (stdout w ++ [success_line])%list \/
      exists msg, stdout (op w).2 = (stdout w ++ [log_prefix +:+ msg])%list)) /\
  (forall k msg rest,
     1 <= k <= calls -> ready -> refused_after k msg rest w ->
     stdout (op w).2 = (stdout w ++ [log_prefix +:+ msg])%list /\
     cursors (mysql (op w).2) = cursors (mysql w) /\
     ((forall msg' rest', rest <> Some msg' :: rest') ->
        (op w).1 = Ret tt /\
        live (mysql (op w).2) = committed (mysql (op w).2)) /\
     (forall msg' rest', rest = Some msg' :: rest' ->
        (op w).1 = Raise (MySQLError msg') /\
        exit_status (op w).1 = 1)).

(** [op] makes a failed call fatal.  With the server answering every call
    it returns normally; when one of its [calls] after the cursor is
    refused, it leaves through [sys.exit(1)] with the message behind
    [log_prefix] as the last line printed.  Its cursor is closed either
    way. *)
Definition exits_on_failure (op : M unit) (calls : nat) (log_prefix : string)
    (w : world) : Prop :=
  (faults (mysql w) = [] ->
     (op w).1 = Ret tt /\
     cursors (mysql (op w).2) = cursors (mysql w)) /\
  (forall k msg rest,
     1 <= k <= calls -> refused_after k msg rest w ->
     (op w).1 = Raise (SystemExit 1) /\
     exit_status (op w).1 = 1 /\
     (exists out, stdout (op w).2 = (out ++ [log_prefix +:+ msg])%list) /\
     cursors (mysql (op w).2) = cursors (mysql w)).

(** The schema names the enumeration behind [prefix] answers. *)
Definition enumerated (prefix : string) (db : catalog) : list string :=
  match run_stmt (SelectSchemataLike (prefix +:+ "%")) db with
  | inr (_, names) => names
  | inl _ => []
  end.

(** Some schema of the catalog matches the pattern. *)
Definition some_schema_like (pattern : string) (db : catalog) : Prop :=
  exists name, is_Some (db !! name) /\ like pattern name = true.

(** The world once [connect_to_db] has returned a connection. *)
Definition after_connect (w : world) : world :=
  set_stdout (fun out => (out ++ ["Connected to the database successfully"])%list)
    (set_mysql (fun s =>
       {| live := live s; committed := committed s; faults := tail (faults s);
          connections := S (connections s); cursors := cursors s;
          fetched := fetched s |}) w).

(** The next call to the server goes through. *)
Definition next_call_succeeds (w : world) : Prop :=
  forall msg rest, faults (mysql w) <> Some msg :: rest.

(** The catalog once the schemas of [names] are dropped, in that order. *)
Definition drop_all (names : list string) (db : catalog) : catalog :=
  foldl (fun db name => delete name db) db names.

(** The rows [records] leave in a table when upserted in order. *)
Definition upsert_all (records : list row) (rows : table) : table :=
  foldl (fun rows record => upsert record rows) rows records.

(** The directory of the generated files and the five files written there. *)
Definition temp_dir : string := support_file_path_prefix +:+ "/temp".

Definition written_files : list string :=
  [catalog_write_file; catalog_incremental_write_file; abnormal_state_write_file;
   secret_active_config_file; secret_active_config_cdc_file].

(** [temp] is there or can be made, and no file to write is a directory. *)
Definition temp_dir_ready (w : world) : Prop :=
  ((temp_dir ∈ dirs (fs w)) \/
   (files (fs w) !! temp_dir = None /\ (support_file_path_prefix ∈ dirs (fs w)))) /\
  Forall (fun path => path ∉ dirs (fs w)) written_files.

(** The file at [path] is a template with one [%s], between [pre] and
    [post], and no other [%]. *)
Definition one_placeholder (w : world) (path pre post : string) : Prop :=
  files (fs w) !! path = Some (pre +:+ "%s" +:+ post) /\
  all_chars not_percent pre = true /\ all_chars not_percent post = true.

(** The file at [path] is a template with two [%s], [a] before them, [b]
    between and [c] after, and no other [%]. *)
Definition two_placeholders (w : world) (path a b c : string) : Prop :=
  files (fs w) !! path = Some (a +:+ "%s" +:+ b +:+ "%s" +:+ c) /\
  all_chars not_percent a = true /\ all_chars not_percent b = true /\
  all_chars not_percent c = true.

(** The three templates of the file system: the two catalogs hold one
    [%s], the abnormal state two, and no other [%]. *)
Record templates_ready (w : world) (pre post ipre ipost a b c : string) : Prop := {
  catalog_template :
    files (fs w) !! catalog_source_file = Some (pre +:+ "%s" +:+ post);
  catalog_plain :
    all_chars not_percent pre = true /\ all_chars not_percent post = true;
  incremental_template :
    files (fs w) !! catalog_incremental_source_file = Some (ipre +:+ "%s" +:+ ipost);
  incremental_plain :
    all_chars not_percent ipre = true /\ all_chars not_percent ipost = true;
  abnormal_template :
    files (fs w) !! abnormal_state_file = Some (a +:+ "%s" +:+ b +:+ "%s" +:+ c);
  abnormal_plain :
    all_chars not_percent a = true /\ all_chars not_percent b = true /\
    all_chars not_percent c = true
}.

(** The two secrets files parse as JSON objects. *)
Definition configs_ready `{JsonCodec} (w : world) : Prop :=
  Forall (fun path => exists text fields,
            files (fs w) !! path = Some text /\ json_loads text = Some (JObj fields))
    [secret_config_file; secret_config_cdc_file].

(** The last two blocks of [write_supporting_file]: the active configs. *)
Definition write_active_configs `{JsonCodec} (schema_name : string) : M unit :=
  (base_config ← open_r secret_config_file;
   secret ← json_load base_config;
   secret ← lift (setitem secret "database" (JStr schema_name));
   open_w secret_active_config_file ;;
   json_dump secret secret_active_config_file) ;;
  (base_config ← open_r secret_config_cdc_file;
   secret ← json_load base_config;
   secret ← lift (setitem secret "database" (JStr schema_name));
   open_w secret_active_config_cdc_file ;;
   json_dump secret secret_active_config_cdc_file).

(** [m] leaves the file at [path] as it is, however it ends. *)
Definition keeps_file {A} (path : string) (m : M A) : Prop :=
  forall w, files (fs (m w).2) !! path = files (fs w) !! path.

(** What [setup] reads is in place: the persisted schema name, the
    directory, the templates, the secrets. *)
Definition setup_files_ready `{JsonCodec} (w : world) (schema_name : string) : Prop :=
  files (fs w) !! generated_schema_file = Some schema_name /\
  temp_dir_ready w /\
  (exists pre post ipre ipost a b c, templates_ready w pre post ipre ipost a b c) /\
  configs_ready w /\
  has_credentials w.

(** The fixture table holds no row: it is empty, or not there yet. *)
Definition fixture_empty (db : catalog) (schema_name : string) : Prop :=
  rows_of db schema_name "id_and_name_cat" = None \/
  rows_of db schema_name "id_and_name_cat" = Some [].

(** ** Vocabulary of the further statements *)

(** [m] keeps the invariant [I], however it ends. *)
Definition keeps_inv {A} (I : world -> Prop) (m : M A) : Prop :=
  forall w, I w -> I (m w).2.

(** [P] holds of the catalog the session sees and of the committed one. *)
Definition session_inv (P : catalog -> Prop) (w : world) : Prop :=
  P (live (mysql w)) /\ P (committed (mysql w)).

(** A statement that goes through takes a catalog with [P] to one with [P]. *)
Definition stmt_keeps (P : catalog -> Prop) (q : stmt) : Prop :=
  forall db db' rows, P db -> run_stmt q db = inr (db', rows) -> P db'.

(** No table of the catalog holds an id twice. *)
Definition keys_unique (db : catalog) : Prop :=
  forall s t rows, rows_of db s t = Some rows -> NoDup (map fst rows).

(** Every schema of [db0] is in [db], and every table of [db0] is in [db]
    with the rows it had, in their place, before any other. *)
Definition rows_kept (db0 db : catalog) : Prop :=
  (forall s, is_Some (db0 !! s) -> is_Some (db !! s)) /\
  (forall s t rows0, rows_of db0 s t = Some rows0 ->
     exists rows, rows_of db s t = Some rows /\ rows0 `prefix_of` rows).

(** The schemas other than [name] are those of [db0], as they were. *)
Definition same_elsewhere (name : string) (db0 db : catalog) : Prop :=
  forall s, s <> name -> db !! s = db0 !! s.

(** [m] raises nothing but exceptions of [E]. *)
Definition raises_only {A} (E : exn -> Prop) (m : M A) : Prop :=
  forall w e, (m w).1 = Raise e -> E e.

Definition is_mysql_error (e : exn) : Prop := exists msg, e = MySQLError msg.

(** What gets out of a guarded operation of the seeding: the error of a
    rollback the server refuses, and the [cursor] its [finally] block finds
    unbound. *)
Definition escapes_recovery (e : exn) : Prop :=
  is_mysql_error e \/ e = UnboundLocalError "cursor".

(** A command over for the process without a traceback: it returned, or
    left through [sys.exit]. *)
Definition ended_by_choice (r : result unit) : Prop :=
  r = Ret tt \/ exists status, r = Raise (SystemExit status).

(** [m] has as many connections open when it is over as when it began, if
    it is over by choice. *)
Definition closes_what_it_opens (m : M unit) : Prop :=
  forall w, ended_by_choice (m w).1 ->
            connections (mysql (m w).2) = connections (mysql w).

(** The commands [main] knows. *)
Definition known_command (command : string) : bool :=
  existsb (String.eqb command)
    ["setup"; "setup_cdc"; "teardown"; "final_teardown"; "prepare"; "insert"].

(** The keys [connect_to_db] reads, in the order it reads them. *)
Definition credential_keys : list string := ["username"; "password"; "host"; "port"].

(** The first key of [keys] that [fields] lacks. *)
Fixpoint first_missing (keys : list string) (fields : list (string * json)) : option string :=
  match keys with
  | [] => None
  | key :: keys' =>
      match assoc_get key fields with
      | Some _ => first_missing keys' fields
      | None => Some key
      end
  end.

(** The seed records of [setup]. *)
Definition seed_records : list row := [("1", "one"); ("2", "two"); ("3", "three")].

(** The files once [write_supporting_file] has returned: the three copies
    and the two active configs, over what was there. *)
Definition files_written (copy incremental abnormal config config_cdc : string)
    (fl : gmap string string) : gmap string string :=
  <[secret_active_config_cdc_file := config_cdc]>
    (<[secret_active_config_file := config]>
       (<[abnormal_state_write_file := abnormal]>
          (<[catalog_incremental_write_file := incremental]>
             (<[catalog_write_file := copy]> fl)))).

(** * Properties *)

(** ** Text *)

Lemma append_cons (c : ascii) (s t : string) : String c s +:+ t = String c (s +:+ t).
Proof. reflexivity. Qed.

Lemma string_cons_inj (a b : ascii) (s t : string) :
  String a s = String b t -> a = b /\ s = t.
Proof. intros E. now inversion E. Qed.

Lemma append_nil_l (t : string) : "" +:+ t = t.
Proof. reflexivity. Qed.

Lemma append_nil_r (s : string) : s +:+ "" = s.
Proof. induction s as [|c s IH]; [reflexivity|]. now rewrite append_cons, IH. Qed.

Lemma append_assoc (s t u : string) : (s +:+ t) +:+ u = s +:+ (t +:+ u).
Proof. induction s as [|c s IH]; [reflexivity|]. now rewrite !append_cons, IH. Qed.

(** ** Stepping through the monad *)

Lemma bind_ret {A B} (m : M A) (k : A -> M B) (w w' : world) (a : A) :
  m w = (Ret a, w') -> (m ≫= k) w = k a w'.
Proof. intros E. unfold mbind, M_bind. now rewrite E. Qed.

Lemma bind_raise {A B} (m : M A) (k : A -> M B) (w w' : world) (e : exn) :
  m w = (Raise e, w') -> (m ≫= k) w = (Raise e, w').
Proof. intros E. unfold mbind, M_bind. now rewrite E. Qed.

(** ** Command dispatch *)

Section Dispatch.
Context `{JsonCodec}.

(** C9: dispatching [setup_cdc] runs the very computation that dispatching
    [setup] runs: on every world the two give the same result, the same
    output and the same final state of file system and server. *)
Theorem setup_cdc_is_setup (prog : string) (rest : list string) (w : world) :
  main (prog :: "setup_cdc" :: rest) w = main (prog :: "setup" :: rest) w.
Proof. reflexivity. Qed.

(** C10: with no positional argument, reading [sys.argv[1]] raises
    [IndexError] before any dispatch: nothing is printed, nothing else
    changes, and the exception is not the [SystemExit] of the
    unrecognized-command branch. *)
Theorem no_argument_raises_index_error (prog : string) (w : world) :
  main [prog] w = (Raise IndexError, w).
Proof. reflexivity. Qed.

End Dispatch.

(** ** The schema-name generator *)

Lemma digit_char_is_digit (n : nat) : n < 10 -> is_digit (digit_char n) = true.
Proof.
  intros Hn.
  do 10 (destruct n as [|n]; [reflexivity|]).
  lia.
Qed.

Lemma MAXYEAR_eq : MAXYEAR = 9 * 1000 + 999.
Proof. reflexivity. Qed.

Lemma decimal_aux_four (fuel n : nat) (acc : string) :
  4 <= fuel -> 1000 <= n -> n <= 9 * 1000 + 999 ->
  decimal_aux fuel n acc =
    String (digit_char (n / 10 / 10 / 10 mod 10))
      (String (digit_char (n / 10 / 10 mod 10))
         (String (digit_char (n / 10 mod 10))
            (String (digit_char (n mod 10)) acc))).
Proof.
  intros Hf Hlo Hhi.
  do 4 (destruct fuel as [|fuel]; [lia|]).
  cbn [decimal_aux].
  pose proof (Nat.div_mod_eq n 10) as D1.
  pose proof (Nat.mod_upper_bound n 10 ltac:(lia)) as B1.
  pose proof (Nat.div_mod_eq (n / 10) 10) as D2.
  pose proof (Nat.mod_upper_bound (n / 10) 10 ltac:(lia)) as B2.
  pose proof (Nat.div_mod_eq (n / 10 / 10) 10) as D3.
  pose proof (Nat.mod_upper_bound (n / 10 / 10) 10 ltac:(lia)) as B3.
  generalize dependent (n / 10). intros q1 D1 D2 B2.
  generalize dependent (q1 / 10). intros q2 D2 D3 B3.
  generalize dependent (q2 / 10). intros q3 D3.
  assert (E1 : (n <? 10) = false) by (apply Nat.ltb_ge; lia).
  assert (E2 : (q1 <? 10) = false) by (apply Nat.ltb_ge; lia).
  assert (E3 : (q2 <? 10) = false) by (apply Nat.ltb_ge; lia).
  assert (E4 : (q3 <? 10) = true) by (apply Nat.ltb_lt; lia).
  now rewrite E1, E2, E3, E4.
Qed.

Lemma match_repeat_cons (k : cclass) (n : nat) (c : ascii) (s : string) :
  class_mem k c = true ->
  match_repeat k (S n) (String c s) = match_repeat k n s.
Proof. intros E. cbn [match_repeat]. now rewrite E. Qed.

Lemma match_repeat_app (k : cclass) (s rest : string) :
  all_chars (class_mem k) s = true ->
  match_repeat k (String.length s) (s +:+ rest) = Some rest.
Proof.
  induction s as [|c s IH]; intros Hall; [reflexivity|].
  cbn in Hall. apply andb_prop in Hall as [Hc Hs].
  cbn [String.length]. rewrite append_cons, match_repeat_cons by exact Hc.
  now apply IH.
Qed.

Lemma fullmatch_step (k : cclass) (n : nat) (s rest : string) (re : regex) :
  match_repeat k n s = Some rest ->
  fullmatch ((k, n) :: re) s = fullmatch re rest.
Proof. intros E. cbn [fullmatch]. now rewrite E. Qed.

(** The strings [random.choices] can return: [k] characters of the
    population. *)
Lemma random_choices_total (p : ascii -> bool) (population : string) (k : nat) (w : world) :
  0 < String.length population ->
  all_chars p population = true ->
  exists s w',
    random_choices population k w = (Ret s, w') /\
    String.length s = k /\ all_chars p s = true.
Proof.
  intros Hpop Hall. revert w.
  induction k as [|k IH]; intros w.
  - exists "", w. repeat split.
  - destruct (IH (set_drawn S w)) as (s & w' & Hrun & Hlen & Hs).
    exists (String (char_at (tape w (drawn w) mod String.length population) population) s), w'.
    split; [|split].
    + cbn [random_choices]. unfold randbelow at 1.
      unfold mbind, M_bind at 1. unfold mbind, M_bind at 1. now rewrite Hrun.
    + cbn. now rewrite Hlen.
    + cbn [all_chars]. rewrite Hs, andb_true_r.
      assert (Hi : tape w (drawn w) mod String.length population < String.length population)
        by (apply Nat.mod_upper_bound; lia).
      clear - Hall Hi. revert Hi Hall.
      generalize (tape w (drawn w) mod String.length population) as i.
      induction population as [|c pop IHp]; intros i Hi Hall; [cbn in Hi; lia|].
      cbn in Hall. apply andb_prop in Hall as [Hc Hrest].
      destruct i as [|i]; [exact Hc|].
      unfold char_at in *. cbn [String.get]. apply IHp; [cbn in Hi; lia | exact Hrest].
Qed.

(** C5: the generator always returns, and what it returns matches
    [^\d{8}_[a-z0-9]{8}$], for every date with a four-digit year the clock
    can give and every outcome of the random draws. *)
Theorem generated_name_matches_schema_name_re (w : world) :
  valid_date (now_la w) = true ->
  1000 <= year (now_la w) ->
  exists name w',
    generate_schema_date_with_suffix w = (Ret name, w') /\
    fullmatch schema_name_re name = true.
Proof.
  intros Hvalid Hyear.
  assert (Hmax : year (now_la w) <= 9 * 1000 + 999).
  { unfold valid_date in Hvalid. rewrite !andb_true_iff in Hvalid.
    destruct Hvalid as [[[[[_ Hy] _] _] _] _].
    apply Nat.leb_le in Hy. now rewrite MAXYEAR_eq in Hy. }
  destruct (random_choices_total (class_mem CLowerOrDigit)
              (ascii_lowercase +:+ digits) 8 w) as (suffix & w' & Hrun & Hlen & Hall);
    [vm_compute; lia | reflexivity |].
  exists (strftime_Ymd (now_la w) +:+ "_" +:+ suffix), w'. split.
  - unfold generate_schema_date_with_suffix, datetime_now.
    unfold mbind, M_bind at 1. unfold mbind, M_bind at 1. now rewrite Hrun.
  - unfold strftime_Ymd, decimal, two_digits, char.
    rewrite decimal_aux_four by lia.
    repeat first [rewrite append_cons | rewrite append_nil_l].
    unfold schema_name_re.
    rewrite (fullmatch_step CDigit 8 _ (String "_" suffix)).
    2:{ rewrite !match_repeat_cons
          by (cbn [class_mem]; apply digit_char_is_digit, Nat.mod_upper_bound; lia).
        reflexivity. }
    rewrite (fullmatch_step (CLit "_") 1 _ suffix) by reflexivity.
    rewrite (fullmatch_step CLowerOrDigit 8 _ "").
    2:{ rewrite <- Hlen. rewrite <- (append_nil_r suffix) at 2.
        now apply match_repeat_app. }
    reflexivity.
Qed.

(** A clock in January 2024 and the sample random tape. *)
Lemma generated_name_matches_schema_name_re_witness :
  exists name w',
    generate_schema_date_with_suffix (sample_world plain_fs ∅ [] (jan 3)) = (Ret name, w') /\
    fullmatch schema_name_re name = true.
Proof.
  apply generated_name_matches_schema_name_re; [reflexivity | cbn; lia].
Defined.

(** ** Error handling *)

Ltac run :=
  unfold attempt, local, try_finally, try_except_Error, conn_cursor, cursor_execute,
    conn_commit, mysql_connect, server_call, print, conn_rollback, cursor_close,
    conn_close, sys_exit, raise, lift, cursor_fetchall, datetime_now,
    mbind, M_bind, mret, M_ret, set_mysql, set_stdout;
  cbn.

Ltac run_in H :=
  unfold attempt, local, try_finally, try_except_Error, conn_cursor, cursor_execute,
    conn_commit, mysql_connect, server_call, print, conn_rollback, cursor_close,
    conn_close, sys_exit, raise, lift, cursor_fetchall, datetime_now,
    mbind, M_bind, mret, M_ret, set_mysql, set_stdout in H;
  cbn in H.

(** Name the outcome of the loop the goal is stuck on, with what [L] says
    of it. *)
Ltac loop_outcome L r w2 :=
  lazymatch goal with
  | |- context [@for_each ?A ?l ?body ?w1] =>
      specialize (L w1); run_in L;
      destruct (@for_each A l body w1) as [r w2]
  end.

Ltac finish := repeat split; eauto; try congruence; try (simplify_eq; eauto; fail).

Lemma insert_loop_frame (schema_name table_name : string) (records : list row) (w : world) :
  let rw := for_each records (fun record =>
              cursor_execute Cursor
                (InsertOnDuplicateKeyKeep schema_name table_name record)) w in
  (rw.1 = Ret tt \/ exists msg, rw.1 = Raise (MySQLError msg)) /\
  committed (mysql rw.2) = committed (mysql w) /\
  cursors (mysql rw.2) = cursors (mysql w) /\
  connections (mysql rw.2) = connections (mysql w) /\
  stdout rw.2 = stdout w /\
  fs rw.2 = fs w /\
  (forall msg rest, records <> [] -> faults (mysql w) = Some msg :: rest ->
     rw.1 = Raise (MySQLError msg) /\ live (mysql rw.2) = live (mysql w)).
Proof.
  revert w. induction records as [|record records IH]; intros w.
  - cbn. finish.
  - destruct w as [fsys [lv cm fl cn cu fe] out now tp dr].
    cbn [for_each]. run.
    destruct fl as [|[msg|] fl]; cbn.
    2:{ finish. }
    all: destruct (lv !! schema_name) as [tables|]; cbn;
      [destruct (tables !! table_name) as [rows|]; cbn|];
      try (finish; fail).
    all: loop_outcome IH r w2;
      cbn in *; destruct IH as (Hr & Hc & Hcu & Hcn & Hout & Hfs & _);
      finish.
Qed.

Lemma drop_loop_frame (schemas : list string) (w : world) :
  let rw := for_each schemas (fun schema =>
              cursor_execute Cursor (DropDatabaseIfExists schema) ;;
              print ("Database " +:+ schema +:+ " has been dropped.")) w in
  (rw.1 = Ret tt \/ exists msg, rw.1 = Raise (MySQLError msg)) /\
  cursors (mysql rw.2) = cursors (mysql w) /\
  connections (mysql rw.2) = connections (mysql w) /\
  fs rw.2 = fs w /\
  (forall msg rest, schemas <> [] -> faults (mysql w) = Some msg :: rest ->
     rw.1 = Raise (MySQLError msg)).
Proof.
  revert w. induction schemas as [|schema schemas IH]; intros w.
  - cbn. finish.
  - destruct w as [fsys [lv cm fl cn cu fe] out now tp dr].
    cbn [for_each]. run.
    destruct fl as [|[msg|] fl]; cbn.
    2:{ finish. }
    all: loop_outcome IH r w2;
      cbn in *; destruct IH as (Hr & Hcu & Hcn & Hfs & _);
      finish.
Qed.

Lemma insert_loop_quiet (schema_name table_name : string) (records : list row) (w : world) :
  faults (mysql w) = [] ->
  faults (mysql (for_each records (fun record =>
                   cursor_execute Cursor
                     (InsertOnDuplicateKeyKeep schema_name table_name record)) w).2) = [].
Proof.
  revert w. induction records as [|record records IH]; intros w Hfaults; [exact Hfaults|].
  destruct w as [fsys [lv cm fl cn cu fe] out now tp dr]. cbn in Hfaults. subst fl.
  cbn [for_each]. run.
  destruct (lv !! schema_name) as [tables|]; cbn;
    [destruct (tables !! table_name) as [rows|]; cbn|]; try reflexivity.
  loop_outcome IH r w2. cbn in IH. now apply IH.
Qed.

(** The insertions under a schedule that refuses a call: they stop at the
    refused one, or all go through. *)
Lemma insert_loop_schedule (schema_name table_name : string) (records : list row)
    (k : nat) (msg : string) (rest : list (option string)) (w : world) :
  is_Some (rows_of (live (mysql w)) schema_name table_name) ->
  refused_after k msg rest w ->
  let rw := for_each records (fun record =>
              cursor_execute Cursor
                (InsertOnDuplicateKeyKeep schema_name table_name record)) w in
  (k < List.length records -> rw.1 = Raise (MySQLError msg) /\ faults (mysql rw.2) = rest) /\
  (List.length records <= k ->
     rw.1 = Ret tt /\ refused_after (k - List.length records) msg rest rw.2).
Proof.
  revert w k. induction records as [|record records IH]; intros w k Hready Hsched.
  - cbn. split; [lia|]. intros _. now rewrite Nat.sub_0_r.
  - destruct w as [fsys [lv cm fl cn cu fe] out now tp dr].
    unfold refused_after in *. cbn in Hsched. subst fl.
    destruct Hready as [rows Hrows]. unfold rows_of in Hrows. cbn in Hrows.
    destruct (lv !! schema_name) as [tables|] eqn:Hs; [|discriminate]. cbn in Hrows.
    cbn [for_each]. destruct k as [|k]; run.
    + split; [auto|]. cbn. lia.
    + rewrite Hs. cbn. rewrite Hrows. cbn.
      unfold rows_of in IH. loop_outcome IH r w2.
      specialize (IH k). rewrite !lookup_insert_eq in IH. cbn in IH.
      rewrite ?lookup_insert_eq in IH.
      specialize (IH ltac:(eauto) eq_refl). destruct IH as [IH1 IH2].
      cbn in *. split; intros; first [apply IH1; lia | apply IH2; lia].
Qed.

Lemma drop_loop_quiet (schemas : list string) (w : world) :
  faults (mysql w) = [] ->
  let rw := for_each schemas (fun schema =>
              cursor_execute Cursor (DropDatabaseIfExists schema) ;;
              print ("Database " +:+ schema +:+ " has been dropped.")) w in
  rw.1 = Ret tt /\ faults (mysql rw.2) = [].
Proof.
  revert w. induction schemas as [|schema schemas IH]; intros w Hfaults; [now split|].
  destruct w as [fsys [lv cm fl cn cu fe] out now tp dr]. cbn in Hfaults. subst fl.
  cbn [for_each]. run.
  loop_outcome IH r w2. cbn in IH. now apply IH.
Qed.

(** The drops under a schedule that refuses a call. *)
Lemma drop_loop_schedule (schemas : list string)
    (k : nat) (msg : string) (rest : list (option string)) (w : world) :
  refused_after k msg rest w ->
  let rw := for_each schemas (fun schema =>
              cursor_execute Cursor (DropDatabaseIfExists schema) ;;
              print ("Database " +:+ schema +:+ " has been dropped.")) w in
  (k < List.length schemas -> rw.1 = Raise (MySQLError msg) /\ faults (mysql rw.2) = rest) /\
  (List.length schemas <= k ->
     rw.1 = Ret tt /\ refused_after (k - List.length schemas) msg rest rw.2).
Proof.
  revert w k. induction schemas as [|schema schemas IH]; intros w k Hsched.
  - cbn. split; [lia|]. intros _. now rewrite Nat.sub_0_r.
  - destruct w as [fsys [lv cm fl cn cu fe] out now tp dr].
    unfold refused_after in *. cbn in Hsched. subst fl.
    cbn [for_each]. destruct k as [|k]; run.
    + split; [auto|]. cbn. lia.
    + loop_outcome IH r w2.
      specialize (IH k eq_refl). destruct IH as [IH1 IH2].
      cbn in *. split; intros; first [apply IH1; lia | apply IH2; lia].
Qed.

Section ErrorHandling.
Context `{JsonCodec}.

Ltac schedule_cases :=
  repeat split; intros; simplify_eq; eauto;
  try (exfalso;
       match goal with
       | N : forall m r, _ <> _ |- _ => eapply N; reflexivity
       end);
  try congruence.

Lemma create_schema_recovers (conn : connection) (name : string) (w : world) :
  recovers (create_schema conn name) 2 True
    ("Database '" +:+ name +:+ "' created successfully")
    "Error creating database: " w.
Proof.
  destruct w as [fsys [lv cm fl cn cu fe] out now tp dr].
  unfold recovers, refused_after, create_schema. cbn [mysql faults stdout cursors]. split.
  - intros ->. run. destruct (lv !! name); cbn; finish.
  - intros k msg rest Hk _ ->.
    destruct k as [|[|[|k]]]; try lia; run.
    all: destruct (lv !! name); cbn.
    all: destruct rest as [|[msg'|] rest]; cbn; schedule_cases.
Qed.

Lemma create_table_recovers (conn : connection) (name table_name : string) (w : world) :
  recovers (create_table conn name table_name) 2 (is_Some (live (mysql w) !! name))
    ("Table '" +:+ name +:+ "." +:+ table_name +:+ "' created successfully")
    "Error creating table: " w.
Proof.
  destruct w as [fsys [lv cm fl cn cu fe] out now tp dr].
  unfold recovers, refused_after, create_table. cbn [mysql faults stdout cursors live]. split.
  - intros ->. run.
    destruct (lv !! name) as [tables|]; cbn;
      [destruct (tables !! table_name); cbn|]; finish.
  - intros k msg rest Hk [tables Hs] ->.
    destruct k as [|[|[|k]]]; try lia; run; rewrite ?Hs; cbn.
    all: destruct (tables !! table_name); cbn.
    all: destruct rest as [|[msg'|] rest]; cbn; schedule_cases.
Qed.

Lemma insert_records_recovers (conn : connection) (name table_name : string)
    (records : list row) (w : world) :
  recovers (insert_records conn name table_name records) (S (List.length records))
    (is_Some (rows_of (live (mysql w)) name table_name))
    "Records inserted successfully" "Error inserting records: " w.
Proof.
  destruct w as [fsys [lv cm fl cn cu fe] out now tp dr].
  unfold recovers, refused_after, insert_records. cbn [mysql faults stdout cursors live].
  split.
  - intros ->. run.
    pose proof (fun w => conj (insert_loop_frame name table_name records w)
                              (insert_loop_quiet name table_name records w)) as L.
    loop_outcome L r w2.
    destruct L as ((Hr & Hc & Hcu & Hcn & Hout & Hfs & _) & Hq). cbn in *.
    specialize (Hq eq_refl).
    destruct w2 as [fsys2 [lv2 cm2 fl2 cn2 cu2 fe2] out2 now2 tp2 dr2]. cbn in *. subst.
    destruct Hr as [-> | [emsg ->]]; cbn; finish.
  - intros k msg rest Hk Hready ->.
    destruct k as [|k]; [lia|]. run.
    pose proof (fun w => conj (insert_loop_frame name table_name records w)
                              (insert_loop_schedule name table_name records k msg rest w)) as L.
    loop_outcome L r w2.
    destruct L as ((Hr & Hc & Hcu & Hcn & Hout & Hfs & _) & Hs). cbn in *.
    specialize (Hs Hready eq_refl). destruct Hs as [Hstop Hall].
    destruct w2 as [fsys2 [lv2 cm2 fl2 cn2 cu2 fe2] out2 now2 tp2 dr2]. cbn in *. subst.
    destruct (decide (k < List.length records)) as [Hlt|Hge].
    + destruct (Hstop Hlt) as [-> ->]. cbn.
      destruct rest as [|[msg'|] rest]; cbn; schedule_cases.
    + destruct Hall as [-> Hrest]; [lia|].
      unfold refused_after in Hrest. cbn in Hrest.
      replace (k - List.length records) with 0 in Hrest by lia. cbn in Hrest. subst fl2. cbn.
      destruct rest as [|[msg'|] rest]; cbn; schedule_cases.
Qed.

Lemma elem_of_selected (pattern name : string) (db : catalog) :
  name ∈ filter (fun n => like pattern n = true) (map_to_list db).*1 <->
  like pattern name = true /\ is_Some (db !! name).
Proof.
  rewrite list_elem_of_filter, list_elem_of_fmap. split.
  - intros [Hl ([n v] & -> & Hin)]. split; [exact Hl|].
    apply elem_of_map_to_list in Hin. cbn. eauto.
  - intros [Hl [v Hv]]. split; [exact Hl|].
    exists (name, v). split; [reflexivity|]. now apply elem_of_map_to_list.
Qed.

Lemma credentials_items (w : world) :
  has_credentials w ->
  exists text secret user password host port,
    files (fs w) !! secret_config_file = Some text /\
    json_loads text = Some secret /\
    getitem secret "username" = Ret user /\
    getitem secret "password" = Ret password /\
    getitem secret "host" = Ret host /\
    getitem secret "port" = Ret port.
Proof.
  intros (text & secret & Hfile & Hload & Hkeys).
  repeat match goal with
         | F : Forall _ (_ :: _) |- _ => apply Forall_cons in F as [[? ?] F]
         end.
  repeat eexists; eassumption.
Qed.

Lemma connect_to_db_fails (w : world) (msg : string) (rest : list (option string)) :
  has_credentials w ->
  faults (mysql w) = Some msg :: rest ->
  exists w',
    connect_to_db w = (Raise (SystemExit 1), w') /\
    stdout w' = (stdout w ++ ["Error connecting to the database: " +:+ msg])%list /\
    connections (mysql w') = connections (mysql w).
Proof.
  intros Hcred Hfault.
  destruct (credentials_items w Hcred)
    as (text & secret & user & password & host & port & Hf & Hl & Hu & Hp & Hh & Ho).
  unfold connect_to_db, open_r, json_load.
  unfold mbind at 1, M_bind at 1. rewrite Hf.
  unfold mbind at 1, M_bind at 1. rewrite Hl.
  run. rewrite Hu, Hp, Hh, Ho, Hfault. cbn.
  eexists. split; [reflexivity|]. cbn. auto.
Qed.

Lemma connect_to_db_ok (w : world) :
  has_credentials w ->
  next_call_succeeds w ->
  connect_to_db w = (Ret Connection, after_connect w).
Proof.
  intros Hcred Hnext.
  destruct (credentials_items w Hcred)
    as (text & secret & user & password & host & port & Hf & Hl & Hu & Hp & Hh & Ho).
  unfold connect_to_db, open_r, json_load.
  unfold mbind at 1, M_bind at 1. rewrite Hf.
  unfold mbind at 1, M_bind at 1. rewrite Hl.
  unfold after_connect. run. rewrite Hu, Hp, Hh, Ho.
  destruct (faults (mysql w)) as [|[msg|] rest] eqn:E; cbn; try reflexivity.
  now destruct (Hnext msg rest).
Qed.

Lemma delete_schemas_exits_on_failure (conn : connection) (prefix : string) (w : world) :
  exits_on_failure (delete_schemas_with_prefix conn prefix)
    (2 + List.length (enumerated prefix (live (mysql w)))) "An error occurred: " w.
Proof.
  destruct w as [fsys [lv cm fl cn cu fe] out now tp dr].
  unfold exits_on_failure, refused_after, delete_schemas_with_prefix, enumerated.
  cbn [mysql faults stdout cursors live run_stmt].
  set (schemas := filter (fun n => like (prefix +:+ "%") n = true) (map_to_list lv).*1).
  split.
  - intros ->. run. fold schemas.
    pose proof (fun w => conj (drop_loop_frame schemas w) (drop_loop_quiet schemas w)) as L.
    loop_outcome L r w2.
    destruct L as ((_ & Hcu & _) & Hq). cbn in *. destruct (Hq eq_refl) as [-> Hfaults].
    destruct w2 as [fsys2 [lv2 cm2 fl2 cn2 cu2 fe2] out2 now2 tp2 dr2]. cbn in *. subst.
    cbn. auto.
  - intros k msg rest Hk ->.
    destruct k as [|[|k]]; [lia| |]; run.
    { repeat split; eauto. }
    fold schemas.
    pose proof (fun w => conj (drop_loop_frame schemas w)
                              (drop_loop_schedule schemas k msg rest w)) as L.
    loop_outcome L r w2.
    destruct L as ((_ & Hcu & _) & Hs). cbn in *.
    destruct (Hs eq_refl) as [Hstop Hall].
    destruct w2 as [fsys2 [lv2 cm2 fl2 cn2 cu2 fe2] out2 now2 tp2 dr2]. cbn in *. subst.
    destruct (decide (k < List.length schemas)) as [Hlt|Hge].
    + destruct (Hstop Hlt) as [-> ->]. cbn. repeat split; eauto.
    + destruct Hall as [-> Hrest]; [lia|].
      unfold refused_after in Hrest. cbn in Hrest.
      replace (k - List.length schemas) with 0 in Hrest by lia. cbn in Hrest. subst fl2.
      cbn. repeat split; eauto.
Qed.

(** C3: the asymmetry of error handling.  A failed connection ends the
    process with status 1, whatever the command would have gone on to do.
    Schema creation, table creation and record insertion, once they have
    their cursor, catch and log the failure of any of their calls, the
    commit included, and send a rollback: they return normally, with
    nothing left uncommitted, when the server answers the rollback, and
    raise the error of the rollback, which nothing catches, when it fails
    as well.  Schema enumeration and dropping leave through [sys.exit(1)],
    the error logged, when the enumeration, any of the drops or the commit
    fails. *)
Theorem error_handling_asymmetry :
  (forall (w : world) msg rest (A : Type) (command : connection -> M A),
     has_credentials w -> faults (mysql w) = Some msg :: rest ->
     ((connect_to_db ≫= command) w).1 = Raise (SystemExit 1) /\
     exit_status ((connect_to_db ≫= command) w).1 = 1 /\
     stdout ((connect_to_db ≫= command) w).2 =
       (stdout w ++ ["Error connecting to the database: " +:+ msg])%list) /\
  (forall conn name w,
     recovers (create_schema conn name) 2 True
       ("Database '" +:+ name +:+ "' created successfully")
       "Error creating database: " w) /\
  (forall conn name table_name w,
     recovers (create_table conn name table_name) 2
       (is_Some (live (mysql w) !! name))
       ("Table '" +:+ name +:+ "." +:+ table_name +:+ "' created successfully")
       "Error creating table: " w) /\
  (forall conn name table_name records w,
     recovers (insert_records conn name table_name records) (S (List.length records))
       (is_Some (rows_of (live (mysql w)) name table_name))
       "Records inserted successfully" "Error inserting records: " w) /\
  (forall conn prefix w,
     exits_on_failure (delete_schemas_with_prefix conn prefix)
       (2 + List.length (enumerated prefix (live (mysql w))))
       "An error occurred: " w).
Proof.
  split; [|split; [|split; [|split]]].
  - intros w msg rest A command Hcred Hfault.
    destruct (connect_to_db_fails w msg rest Hcred Hfault) as (w' & Hrun & Hout & _).
    rewrite (bind_raise _ _ _ _ _ Hrun). cbn. auto.
  - apply create_schema_recovers.
  - apply create_table_recovers.
  - apply insert_records_recovers.
  - apply delete_schemas_exits_on_failure.
Qed.

End ErrorHandling.

(** ** Teardown *)

Lemma lookup_drop_all (names : list string) (db : catalog) (k : string) :
  drop_all names db !! k = if decide (k ∈ names) then None else db !! k.
Proof.
  revert db. induction names as [|n names IH]; intros db.
  - reflexivity.
  - change (drop_all (n :: names) db) with (drop_all names (delete n db)).
    rewrite IH. destruct (decide (k = n)) as [->|Hne].
    + rewrite lookup_delete_eq. rewrite (decide_True (P := n ∈ n :: names)) by apply list_elem_of_here.
      now case_decide.
    + rewrite lookup_delete_ne by congruence.
      destruct (decide (k ∈ names)) as [Hin|Hin].
      * rewrite decide_True; [reflexivity|]. now apply list_elem_of_further.
      * rewrite decide_False; [reflexivity|]. rewrite elem_of_cons. intros [?|?]; congruence.
Qed.

Lemma drop_loop_ok (schemas : list string) (w : world) :
  let rw := for_each schemas (fun schema =>
              cursor_execute Cursor (DropDatabaseIfExists schema) ;;
              print ("Database " +:+ schema +:+ " has been dropped.")) w in
  faults (mysql w) = [] ->
  rw.1 = Ret tt /\
  live (mysql rw.2) = drop_all schemas (live (mysql w)) /\
  faults (mysql rw.2) = [] /\
  cursors (mysql rw.2) = cursors (mysql w) /\
  connections (mysql rw.2) = connections (mysql w) /\
  fs rw.2 = fs w.
Proof.
  revert w. induction schemas as [|schema schemas IH]; intros w.
  - cbn. intros Hf. repeat split; auto.
  - destruct w as [fsys [lv cm fl cn cu fe] out now tp dr].
    cbn [for_each]. run. intros ->. cbn.
    loop_outcome IH r w2. cbn in *. now apply IH.
Qed.

Lemma delete_schemas_ok (conn : connection) (prefix : string) (w : world) :
  faults (mysql w) = [] ->
  exists w',
    delete_schemas_with_prefix conn prefix w = (Ret tt, w') /\
    (forall name,
       live (mysql w') !! name =
         if like (prefix +:+ "%") name then None else live (mysql w) !! name) /\
    committed (mysql w') = live (mysql w') /\
    connections (mysql w') = connections (mysql w) /\
    cursors (mysql w') = cursors (mysql w) /\
    fs w' = fs w.
Proof.
  destruct w as [fsys [lv cm fl cn cu fe] out now tp dr]. cbn. intros ->.
  unfold delete_schemas_with_prefix. run.
  pose proof (drop_loop_ok
    (filter (fun n => like (prefix +:+ "%") n = true) (map_to_list lv).*1)) as L.
  loop_outcome L r w2. cbn in L.
  destruct L as (-> & Hlive & Hfaults & Hcu & Hcn & Hfs); [reflexivity|].
  destruct w2 as [fsys2 [lv2 cm2 fl2 cn2 cu2 fe2] out2 now2 tp2 dr2]. cbn in *. subst.
  eexists. split; [reflexivity|]. cbn. repeat split; try reflexivity.
  intros name. rewrite lookup_drop_all. case_decide as Hin.
  - apply elem_of_selected in Hin as [-> _]. reflexivity.
  - destruct (like (prefix +:+ "%") name) eqn:Hl; [|reflexivity].
    destruct (lv !! name) eqn:Hv; [|reflexivity].
    exfalso. apply Hin, elem_of_selected. eauto.
Qed.

Lemma like_percent_cons (p : string) (c : ascii) (s : string) :
  like (String "%" p) (String c s) = like p (String c s) || like (String "%" p) s.
Proof. reflexivity. Qed.

Lemma like_percent_skip (p s : string) :
  like p s = true -> like (String "%" p) s = true.
Proof.
  intros Hl. destruct s as [|c s].
  - cbn. now rewrite Hl.
  - now rewrite like_percent_cons, Hl.
Qed.

Lemma like_any (s : string) : like "%" s = true.
Proof.
  induction s as [|c s IH]; [reflexivity|].
  now rewrite like_percent_cons, IH, orb_true_r.
Qed.

(** A pattern with no wildcard before its final [%] is a prefix test. *)
Lemma like_prefix_pattern (p s : string) :
  all_chars (fun c => negb (is_wildcard c)) p = true ->
  like (p +:+ "%") s = starts_with p s.
Proof.
  revert s. induction p as [|c p IH]; intros s Hp.
  - rewrite append_nil_l. apply like_any.
  - cbn in Hp. apply andb_prop in Hp as [Hc Hp].
    unfold is_wildcard in Hc. apply negb_true_iff, orb_false_iff in Hc as [Hpc Hus].
    rewrite append_cons. cbn [like starts_with]. rewrite Hpc, Hus.
    destruct s as [|d s]; [reflexivity|]. cbn. now rewrite IH.
Qed.

(** Whatever the pattern holds, the names that start with it match. *)
Lemma like_starts_with (p s : string) :
  starts_with p s = true -> like (p +:+ "%") s = true.
Proof.
  revert s. induction p as [|c p IH]; intros s Hs.
  - rewrite append_nil_l. apply like_any.
  - destruct s as [|d s]; [discriminate|].
    cbn in Hs. apply andb_prop in Hs as [Hcd Hs]. apply Ascii.eqb_eq in Hcd as <-.
    rewrite append_cons.
    destruct (Ascii.eqb c "%") eqn:Hc.
    + apply Ascii.eqb_eq in Hc as ->.
      rewrite like_percent_cons, (like_percent_skip _ _ (IH s Hs)).
      apply orb_true_r.
    + cbn [like]. rewrite Hc, Ascii.eqb_refl, orb_true_r. cbn. now apply IH.
Qed.

Lemma starts_with_refl (s : string) : starts_with s s = true.
Proof. induction s as [|c s IH]; [reflexivity|]. cbn. now rewrite Ascii.eqb_refl. Qed.

Lemma digit_char_inj (a b : nat) : a < 10 -> b < 10 -> digit_char a = digit_char b -> a = b.
Proof.
  intros Ha Hb E. unfold digit_char in E.
  apply (f_equal nat_of_ascii) in E.
  rewrite !nat_ascii_embedding in E by lia. lia.
Qed.

Lemma digit_not_wildcard (c : ascii) : is_digit c = true -> is_wildcard c = false.
Proof.
  destruct c as [[] [] [] [] [] [] [] []]; vm_compute; congruence.
Qed.

Lemma all_chars_app (p : ascii -> bool) (s t : string) :
  all_chars p (s +:+ t) = all_chars p s && all_chars p t.
Proof.
  induction s as [|c s IH]; [reflexivity|].
  rewrite append_cons. cbn [all_chars]. now rewrite IH, andb_assoc.
Qed.

Lemma all_chars_impl (p q : ascii -> bool) (s : string) :
  (forall c, p c = true -> q c = true) ->
  all_chars p s = true -> all_chars q s = true.
Proof.
  intros Hpq. induction s as [|c s IH]; [reflexivity|].
  cbn. intros [Hc Hs]%andb_prop. now rewrite (Hpq c Hc), IH.
Qed.

Lemma decimal_aux_digits (fuel n : nat) (acc : string) :
  all_chars is_digit acc = true -> all_chars is_digit (decimal_aux fuel n acc) = true.
Proof.
  revert n acc. induction fuel as [|fuel IH]; intros n acc Hacc; [exact Hacc|].
  cbn [decimal_aux].
  assert (Hd : all_chars is_digit (String (digit_char (n mod 10)) acc) = true).
  { cbn [all_chars]. rewrite Hacc, andb_true_r.
    apply digit_char_is_digit, Nat.mod_upper_bound. lia. }
  destruct (n <? 10); [exact Hd | now apply IH].
Qed.

(** A date stamp is made of digits, whatever the date. *)
Lemma strftime_digits (d : date) : all_chars is_digit (strftime_Ymd d) = true.
Proof.
  unfold strftime_Ymd, decimal, two_digits, char.
  rewrite !all_chars_app, decimal_aux_digits by reflexivity.
  cbn [all_chars].
  rewrite !digit_char_is_digit by (apply Nat.mod_upper_bound; lia).
  reflexivity.
Qed.

Lemma like_stamp (d : date) (name : string) :
  like (strftime_Ymd d +:+ "%") name = starts_with (strftime_Ymd d) name.
Proof.
  apply like_prefix_pattern.
  apply all_chars_impl with (p := is_digit); [|apply strftime_digits].
  intros c Hc. now rewrite (digit_not_wildcard c Hc).
Qed.

(** The eight characters of the stamp of a four-digit year. *)
Lemma strftime_four_digit_year (d : date) :
  1000 <= year d -> year d <= MAXYEAR ->
  strftime_Ymd d =
    String (digit_char (year d / 10 / 10 / 10 mod 10))
      (String (digit_char (year d / 10 / 10 mod 10))
         (String (digit_char (year d / 10 mod 10))
            (String (digit_char (year d mod 10))
               (String (digit_char (month d / 10 mod 10))
                  (String (digit_char (month d mod 10))
                     (String (digit_char (day d / 10 mod 10))
                        (String (digit_char (day d mod 10)) ""))))))).
Proof.
  intros Hlo Hhi. rewrite MAXYEAR_eq in Hhi.
  unfold strftime_Ymd, decimal, two_digits, char.
  rewrite decimal_aux_four by lia. reflexivity.
Qed.

Lemma starts_with_same_length (p q s : string) :
  starts_with p s = true -> starts_with q s = true ->
  String.length p = String.length q -> p = q.
Proof.
  revert q s. induction p as [|c p IH]; intros [|d q] [|e s]; cbn; try congruence.
  intros [Hc Hp]%andb_prop [Hd Hq]%andb_prop [= Hlen].
  apply Ascii.eqb_eq in Hc, Hd. subst. f_equal. eauto.
Qed.

Lemma days_in_month_bounds (y m : nat) : 28 <= days_in_month y m <= 31.
Proof.
  unfold days_in_month.
  do 12 (destruct m as [|m]; [try destruct (is_leap y); lia|]). lia.
Qed.

Lemma valid_date_fields (d : date) :
  valid_date d = true ->
  1 <= year d /\ year d <= MAXYEAR /\ 1 <= month d <= 12 /\
  1 <= day d <= days_in_month (year d) (month d).
Proof.
  unfold valid_date. rewrite !andb_true_iff, !Nat.leb_le. unfold MINYEAR. tauto.
Qed.

(** The stamps of a day and of the day before differ, so no name starts
    with both. *)
Lemma stamps_of_consecutive_days (today yesterday : date) (name : string) :
  valid_date today = true ->
  minus_one_day today = Ret yesterday ->
  1000 <= year yesterday ->
  starts_with (strftime_Ymd today) name = true ->
  starts_with (strftime_Ymd yesterday) name = false.
Proof.
  intros Hvalid Hminus Hyear Htoday.
  destruct (valid_date_fields today Hvalid) as (Hy1 & Hy2 & Hm & Hd).
  pose proof (days_in_month_bounds (year today) (month today)) as Hdim.
  destruct (starts_with (strftime_Ymd yesterday) name) eqn:Hyes; [exfalso|reflexivity].
  unfold minus_one_day in Hminus.
  destruct (1 <? day today) eqn:Hday;
    [|destruct (1 <? month today) eqn:Hmonth;
      [|destruct (1 <? year today) eqn:Hyr; [|discriminate]]];
    injection Hminus as <-; cbn [year] in Hyear;
    rewrite strftime_four_digit_year in Htoday, Hyes by (cbn [year]; lia);
    cbn [year month day] in Hyes;
    assert (E := starts_with_same_length _ _ _ Htoday Hyes eq_refl);
    do 6 (apply string_cons_inj in E as [_ E]);
    apply string_cons_inj in E as [Etens E]; apply string_cons_inj in E as [Eunits _];
    apply digit_char_inj in Etens, Eunits; try (apply Nat.mod_upper_bound; lia).
  - apply Nat.ltb_lt in Hday.
    pose proof (Nat.div_mod_eq (day today) 10).
    pose proof (Nat.div_mod_eq (day today - 1) 10).
    pose proof (Nat.mod_upper_bound (day today) 10).
    lia.
  - apply Nat.ltb_ge in Hday. assert (Hone : day today = 1) by lia.
    rewrite Hone in Etens. change (1 / 10 mod 10) with 0 in Etens.
    pose proof (days_in_month_bounds (year today) (month today - 1)) as Hprev.
    pose proof (Nat.div_mod_eq (days_in_month (year today) (month today - 1)) 10).
    pose proof (Nat.mod_upper_bound (days_in_month (year today) (month today - 1)) 10).
    pose proof (Nat.div_mod_eq (days_in_month (year today) (month today - 1) / 10) 10).
    pose proof (Nat.mod_upper_bound (days_in_month (year today) (month today - 1) / 10) 10).
    lia.
  - apply Nat.ltb_ge in Hday. assert (Hone : day today = 1) by lia.
    rewrite Hone in Etens. vm_compute in Etens. discriminate.
Qed.

Section Teardown.
Context `{JsonCodec}.

Lemma after_connect_faults (w : world) :
  faults (mysql w) = [] -> faults (mysql (after_connect w)) = [].
Proof. destruct w as [? [] ? ? ? ?]; cbn. now intros ->. Qed.

Lemma no_faults_next_call (w : world) : faults (mysql w) = [] -> next_call_succeeds w.
Proof. intros E msg rest. now rewrite E. Qed.

(** C1, amended: with the server answering every call, [teardown] returns
    having dropped exactly the schemas whose names start with the date
    stamp of the day before today (America/Los_Angeles): every other schema
    is as it was, those stamped today among them, and those stamped two or
    more days ago as well. *)
Theorem teardown_drops_yesterdays_schemas (w : world) (yesterday : date) :
  has_credentials w ->
  faults (mysql w) = [] ->
  valid_date (now_la w) = true ->
  minus_one_day (now_la w) = Ret yesterday ->
  1000 <= year yesterday ->
  exists w',
    teardown w = (Ret tt, w') /\
    (forall name,
       live (mysql w') !! name =
         if starts_with (strftime_Ymd yesterday) name then None
         else live (mysql w) !! name) /\
    committed (mysql w') = live (mysql w') /\
    (forall name,
       starts_with (strftime_Ymd (now_la w)) name = true ->
       live (mysql w') !! name = live (mysql w) !! name).
Proof.
  intros Hcred Hfaults Hvalid Hminus Hyear.
  destruct (delete_schemas_ok Connection (strftime_Ymd yesterday) (after_connect w))
    as (w' & Hrun & Hlive & Hcommitted & _); [now apply after_connect_faults|].
  exists w'. split; [|split; [|split]].
  - unfold teardown.
    rewrite (bind_ret _ _ _ _ _ (connect_to_db_ok w Hcred (no_faults_next_call w Hfaults))).
    unfold datetime_now, lift, mbind, M_bind. cbn [now_la after_connect set_stdout set_mysql].
    rewrite Hminus. exact Hrun.
  - intros name. rewrite Hlive, like_stamp. reflexivity.
  - exact Hcommitted.
  - intros name Htoday. rewrite Hlive, like_stamp.
    now rewrite (stamps_of_consecutive_days _ _ _ Hvalid Hminus Hyear Htoday).
Qed.

(** C2, amended: with the server answering every call and a persisted
    identifier of the generated form, [final_teardown] returns having
    dropped exactly the schemas whose names match the [LIKE] pattern made of
    the identifier and a final [%]: the schema named by the identifier, and
    with it every schema whose name starts with the identifier; a schema
    that does not match the pattern is as it was. *)
Theorem final_teardown_drops_matching_schemas (w : world) (schema_name : string) :
  has_credentials w ->
  faults (mysql w) = [] ->
  files (fs w) !! generated_schema_file = Some schema_name ->
  fullmatch schema_name_re schema_name = true ->
  exists w',
    final_teardown w = (Ret tt, w') /\
    (forall name,
       live (mysql w') !! name =
         if like (schema_name +:+ "%") name then None else live (mysql w) !! name) /\
    committed (mysql w') = live (mysql w') /\
    live (mysql w') !! schema_name = None /\
    (forall name, starts_with schema_name name = true -> live (mysql w') !! name = None).
Proof.
  intros Hcred Hfaults Hfile _.
  pose (w1 := set_stdout (fun out => (out ++ ["delete database " +:+ schema_name])%list)
                (after_connect w)).
  destruct (delete_schemas_ok Connection schema_name w1)
    as (w' & Hrun & Hlive & Hcommitted & _).
  { destruct w as [? [] ? ? ? ?]; cbn in *. now subst. }
  assert (Hprefix : forall name, starts_with schema_name name = true ->
                                 live (mysql w') !! name = None).
  { intros name Hs. now rewrite Hlive, (like_starts_with _ _ Hs). }
  exists w'. split; [|split; [|split; [|split]]]; auto.
  - unfold final_teardown.
    rewrite (bind_ret _ _ _ _ _ (connect_to_db_ok w Hcred (no_faults_next_call w Hfaults))).
    unfold load_schema_name_from_catalog, open_r, print, mbind, M_bind.
    cbn [fs after_connect set_stdout set_mysql]. rewrite Hfile. exact Hrun.
  - apply Hprefix, starts_with_refl.
Qed.

End Teardown.

Lemma sample_has_credentials (f1 f2 : string) (db : catalog)
    (schedule : list (option string)) (today : date) :
  has_credentials (sample_world (sample_fs f1 f2) db schedule today).
Proof.
  exists sample_secret_text, sample_secret. split; [reflexivity|]. split; [reflexivity|].
  repeat constructor; eexists; reflexivity.
Qed.

(** Ran on the third of January over runs of the first, second and third. *)
Lemma teardown_drops_yesterdays_schemas_witness :
  exists w',
    teardown (sample_world plain_fs three_days [] (jan 3)) = (Ret tt, w') /\
    (forall name,
       live (mysql w') !! name =
         if starts_with (strftime_Ymd (jan 2)) name then None
         else three_days !! name) /\
    committed (mysql w') = live (mysql w') /\
    (forall name,
       starts_with (strftime_Ymd (jan 3)) name = true ->
       live (mysql w') !! name = three_days !! name).
Proof.
  apply (teardown_drops_yesterdays_schemas
           (sample_world plain_fs three_days [] (jan 3)) (jan 2)).
  - apply sample_has_credentials.
  - reflexivity.
  - reflexivity.
  - reflexivity.
  - cbn. lia.
Defined.

(** C1, as stated, fails: on the third of January the run stamped the
    first, two days old, is still on the server after [teardown]; only the
    run stamped the second is gone. *)
Lemma teardown_keeps_schemas_two_days_old :
  let w := sample_world plain_fs three_days [] (jan 3) in
  (teardown w).1 = Ret tt /\
  starts_with "20240101" "20240101_aaaaaaaa" = true /\
  committed (mysql (teardown w).2) !! "20240101_aaaaaaaa" = Some fixture_table /\
  committed (mysql (teardown w).2) !! "20240102_bbbbbbbb" = None.
Proof. vm_compute. auto. Qed.

Lemma final_teardown_drops_matching_schemas_witness :
  exists w',
    final_teardown (sample_world plain_fs two_runs [] (jan 3)) = (Ret tt, w') /\
    (forall name,
       live (mysql w') !! name =
         if like (sample_name +:+ "%") name then None else two_runs !! name) /\
    committed (mysql w') = live (mysql w') /\
    live (mysql w') !! sample_name = None /\
    (forall name, starts_with sample_name name = true -> live (mysql w') !! name = None).
Proof.
  apply (final_teardown_drops_matching_schemas
           (sample_world plain_fs two_runs [] (jan 3)) sample_name).
  - apply sample_has_credentials.
  - reflexivity.
  - reflexivity.
  - reflexivity.
Defined.

(** C2, as stated, fails: a second schema, whose name goes on after the
    persisted identifier, is dropped along with the one the identifier
    names. *)
Lemma final_teardown_drops_longer_names :
  let w := sample_world plain_fs two_runs [] (jan 3) in
  files (fs w) !! generated_schema_file = Some "20240101_abcd1234" /\
  live (mysql w) !! "20240101_abcd1234_keep" = Some fixture_table /\
  (final_teardown w).1 = Ret tt /\
  committed (mysql (final_teardown w).2) !! "20240101_abcd1234_keep" = None.
Proof. vm_compute. auto. Qed.

(** ** Connections and cursors *)

(** C4, at the failing input: [teardown] and [final_teardown] return with
    the connection they opened still open (their cursor is closed), where
    [setup] and [cdc_insert] close theirs. *)
Theorem teardown_leaves_connection_open :
  let w := sample_world plain_fs three_days [] (jan 3) in
  ((teardown w).1 = Ret tt /\
   connections (mysql (teardown w).2) = 1 /\ cursors (mysql (teardown w).2) = 0) /\
  ((final_teardown w).1 = Ret tt /\
   connections (mysql (final_teardown w).2) = 1 /\
   cursors (mysql (final_teardown w).2) = 0) /\
  ((setup w).1 = Ret tt /\ connections (mysql (setup w).2) = 0) /\
  ((cdc_insert w).1 = Ret tt /\ connections (mysql (cdc_insert w).2) = 0).
Proof. vm_compute. auto 10. Qed.

(** A refused connection; a refused [CREATE DATABASE] whose rollback the
    server answers, and one whose rollback it refuses as well; a second
    drop the server fails. *)
Lemma error_handling_asymmetry_witness :
  exit_status (teardown (sample_world plain_fs three_days [Some "refused"] (jan 3))).1 = 1 /\
  (create_schema Connection sample_name
     (sample_world plain_fs three_days [None; Some "denied"] (jan 3))).1 = Ret tt /\
  (create_schema Connection sample_name
     (sample_world plain_fs three_days [None; Some "denied"; Some "gone away"] (jan 3))).1
  = Raise (MySQLError "gone away") /\
  exit_status (delete_schemas_with_prefix Connection "2024010"
                 (sample_world plain_fs three_days
                    [None; None; None; Some "gone away"] (jan 3))).1 = 1.
Proof.
  destruct error_handling_asymmetry as (Hconnect & Hschema & _ & _ & Hdelete).
  split; [|split; [|split]].
  - apply (Hconnect (sample_world plain_fs three_days [Some "refused"] (jan 3))
             "refused" []); [apply sample_has_credentials | reflexivity].
  - apply (proj2 (Hschema Connection sample_name
             (sample_world plain_fs three_days [None; Some "denied"] (jan 3)))
             1 "denied" []); [lia | exact I | reflexivity | discriminate].
  - apply (proj2 (Hschema Connection sample_name
             (sample_world plain_fs three_days [None; Some "denied"; Some "gone away"]
                (jan 3)))
             1 "denied" [Some "gone away"]) with (rest' := []);
      [lia | exact I | reflexivity | reflexivity].
  - apply (proj2 (Hdelete Connection "2024010"
             (sample_world plain_fs three_days [None; None; None; Some "gone away"]
                (jan 3)))
             3 "gone away" []); [vm_compute; lia | reflexivity].
Defined.

(** C3, as stated, fails: when the connection is lost while [setup] creates
    the schema, the failed query is caught and logged, but the rollback the
    handler sends fails in its turn and nothing catches that error: the
    command does not complete, the table is never created and the
    connection never closed. *)
Lemma lost_connection_ends_setup :
  let w := sample_world plain_fs ∅
             [None; None; Some "Lost connection to MySQL server during query";
              Some "MySQL server has gone away"] (jan 1) in
  (setup w).1 = Raise (MySQLError "MySQL server has gone away") /\
  exit_status (setup w).1 = 1 /\
  last (stdout (setup w).2)
  = Some "Error creating database: Lost connection to MySQL server during query" /\
  connections (mysql (setup w).2) = 1.
Proof. vm_compute. auto. Qed.

(** ** Upserts *)

Lemma upsert_present (r : row) (rows : table) :
  has_key (fst r) rows = true -> upsert r rows = rows.
Proof. intros Hk. unfold upsert. now rewrite Hk. Qed.

Lemma has_key_upsert_same (r : row) (rows : table) : has_key (fst r) (upsert r rows) = true.
Proof.
  unfold upsert. destruct (has_key (fst r) rows) eqn:Hk; [exact Hk|].
  unfold has_key. rewrite existsb_app. cbn. now rewrite String.eqb_refl, orb_true_r.
Qed.

Lemma has_key_upsert_mono (id : string) (r : row) (rows : table) :
  has_key id rows = true -> has_key id (upsert r rows) = true.
Proof.
  intros Hk. unfold upsert. destruct (has_key (fst r) rows); [exact Hk|].
  unfold has_key in *. rewrite existsb_app. apply orb_true_intro. now left.
Qed.

Lemma has_key_upsert_all_mono (id : string) (records : list row) (rows : table) :
  has_key id rows = true -> has_key id (upsert_all records rows) = true.
Proof.
  revert rows. induction records as [|r records IH]; intros rows Hk; [exact Hk|].
  apply IH. now apply has_key_upsert_mono.
Qed.

Lemma upsert_all_keys (records : list row) (rows : table) :
  Forall (fun r => has_key (fst r) (upsert_all records rows) = true) records.
Proof.
  revert rows. induction records as [|r records IH]; intros rows; constructor;
    change (upsert_all (r :: records) rows) with (upsert_all records (upsert r rows)).
  - apply has_key_upsert_all_mono, has_key_upsert_same.
  - apply IH.
Qed.

Lemma upsert_all_present (records : list row) (rows : table) :
  Forall (fun r => has_key (fst r) rows = true) records ->
  upsert_all records rows = rows.
Proof.
  induction 1 as [|r records Hr _ IH]; [reflexivity|].
  change (upsert_all (r :: records) rows) with (upsert_all records (upsert r rows)).
  now rewrite (upsert_present r rows Hr).
Qed.

(** Upserting the same records a second time changes nothing. *)
Lemma upsert_all_twice (records : list row) (rows : table) :
  upsert_all records (upsert_all records rows) = upsert_all records rows.
Proof. apply upsert_all_present, upsert_all_keys. Qed.

Lemma insert_loop_ok (schema_name table_name : string) (records : list row) (w : world)
    (tables : gmap string table) (rows : table) :
  let rw := for_each records (fun record =>
              cursor_execute Cursor
                (InsertOnDuplicateKeyKeep schema_name table_name record)) w in
  faults (mysql w) = [] ->
  live (mysql w) !! schema_name = Some tables ->
  tables !! table_name = Some rows ->
  rw.1 = Ret tt /\
  live (mysql rw.2) =
    <[schema_name := <[table_name := upsert_all records rows]> tables]> (live (mysql w)) /\
  faults (mysql rw.2) = [] /\
  committed (mysql rw.2) = committed (mysql w) /\
  cursors (mysql rw.2) = cursors (mysql w) /\
  connections (mysql rw.2) = connections (mysql w) /\
  stdout rw.2 = stdout w /\
  fs rw.2 = fs w.
Proof.
  revert w tables rows. induction records as [|record records IH]; intros w tables rows.
  - cbn. intros Hf Hs Ht. repeat split; auto.
    now rewrite (insert_id tables table_name rows Ht), (insert_id _ schema_name tables Hs).
  - destruct w as [fsys [lv cm fl cn cu fe] out now tp dr].
    cbn [for_each]. run. intros -> Hs Ht. cbn. rewrite Hs, Ht. cbn.
    loop_outcome IH r w2.
    specialize (IH (<[table_name := upsert record rows]> tables) (upsert record rows)).
    cbn in IH. rewrite !lookup_insert_eq in IH.
    destruct IH as (Hr & Hlive & Hrest); try reflexivity.
    split; [exact Hr|]. split; [|exact Hrest].
    cbn. rewrite Hlive, !insert_insert_eq. reflexivity.
Qed.

Lemma insert_records_ok (conn : connection) (schema_name table_name : string)
    (records : list row) (w : world) (tables : gmap string table) (rows : table) :
  faults (mysql w) = [] ->
  live (mysql w) !! schema_name = Some tables ->
  tables !! table_name = Some rows ->
  exists w',
    insert_records conn schema_name table_name records w = (Ret tt, w') /\
    live (mysql w') =
      <[schema_name := <[table_name := upsert_all records rows]> tables]> (live (mysql w)) /\
    committed (mysql w') = live (mysql w') /\
    faults (mysql w') = [] /\
    cursors (mysql w') = cursors (mysql w) /\
    connections (mysql w') = connections (mysql w) /\
    stdout w' = (stdout w ++ ["Records inserted successfully"])%list /\
    fs w' = fs w.
Proof.
  destruct w as [fsys [lv cm fl cn cu fe] out now tp dr]. cbn. intros -> Hs Ht.
  unfold insert_records. run.
  pose proof (insert_loop_ok schema_name table_name records) as L.
  loop_outcome L r w2. specialize (L tables rows). cbn in L.
  destruct L as (-> & Hlive & Hfaults & Hc & Hcu & Hcn & Hout & Hfs); auto.
  destruct w2 as [fsys2 [lv2 cm2 fl2 cn2 cu2 fe2] out2 now2 tp2 dr2]. cbn in *. subst.
  eexists. split; [reflexivity|]. cbn. auto 10.
Qed.

Lemma insert_records_missing (conn : connection) (schema_name table_name : string)
    (record : row) (records : list row) (w : world) :
  faults (mysql w) = [] ->
  rows_of (live (mysql w)) schema_name table_name = None ->
  exists w',
    insert_records conn schema_name table_name (record :: records) w = (Ret tt, w') /\
    live (mysql w') = committed (mysql w) /\
    committed (mysql w') = committed (mysql w) /\
    faults (mysql w') = [] /\
    cursors (mysql w') = cursors (mysql w) /\
    connections (mysql w') = connections (mysql w) /\
    fs w' = fs w.
Proof.
  destruct w as [fsys [lv cm fl cn cu fe] out now tp dr]. cbn. intros -> Hrows.
  unfold insert_records. cbn [for_each]. run. unfold rows_of in Hrows.
  destruct (lv !! schema_name) as [tables|]; cbn in *;
    [rewrite Hrows|]; cbn; eexists; (split; [reflexivity|]); cbn; auto 10.
Qed.

(** C7: insertion is an upsert on the primary key.  A record whose id is in
    the table leaves the catalog as it is; hence [insert_records] run a
    second time with the same records, on a server that answers every call,
    returns and leaves the catalog, seen and committed, as the first run
    left it. *)
Theorem insert_records_idempotent (conn : connection) (schema_name table_name : string)
    (records : list row) (w : world) :
  faults (mysql w) = [] ->
  live (mysql w) = committed (mysql w) ->
  (forall db tables rows id name,
     db !! schema_name = Some tables ->
     tables !! table_name = Some rows ->
     has_key id rows = true ->
     run_stmt (InsertOnDuplicateKeyKeep schema_name table_name (id, name)) db
       = inr (db, [])) /\
  let once := (insert_records conn schema_name table_name records w).2 in
  let twice := (insert_records conn schema_name table_name records once).2 in
  (insert_records conn schema_name table_name records once).1 = Ret tt /\
  live (mysql twice) = live (mysql once) /\
  committed (mysql twice) = committed (mysql once).
Proof.
  intros Hfaults Hclean. split.
  { intros db tables rows id name Hs Ht Hk. cbn. rewrite Hs, Ht.
    rewrite (upsert_present (id, name) rows Hk).
    now rewrite (insert_id tables table_name rows Ht), (insert_id db schema_name tables Hs). }
  cbv zeta.
  destruct records as [|record records].
  { destruct w as [fsys [lv cm fl cn cu fe] out now tp dr]. cbn in *. subst.
    unfold insert_records. run. auto. }
  destruct (rows_of (live (mysql w)) schema_name table_name) as [rows|] eqn:Hrows.
  - unfold rows_of in Hrows.
    destruct (live (mysql w) !! schema_name) as [tables|] eqn:Hs; [|discriminate].
    cbn in Hrows.
    destruct (insert_records_ok conn schema_name table_name (record :: records)
                w tables rows Hfaults Hs Hrows)
      as (w1 & Hrun1 & Hlive1 & Hcom1 & Hfaults1 & _).
    rewrite Hrun1. cbn [snd].
    destruct (insert_records_ok conn schema_name table_name (record :: records) w1
                (<[table_name := upsert_all (record :: records) rows]> tables)
                (upsert_all (record :: records) rows) Hfaults1)
      as (w2 & Hrun2 & Hlive2 & Hcom2 & _).
    { rewrite Hlive1. apply lookup_insert_eq. }
    { apply lookup_insert_eq. }
    rewrite Hrun2. cbn [fst snd].
    assert (E : live (mysql w2) = live (mysql w1)).
    { rewrite Hlive2, upsert_all_twice, Hlive1, !insert_insert_eq. reflexivity. }
    split; [reflexivity|]. split; [exact E|]. now rewrite Hcom2, Hcom1.
  - destruct (insert_records_missing conn schema_name table_name record records
                w Hfaults Hrows)
      as (w1 & Hrun1 & Hlive1 & Hcom1 & Hfaults1 & _).
    rewrite Hrun1. cbn [snd].
    destruct (insert_records_missing conn schema_name table_name record records
                w1 Hfaults1)
      as (w2 & Hrun2 & Hlive2 & Hcom2 & _).
    { now rewrite Hlive1, <- Hclean. }
    rewrite Hrun2. cbn [fst snd].
    split; [reflexivity|]. split; congruence.
Qed.

(** The seed records, inserted twice into the fixture table. *)
Lemma insert_records_idempotent_witness :
  let w := sample_world plain_fs two_runs [] (jan 3) in
  let records := [("1", "one"); ("2", "two"); ("3", "three")] in
  let once := (insert_records Connection sample_name "id_and_name_cat" records w).2 in
  let twice := (insert_records Connection sample_name "id_and_name_cat" records once).2 in
  (insert_records Connection sample_name "id_and_name_cat" records once).1 = Ret tt /\
  live (mysql twice) = live (mysql once) /\
  committed (mysql twice) = committed (mysql once).
Proof.
  apply (insert_records_idempotent Connection sample_name "id_and_name_cat"
           [("1", "one"); ("2", "two"); ("3", "three")]
           (sample_world plain_fs two_runs [] (jan 3))); reflexivity.
Defined.

(** ** Templates *)

Lemma format_loop_text (pre rest : string) (args : list string) (out : string) :
  all_chars not_percent pre = true ->
  format_loop FText (pre +:+ rest) args out = format_loop FText rest args (out +:+ pre).
Proof.
  revert out. induction pre as [|c pre IH]; intros out Hpre.
  - now rewrite append_nil_l, append_nil_r.
  - cbn in Hpre. apply andb_prop in Hpre as [Hc Hpre].
    unfold not_percent in Hc. apply negb_true_iff in Hc.
    rewrite append_cons. cbn [format_loop format_step]. rewrite Hc.
    rewrite IH by exact Hpre. unfold char.
    now rewrite append_assoc, append_cons, append_nil_l.
Qed.

Lemma format_loop_placeholder (rest v : string) (args : list string) (out : string) :
  format_loop FText ("%s" +:+ rest) (v :: args) out = format_loop FText rest args (out +:+ v).
Proof. reflexivity. Qed.

(** One [%s], nothing else to convert: the argument takes its place. *)
Lemma py_format_one (pre post v : string) :
  all_chars not_percent pre = true ->
  all_chars not_percent post = true ->
  py_format (pre +:+ "%s" +:+ post) [v] = Ret (pre +:+ v +:+ post).
Proof.
  intros Hpre Hpost. unfold py_format.
  rewrite format_loop_text, format_loop_placeholder by exact Hpre.
  rewrite <- (append_nil_r post) at 1.
  rewrite format_loop_text by exact Hpost. cbn [format_loop].
  now rewrite append_nil_l, append_assoc.
Qed.

Lemma py_format_two (a b c v1 v2 : string) :
  all_chars not_percent a = true ->
  all_chars not_percent b = true ->
  all_chars not_percent c = true ->
  py_format (a +:+ "%s" +:+ b +:+ "%s" +:+ c) [v1; v2]
    = Ret (a +:+ v1 +:+ b +:+ v2 +:+ c).
Proof.
  intros Ha Hb Hc. unfold py_format.
  rewrite format_loop_text, format_loop_placeholder by exact Ha.
  rewrite format_loop_text, format_loop_placeholder by exact Hb.
  rewrite <- (append_nil_r c) at 1.
  rewrite format_loop_text by exact Hc. cbn [format_loop].
  now rewrite append_nil_l, !append_assoc.
Qed.

(** ** Files *)

Ltac fs_run :=
  unfold open_w, open_r, file_write, mkdir, json_dump, json_load, print, lift, raise,
    set_fs, set_stdout, mbind, M_bind, mret, M_ret;
  cbn [fs files dirs mysql stdout now_la tape drawn fst snd].

Ltac paths_differ := let E := fresh in intros E; vm_compute in E; discriminate E.

Lemma keeps_file_bind {A B} (path : string) (m : M A) (k : A -> M B) :
  keeps_file path m -> (forall a, keeps_file path (k a)) -> keeps_file path (m ≫= k).
Proof.
  intros Hm Hk w. specialize (Hm w). unfold mbind, M_bind.
  destruct (m w) as [[a|e] w1]; cbn in *; [|exact Hm].
  now rewrite Hk.
Qed.

Lemma keeps_file_open_r (path p : string) : keeps_file path (open_r p).
Proof. intros w. unfold open_r. repeat case_match; reflexivity. Qed.

Lemma keeps_file_lift {A} (path : string) (r : result A) : keeps_file path (lift r).
Proof. intros w. reflexivity. Qed.

Lemma keeps_file_open_w (path p : string) : p <> path -> keeps_file path (open_w p).
Proof.
  intros Hne w. unfold open_w. repeat case_match; try reflexivity.
  cbn. now apply lookup_insert_ne.
Qed.

Lemma keeps_file_write (path p text : string) :
  p <> path -> keeps_file path (file_write p text).
Proof. intros Hne w. cbn. now apply lookup_insert_ne. Qed.

Section Files.
Context `{JsonCodec}.

Lemma keeps_file_json_load (path text : string) : keeps_file path (json_load text).
Proof. intros w. unfold json_load. now destruct (json_loads text). Qed.

Lemma write_active_configs_keeps (path schema_name : string) :
  path <> secret_active_config_file ->
  path <> secret_active_config_cdc_file ->
  keeps_file path (write_active_configs schema_name).
Proof.
  intros H1 H2. unfold write_active_configs, json_dump.
  repeat first
    [ apply keeps_file_bind; [|intros ?]
    | apply keeps_file_open_r | apply keeps_file_json_load | apply keeps_file_lift
    | apply keeps_file_open_w; congruence | apply keeps_file_write; congruence ].
Qed.

(** One of the first three blocks: the copy is emptied, the template read
    and formatted, the result written. *)
Lemma copy_block_run (src dst content text : string) (args : list string) (w : world) :
  dst ∉ dirs (fs w) ->
  dirname dst ∈ dirs (fs w) ->
  src <> dst ->
  files (fs w) !! src = Some content ->
  py_format content args = Ret text ->
  (open_w dst ;;
   source_file ← open_r src;
   text ← lift (py_format source_file args);
   file_write dst text) w
  = (Ret tt,
     set_fs (fun f => {| files := <[dst := text]> (files f); dirs := dirs f |}) w).
Proof.
  destruct w as [[fl ds] sess out now tp dr]. cbn [fs files dirs].
  intros Hdst Hdir Hne Hsrc Hfmt. fs_run.
  rewrite (decide_False (P := dst ∈ ds)), (decide_True (P := dirname dst ∈ ds)) by assumption.
  fs_run. rewrite lookup_insert_ne, Hsrc by congruence.
  fs_run. rewrite Hfmt. fs_run.
  rewrite lookup_insert_eq, insert_insert_eq. reflexivity.
Qed.

(** One of the last two blocks. *)
Lemma config_block_run (src dst text schema_name : string) (fields : list (string * json))
    (w : world) :
  dst ∉ dirs (fs w) ->
  dirname dst ∈ dirs (fs w) ->
  files (fs w) !! src = Some text ->
  json_loads text = Some (JObj fields) ->
  (base_config ← open_r src;
   secret ← json_load base_config;
   secret ← lift (setitem secret "database" (JStr schema_name));
   open_w dst ;;
   json_dump secret dst) w
  = (Ret tt,
     set_fs (fun f =>
       {| files := <[dst := json_dumps (JObj (assoc_set "database" (JStr schema_name) fields))]>
                     (files f);
          dirs := dirs f |}) w).
Proof.
  destruct w as [[fl ds] sess out now tp dr]. cbn [fs files dirs].
  intros Hdst Hdir Hsrc Hload. fs_run. rewrite Hsrc. fs_run. rewrite Hload. fs_run.
  cbn [setitem].
  rewrite (decide_False (P := dst ∈ ds)), (decide_True (P := dirname dst ∈ ds)) by assumption.
  fs_run. rewrite lookup_insert_eq, insert_insert_eq. reflexivity.
Qed.

(** [mkdir] of [temp]: afterwards it is a directory, and the only new one. *)
Lemma mkdir_temp_run (w : world) :
  temp_dir_ready w ->
  exists ds,
    mkdir temp_dir w = (Ret tt, set_fs (fun f => {| files := files f; dirs := ds |}) w) /\
    (temp_dir ∈ ds) /\
    (forall path, path <> temp_dir -> path ∉ dirs (fs w) -> path ∉ ds).
Proof.
  destruct w as [[fl ds] sess out now tp dr]. unfold temp_dir_ready. cbn [fs files dirs].
  intros [Htemp _]. fs_run.
  destruct (decide (temp_dir ∈ ds)) as [Hin|Hout].
  - exists ds. auto.
  - destruct Htemp as [Hin|[Hfile Hparent]]; [contradiction|].
    rewrite Hfile.
    rewrite (decide_False (P := is_Some None)) by (intros [? ?]; discriminate).
    change (dirname temp_dir) with support_file_path_prefix.
    rewrite (decide_True (P := support_file_path_prefix ∈ ds)) by assumption.
    exists ({[temp_dir]} ∪ ds). split; [reflexivity|]. split.
    + apply elem_of_union_l. now apply elem_of_singleton.
    + intros path Hne Hnot. rewrite elem_of_union, elem_of_singleton. tauto.
Qed.

End Files.

Section Materialization.
Context `{JsonCodec}.

Lemma written_files_not_dirs (w : world) :
  temp_dir_ready w ->
  (catalog_write_file ∉ dirs (fs w)) /\
  (catalog_incremental_write_file ∉ dirs (fs w)) /\
  (abnormal_state_write_file ∉ dirs (fs w)) /\
  (secret_active_config_file ∉ dirs (fs w)) /\
  (secret_active_config_cdc_file ∉ dirs (fs w)).
Proof.
  intros [_ Hall]. unfold written_files in Hall.
  repeat match goal with
         | F : Forall _ (_ :: _) |- _ => apply Forall_cons in F as [? F]
         end.
  auto 10.
Qed.

(** The first three blocks of [write_supporting_file]: what is left to run
    are the active configs, on a file system that holds the three copies. *)
Lemma write_supporting_file_copies (schema_name : string) (w : world)
    (pre post ipre ipost a b c : string) :
  temp_dir_ready w ->
  templates_ready w pre post ipre ipost a b c ->
  exists w3,
    write_supporting_file schema_name w = write_active_configs schema_name w3 /\
    files (fs w3) =
      <[abnormal_state_write_file := a +:+ schema_name +:+ b +:+ schema_name +:+ c]>
        (<[catalog_incremental_write_file := ipre +:+ schema_name +:+ ipost]>
           (<[catalog_write_file := pre +:+ schema_name +:+ post]> (files (fs w)))) /\
    (temp_dir ∈ dirs (fs w3)) /\
    (secret_active_config_file ∉ dirs (fs w3)) /\
    (secret_active_config_cdc_file ∉ dirs (fs w3)) /\
    mysql w3 = mysql w /\
    stdout w3 = (stdout w ++ ["writing schema name to files: " +:+ schema_name])%list.
Proof.
  intros Hready [Hcat [Hpre Hpost] Hinc [Hipre Hipost] Habn (Ha & Hb & Hc)].
  destruct (written_files_not_dirs w Hready) as (D1 & D2 & D3 & D4 & D5).
  destruct (mkdir_temp_run
              (set_stdout (fun out =>
                 (out ++ ["writing schema name to files: " +:+ schema_name])%list) w))
    as (ds & Hmk & Hin & Hfresh); [exact Hready|].
  cbn [fs set_stdout] in Hfresh.
  eexists. split.
  - unfold write_supporting_file.
    erewrite bind_ret by reflexivity.
    erewrite bind_ret by exact Hmk.
    erewrite bind_ret.
    2:{ apply copy_block_run with (content := pre +:+ "%s" +:+ post);
        [ apply Hfresh; [paths_differ | exact D1] | exact Hin | paths_differ
        | exact Hcat | now apply py_format_one ]. }
    erewrite bind_ret.
    2:{ apply copy_block_run with (content := ipre +:+ "%s" +:+ ipost);
        [ apply Hfresh; [paths_differ | exact D2] | exact Hin | paths_differ
        | cbn [fs files set_fs set_stdout];
          rewrite lookup_insert_ne by paths_differ; exact Hinc
        | now apply py_format_one ]. }
    erewrite bind_ret.
    2:{ apply copy_block_run with
          (content := a +:+ "%s" +:+ b +:+ "%s" +:+ c);
        [ apply Hfresh; [paths_differ | exact D3] | exact Hin | paths_differ
        | cbn [fs files set_fs set_stdout];
          rewrite !lookup_insert_ne by paths_differ; exact Habn
        | now apply py_format_two ]. }
    reflexivity.
  - cbn [fs files dirs mysql stdout set_fs set_stdout].
    repeat split; try reflexivity; try exact Hin.
    + apply Hfresh; [paths_differ | exact D4].
    + apply Hfresh; [paths_differ | exact D5].
Qed.

Ltac keeps_written_file :=
  unfold write_active_configs, json_dump;
  repeat first
    [ apply keeps_file_bind; [|intros ?]
    | apply keeps_file_open_r | apply keeps_file_json_load | apply keeps_file_lift
    | apply keeps_file_open_w; paths_differ | apply keeps_file_write; paths_differ ].

(** The first block of [write_supporting_file], the catalog copy: what is
    left to run are the other two copies and the active configs. *)
Lemma write_supporting_file_catalog (schema_name : string) (w : world) (pre post : string) :
  temp_dir_ready w ->
  one_placeholder w catalog_source_file pre post ->
  exists w2,
    write_supporting_file schema_name w
    = ((open_w catalog_incremental_write_file ;;
        source_file ← open_r catalog_incremental_source_file;
        text ← lift (py_format source_file [schema_name]);
        file_write catalog_incremental_write_file text) ;;
       (open_w abnormal_state_write_file ;;
        source_file ← open_r abnormal_state_file;
        text ← lift (py_format source_file [schema_name; schema_name]);
        file_write abnormal_state_write_file text) ;;
       write_active_configs schema_name) w2 /\
    files (fs w2) = <[catalog_write_file := pre +:+ schema_name +:+ post]> (files (fs w)) /\
    (temp_dir ∈ dirs (fs w2)) /\
    (catalog_incremental_write_file ∉ dirs (fs w2)) /\
    (abnormal_state_write_file ∉ dirs (fs w2)).
Proof.
  intros Hready (Hcat & Hpre & Hpost).
  destruct (written_files_not_dirs w Hready) as (D1 & D2 & D3 & D4 & D5).
  destruct (mkdir_temp_run
              (set_stdout (fun out =>
                 (out ++ ["writing schema name to files: " +:+ schema_name])%list) w))
    as (ds & Hmk & Hin & Hfresh); [exact Hready|].
  cbn [fs set_stdout] in Hfresh.
  eexists. split.
  - unfold write_supporting_file.
    erewrite bind_ret by reflexivity.
    erewrite bind_ret by exact Hmk.
    erewrite bind_ret.
    2:{ apply copy_block_run with (content := pre +:+ "%s" +:+ post);
        [ apply Hfresh; [paths_differ | exact D1] | exact Hin | paths_differ
        | exact Hcat | now apply py_format_one ]. }
    reflexivity.
  - cbn [fs files dirs set_fs set_stdout].
    repeat split; try exact Hin; apply Hfresh; try paths_differ; assumption.
Qed.

(** The second block, the incremental catalog copy. *)
Lemma write_supporting_file_incremental (schema_name : string) (w : world)
    (pre post ipre ipost : string) :
  temp_dir_ready w ->
  one_placeholder w catalog_source_file pre post ->
  one_placeholder w catalog_incremental_source_file ipre ipost ->
  exists w3,
    write_supporting_file schema_name w
    = ((open_w abnormal_state_write_file ;;
        source_file ← open_r abnormal_state_file;
        text ← lift (py_format source_file [schema_name; schema_name]);
        file_write abnormal_state_write_file text) ;;
       write_active_configs schema_name) w3 /\
    files (fs w3) =
      <[catalog_incremental_write_file := ipre +:+ schema_name +:+ ipost]>
        (<[catalog_write_file := pre +:+ schema_name +:+ post]> (files (fs w))) /\
    (temp_dir ∈ dirs (fs w3)) /\
    (abnormal_state_write_file ∉ dirs (fs w3)).
Proof.
  intros Hready Hcat (Hinc & Hipre & Hipost).
  destruct (write_supporting_file_catalog schema_name w pre post Hready Hcat)
    as (w2 & -> & Hfiles & Hin & D2 & D3).
  eexists. split.
  - erewrite bind_ret.
    2:{ apply copy_block_run with (content := ipre +:+ "%s" +:+ ipost);
        [ exact D2 | exact Hin | paths_differ
        | rewrite Hfiles, lookup_insert_ne by paths_differ; exact Hinc
        | now apply py_format_one ]. }
    reflexivity.
  - cbn [fs files dirs set_fs]. rewrite Hfiles. auto.
Qed.

(** C8, amended: the copies of the three templates, written in the order
    of the source.  When the catalog template holds one [%s] and no other
    [%], its copy is the template with the placeholder replaced by the
    schema name, taken literally, and nothing else changed; when the
    incremental catalog template does too, so is its copy; and when, on top
    of these, the abnormal-state template holds two [%s] and no other [%],
    its copy is the template with both replaced by the schema name.  Each
    holds however the rest of the step ends. *)
Theorem write_supporting_file_fills_templates (schema_name : string) (w : world) :
  temp_dir_ready w ->
  let after := (write_supporting_file schema_name w).2 in
  forall pre post,
    one_placeholder w catalog_source_file pre post ->
    files (fs after) !! catalog_write_file = Some (pre +:+ schema_name +:+ post) /\
    forall ipre ipost,
      one_placeholder w catalog_incremental_source_file ipre ipost ->
      files (fs after) !! catalog_incremental_write_file
        = Some (ipre +:+ schema_name +:+ ipost) /\
      forall a b c,
        two_placeholders w abnormal_state_file a b c ->
        files (fs after) !! abnormal_state_write_file
          = Some (a +:+ schema_name +:+ b +:+ schema_name +:+ c).
Proof.
  intros Hready after pre post Hcat. subst after. split.
  { destruct (write_supporting_file_catalog schema_name w pre post Hready Hcat)
      as (w2 & -> & Hfiles & _).
    assert (K : keeps_file catalog_write_file
                  ((open_w catalog_incremental_write_file ;;
                    source_file ← open_r catalog_incremental_source_file;
                    text ← lift (py_format source_file [schema_name]);
                    file_write catalog_incremental_write_file text) ;;
                   (open_w abnormal_state_write_file ;;
                    source_file ← open_r abnormal_state_file;
                    text ← lift (py_format source_file [schema_name; schema_name]);
                    file_write abnormal_state_write_file text) ;;
                   write_active_configs schema_name)) by keeps_written_file.
    rewrite K, Hfiles. apply lookup_insert_eq. }
  intros ipre ipost Hinc. split.
  { destruct (write_supporting_file_incremental schema_name w pre post ipre ipost
                Hready Hcat Hinc) as (w3 & -> & Hfiles & _).
    assert (K : keeps_file catalog_incremental_write_file
                  ((open_w abnormal_state_write_file ;;
                    source_file ← open_r abnormal_state_file;
                    text ← lift (py_format source_file [schema_name; schema_name]);
                    file_write abnormal_state_write_file text) ;;
                   write_active_configs schema_name)) by keeps_written_file.
    rewrite K, Hfiles. apply lookup_insert_eq. }
  intros a b c (Habn & Ha & Hb & Hc).
  destruct Hcat as (Hcat & Hpre & Hpost). destruct Hinc as (Hinc & Hipre & Hipost).
  destruct (write_supporting_file_copies schema_name w pre post ipre ipost a b c Hready)
    as (w4 & -> & Hfiles & _); [now constructor|].
  rewrite !write_active_configs_keeps by paths_differ.
  rewrite Hfiles. apply lookup_insert_eq.
Qed.

End Materialization.

Lemma sample_temp_dir_ready (f1 f2 : string) (db : catalog)
    (schedule : list (option string)) (today : date) :
  temp_dir_ready (sample_world (sample_fs f1 f2) db schedule today).
Proof.
  split.
  - right. split; [reflexivity|]. cbn. set_unfold. auto.
  - unfold written_files.
    repeat (apply Forall_cons_2;
            [cbn; set_unfold; intros [[E|E]|E]; vm_compute in E; discriminate E|]).
    apply Forall_nil_2.
Qed.

Lemma plain_templates_ready (db : catalog) (schedule : list (option string)) (today : date) :
  templates_ready (sample_world plain_fs db schedule today)
    "catalog: " "" "incremental: " "" "state: " " " "".
Proof. split; repeat split; reflexivity. Qed.

(** The schema name of the specification, in the sample templates. *)
(** A run on templates of which the third cannot be filled: the two catalog
    copies are as promised all the same. *)
Lemma write_supporting_file_fills_templates_witness :
  let after := (write_supporting_file "20240101_abcd1234"
                  (sample_world (sample_fs "catalog: %s" "state: %s") ∅ [] (jan 3))).2 in
  files (fs after) !! catalog_write_file = Some ("catalog: " +:+ "20240101_abcd1234" +:+ "") /\
  files (fs after) !! catalog_incremental_write_file
    = Some ("incremental: " +:+ "20240101_abcd1234" +:+ "").
Proof.
  destruct (write_supporting_file_fills_templates "20240101_abcd1234"
              (sample_world (sample_fs "catalog: %s" "state: %s") ∅ [] (jan 3))
              (sample_temp_dir_ready _ _ _ _ _)
              "catalog: " "" ltac:(repeat split)) as [Hcopy Hnext].
  split; [exact Hcopy|].
  apply (Hnext "incremental: " ""). repeat split.
Defined.

(** C8, as stated, fails twice.  A catalog template with one [%s] and an
    escaped percent sign is not copied with only the placeholder replaced:
    the escape is turned into a single sign.  And an abnormal-state
    template with one [%s] cannot be formatted, its two arguments not being
    used up: the step stops there and the copy is left empty. *)
Lemma copy_is_not_the_template_with_one_placeholder_replaced :
  (let w := sample_world (sample_fs "%s 100%%" "state: %s %s") ∅ [] (jan 3) in
   files (fs w) !! catalog_source_file = Some ("" +:+ "%s" +:+ " 100%%") /\
   files (fs (write_supporting_file "20240101_abcd1234" w).2) !! catalog_write_file
     = Some "20240101_abcd1234 100%" /\
   "20240101_abcd1234 100%" <> "" +:+ "20240101_abcd1234" +:+ " 100%%") /\
  (let w := sample_world (sample_fs "catalog: %s" "state: %s") ∅ [] (jan 3) in
   files (fs w) !! abnormal_state_file = Some ("state: " +:+ "%s" +:+ "") /\
   (write_supporting_file "20240101_abcd1234" w).1
     = Raise (TypeError "not all arguments converted during string formatting") /\
   files (fs (write_supporting_file "20240101_abcd1234" w).2) !! abnormal_state_write_file
     = Some "").
Proof. vm_compute. repeat split; discriminate. Qed.

(** ** Seeding *)

Lemma create_schema_ok (conn : connection) (name : string) (w : world) :
  faults (mysql w) = [] ->
  exists w',
    create_schema conn name w = (Ret tt, w') /\
    live (mysql w') =
      match live (mysql w) !! name with
      | Some _ => live (mysql w)
      | None => <[name := ∅]> (live (mysql w))
      end /\
    committed (mysql w') = live (mysql w') /\
    faults (mysql w') = [] /\
    connections (mysql w') = connections (mysql w) /\
    fs w' = fs w.
Proof.
  destruct w as [fsys [lv cm fl cn cu fe] out now tp dr]. cbn. intros ->.
  unfold create_schema. run.
  destruct (lv !! name); cbn; eexists; (split; [reflexivity|]); cbn; auto.
Qed.

Lemma create_table_ok (conn : connection) (name table_name : string) (w : world)
    (tables : gmap string table) :
  faults (mysql w) = [] ->
  live (mysql w) !! name = Some tables ->
  exists w',
    create_table conn name table_name w = (Ret tt, w') /\
    live (mysql w') =
      match tables !! table_name with
      | Some _ => live (mysql w)
      | None => <[name := <[table_name := []]> tables]> (live (mysql w))
      end /\
    committed (mysql w') = live (mysql w') /\
    faults (mysql w') = [] /\
    connections (mysql w') = connections (mysql w) /\
    fs w' = fs w.
Proof.
  destruct w as [fsys [lv cm fl cn cu fe] out now tp dr]. cbn. intros -> Hs.
  unfold create_table. run. rewrite Hs.
  destruct (tables !! table_name); cbn; eexists; (split; [reflexivity|]); cbn; auto.
Qed.

Lemma rows_of_insert (db : catalog) (name table_name : string)
    (tables : gmap string table) (rows : table) :
  rows_of (<[name := <[table_name := rows]> tables]> db) name table_name = Some rows.
Proof. unfold rows_of. rewrite lookup_insert_eq. cbn. apply lookup_insert_eq. Qed.

(** The server part of [setup], on a fixture table that holds no row. *)
Lemma seed_database_ok (conn : connection) (name : string) (records : list row) (w : world) :
  faults (mysql w) = [] ->
  fixture_empty (live (mysql w)) name ->
  exists w',
    (create_schema conn name ;;
     create_table conn name "id_and_name_cat" ;;
     insert_records conn name "id_and_name_cat" records ;;
     conn_close conn) w = (Ret tt, w') /\
    rows_of (committed (mysql w')) name "id_and_name_cat" = Some (upsert_all records []) /\
    live (mysql w') = committed (mysql w') /\
    faults (mysql w') = [] /\
    connections (mysql w') = pred (connections (mysql w)) /\
    fs w' = fs w.
Proof.
  intros Hfaults Hempty.
  destruct (create_schema_ok conn name w Hfaults)
    as (w1 & Hrun1 & Hlive1 & Hcom1 & Hfaults1 & Hcn1 & Hfs1).
  assert (Hschema : exists tables,
            live (mysql w1) !! name = Some tables /\
            (tables !! "id_and_name_cat" = None \/ tables !! "id_and_name_cat" = Some [])).
  { rewrite Hlive1. unfold fixture_empty, rows_of in Hempty.
    destruct (live (mysql w) !! name) as [tables|] eqn:Hs.
    - exists tables. cbn in Hempty. auto.
    - exists ∅. rewrite lookup_insert_eq. split; [reflexivity|]. left. apply lookup_empty. }
  destruct Hschema as (tables & Hs1 & Htable).
  destruct (create_table_ok conn name "id_and_name_cat" w1 tables Hfaults1 Hs1)
    as (w2 & Hrun2 & Hlive2 & Hcom2 & Hfaults2 & Hcn2 & Hfs2).
  assert (Htables : exists tables2,
            live (mysql w2) !! name = Some tables2 /\
            tables2 !! "id_and_name_cat" = Some []).
  { rewrite Hlive2. unfold table, row in *. destruct Htable as [Hnone|Hsome].
    - rewrite Hnone. eexists. rewrite lookup_insert_eq. split; [reflexivity|].
      apply lookup_insert_eq.
    - rewrite Hsome. eauto. }
  destruct Htables as (tables2 & Hs2 & Ht2).
  destruct (insert_records_ok conn name "id_and_name_cat" records w2 tables2 []
              Hfaults2 Hs2 Ht2)
    as (w3 & Hrun3 & Hlive3 & Hcom3 & Hfaults3 & Hcu3 & Hcn3 & Hout3 & Hfs3).
  eexists. split.
  - rewrite (bind_ret _ _ _ _ _ Hrun1), (bind_ret _ _ _ _ _ Hrun2),
      (bind_ret _ _ _ _ _ Hrun3).
    reflexivity.
  - cbn [mysql set_mysql committed live faults connections fs].
    rewrite Hcom3, Hlive3, rows_of_insert. repeat split; try congruence.
Qed.

Section Seeding.
Context `{JsonCodec}.

Lemma configs_ready_items (w : world) :
  configs_ready w ->
  exists text fields text' fields',
    files (fs w) !! secret_config_file = Some text /\
    json_loads text = Some (JObj fields) /\
    files (fs w) !! secret_config_cdc_file = Some text' /\
    json_loads text' = Some (JObj fields').
Proof.
  unfold configs_ready. intros Hall.
  apply Forall_cons in Hall as [(text & fields & Hf & Hl) Hall].
  apply Forall_cons in Hall as [(text' & fields' & Hf' & Hl') _].
  eauto 10.
Qed.

(** [write_supporting_file] as a whole: it returns, leaves the session
    alone, and changes no file but the five it writes. *)
Lemma write_supporting_file_ok (schema_name : string) (w : world) :
  setup_files_ready w schema_name ->
  exists w',
    write_supporting_file schema_name w = (Ret tt, w') /\
    mysql w' = mysql w /\
    (forall path, path ∉ written_files ->
       files (fs w') !! path = files (fs w) !! path).
Proof.
  intros (_ & Hready & (pre & post & ipre & ipost & a & b & c & Htpl) & Hconfigs & _).
  destruct (write_supporting_file_copies schema_name w pre post ipre ipost a b c
              Hready Htpl)
    as (w3 & -> & Hfiles & Htemp & D4 & D5 & Hmysql & _).
  destruct (configs_ready_items w Hconfigs)
    as (text & fields & text' & fields' & Hf & Hl & Hf' & Hl').
  eexists. split; [|split].
  - unfold write_active_configs.
    erewrite bind_ret.
    2:{ apply config_block_run with (text := text) (fields := fields);
        [ exact D4 | exact Htemp
        | rewrite Hfiles, !lookup_insert_ne by paths_differ; exact Hf | exact Hl ]. }
    apply config_block_run with (text := text') (fields := fields');
      [ exact D5 | exact Htemp
      | cbn [fs files set_fs];
        rewrite Hfiles, !lookup_insert_ne by paths_differ; exact Hf' | exact Hl' ].
  - cbn [mysql set_fs]. exact Hmysql.
  - intros path Hpath. cbn [fs files set_fs]. unfold written_files in Hpath.
    rewrite !not_elem_of_cons in Hpath. destruct Hpath as (N1 & N2 & N3 & N4 & N5 & _).
    rewrite !lookup_insert_ne by congruence.
    rewrite Hfiles, !lookup_insert_ne by congruence. reflexivity.
Qed.

Lemma has_credentials_same_file (w w' : world) :
  files (fs w') !! secret_config_file = files (fs w) !! secret_config_file ->
  has_credentials w -> has_credentials w'.
Proof.
  intros E (text & secret & Hf & Hrest). exists text, secret. now rewrite E.
Qed.

Lemma not_written (path : string) :
  path = secret_config_file \/ path = generated_schema_file -> path ∉ written_files.
Proof.
  unfold written_files. rewrite !not_elem_of_cons.
  intros [-> | ->]; repeat split; try paths_differ; apply not_elem_of_nil.
Qed.

(** C6: from a fixture table that holds no row, with the files [setup]
    reads in place and the server answering every call, [setup] returns
    and the committed fixture table holds exactly the three seed records;
    [cdc_insert] after it returns and the table holds exactly the five
    records, in the order of insertion, no id twice. *)
Theorem setup_then_cdc_insert_rows (w : world) (schema_name : string) :
  setup_files_ready w schema_name ->
  faults (mysql w) = [] ->
  fixture_empty (live (mysql w)) schema_name ->
  exists w1 w2,
    setup w = (Ret tt, w1) /\
    rows_of (committed (mysql w1)) schema_name "id_and_name_cat"
      = Some [("1", "one"); ("2", "two"); ("3", "three")] /\
    cdc_insert w1 = (Ret tt, w2) /\
    rows_of (committed (mysql w2)) schema_name "id_and_name_cat"
      = Some [("1", "one"); ("2", "two"); ("3", "three"); ("4", "four"); ("5", "five")] /\
    NoDup (map fst [("1", "one"); ("2", "two"); ("3", "three");
                    ("4", "four"); ("5", "five")]).
Proof.
  intros Hfiles Hfaults Hempty.
  destruct (write_supporting_file_ok schema_name w Hfiles) as (wf & Hwrite & Hmysql & Hkept).
  destruct Hfiles as (Hname & _ & _ & _ & Hcred).
  assert (Hcred_f : has_credentials wf).
  { apply (has_credentials_same_file w); [|exact Hcred].
    apply Hkept, not_written. now left. }
  assert (Hfaults_f : faults (mysql wf) = []) by now rewrite Hmysql.
  destruct (seed_database_ok Connection schema_name
              [("1", "one"); ("2", "two"); ("3", "three")] (after_connect wf))
    as (w1 & Hseed & Hrows1 & Hlive1 & Hfaults1 & _ & Hfs1).
  { now apply after_connect_faults. }
  { change (live (mysql (after_connect wf))) with (live (mysql wf)). now rewrite Hmysql. }
  assert (Hname1 : files (fs w1) !! generated_schema_file = Some schema_name).
  { rewrite Hfs1. cbn [fs after_connect set_stdout set_mysql].
    rewrite Hkept; [exact Hname|]. apply not_written. now right. }
  assert (Hcred1 : has_credentials w1).
  { apply (has_credentials_same_file wf); [|exact Hcred_f]. now rewrite Hfs1. }
  assert (Hrows1' : rows_of (live (mysql (after_connect w1))) schema_name "id_and_name_cat"
                    = Some [("1", "one"); ("2", "two"); ("3", "three")]).
  { change (live (mysql (after_connect w1))) with (live (mysql w1)).
    rewrite Hlive1. exact Hrows1. }
  unfold rows_of in Hrows1'.
  destruct (live (mysql (after_connect w1)) !! schema_name) as [tables|] eqn:Hs; [|discriminate].
  cbn in Hrows1'.
  destruct (insert_records_ok Connection schema_name "id_and_name_cat"
              [("4", "four"); ("5", "five")] (after_connect w1) tables _
              (after_connect_faults w1 Hfaults1) Hs Hrows1')
    as (w2 & Hinsert & Hlive2 & Hcom2 & _).
  exists w1. eexists. split; [|split; [|split; [|split]]].
  - unfold setup, load_schema_name_from_catalog, open_r.
    unfold mbind at 1, M_bind at 1. rewrite Hname.
    rewrite (bind_ret _ _ _ _ _ Hwrite).
    rewrite (bind_ret _ _ _ _ _
               (connect_to_db_ok wf Hcred_f (no_faults_next_call wf Hfaults_f))).
    exact Hseed.
  - exact Hrows1.
  - unfold cdc_insert, load_schema_name_from_catalog, open_r.
    unfold mbind at 1, M_bind at 1. rewrite Hname1.
    rewrite (bind_ret _ _ _ _ _
               (connect_to_db_ok w1 Hcred1 (no_faults_next_call w1 Hfaults1))).
    rewrite (bind_ret _ _ _ _ _ Hinsert). reflexivity.
  - cbn [mysql set_mysql committed conn_close]. rewrite Hcom2, Hlive2.
    apply rows_of_insert.
  - cbn. repeat constructor; set_unfold; intuition discriminate.
Qed.

End Seeding.

Lemma sample_setup_files_ready (db : catalog) (schedule : list (option string)) (today : date) :
  setup_files_ready (sample_world plain_fs db schedule today) sample_name.
Proof.
  split; [reflexivity|]. split; [apply sample_temp_dir_ready|]. split.
  { exists "catalog: ", "", "incremental: ", "", "state: ", " ", "".
    apply plain_templates_ready. }
  split; [|apply sample_has_credentials].
  unfold configs_ready. apply Forall_cons_2; [|apply Forall_cons_2; [|apply Forall_nil_2]].
  - exists sample_secret_text. eexists. split; reflexivity.
  - exists sample_secret_cdc_text. eexists. split; reflexivity.
Qed.

(** A server with no schema at all. *)
Lemma setup_then_cdc_insert_rows_witness :
  exists w1 w2,
    setup (sample_world plain_fs ∅ [] (jan 3)) = (Ret tt, w1) /\
    rows_of (committed (mysql w1)) sample_name "id_and_name_cat"
      = Some [("1", "one"); ("2", "two"); ("3", "three")] /\
    cdc_insert w1 = (Ret tt, w2) /\
    rows_of (committed (mysql w2)) sample_name "id_and_name_cat"
      = Some [("1", "one"); ("2", "two"); ("3", "three"); ("4", "four"); ("5", "five")] /\
    NoDup (map fst [("1", "one"); ("2", "two"); ("3", "three");
                    ("4", "four"); ("5", "five")]).
Proof.
  apply (setup_then_cdc_insert_rows (sample_world plain_fs ∅ [] (jan 3)) sample_name).
  - apply sample_setup_files_ready.
  - reflexivity.
  - left. reflexivity.
Defined.

(** * Further properties *)

(** ** Invariants through the monad *)

Lemma keeps_inv_bind {A B} (I : world -> Prop) (m : M A) (k : A -> M B) :
  keeps_inv I m -> (forall a, keeps_inv I (k a)) -> keeps_inv I (m ≫= k).
Proof.
  intros Hm Hk w Hw. specialize (Hm w Hw). unfold mbind, M_bind.
  destruct (m w) as [[a|e] w1]; cbn in *; [|exact Hm].
  now apply Hk.
Qed.

Lemma keeps_inv_ret {A} (I : world -> Prop) (a : A) : keeps_inv I (mret a).
Proof. intros w Hw. exact Hw. Qed.

Lemma keeps_inv_pure {A} (I : world -> Prop) (r : result A) (m : M A) :
  (forall w, m w = (r, w)) -> keeps_inv I m.
Proof. intros E w Hw. now rewrite E. Qed.

Lemma keeps_inv_try_except {A} (I : world -> Prop) (body : M A) (handler : string -> M A) :
  keeps_inv I body -> (forall msg, keeps_inv I (handler msg)) ->
  keeps_inv I (try_except_Error body handler).
Proof.
  intros Hb Hh w Hw. specialize (Hb w Hw). unfold try_except_Error.
  destruct (body w) as [[a|e] w1]; cbn in *; [exact Hb|].
  destruct e; try exact Hb. now apply Hh.
Qed.

Lemma keeps_inv_try_finally {A} (I : world -> Prop) (body : M A) (cleanup : M unit) :
  keeps_inv I body -> keeps_inv I cleanup -> keeps_inv I (try_finally body cleanup).
Proof.
  intros Hb Hc w Hw. specialize (Hb w Hw). unfold try_finally.
  destruct (body w) as [r w1]. cbn in Hb. specialize (Hc w1 Hb).
  destruct (cleanup w1) as [[[]|e] w2]; exact Hc.
Qed.

Lemma keeps_inv_attempt {L A} (I : world -> Prop) (first : M L) (scope : result L -> M A) :
  keeps_inv I first -> (forall bound, keeps_inv I (scope bound)) ->
  keeps_inv I (attempt first scope).
Proof.
  intros Hf Hs w Hw. specialize (Hf w Hw). unfold attempt.
  destruct (first w) as [bound w1]. now apply Hs.
Qed.

Lemma keeps_inv_local {L} (I : world -> Prop) (name : string) (bound : result L) :
  keeps_inv I (local name bound).
Proof. intros w Hw. now destruct bound. Qed.

Lemma keeps_inv_for_each {A} (I : world -> Prop) (l : list A) (body : A -> M unit) :
  (forall x, keeps_inv I (body x)) -> keeps_inv I (for_each l body).
Proof.
  intros Hbody. induction l as [|x l IH]; [apply keeps_inv_ret|].
  cbn [for_each]. apply keeps_inv_bind; [apply Hbody | intros _; exact IH].
Qed.

(** An invariant that reads the catalogs only is kept by what leaves them
    alone. *)
Lemma keeps_inv_catalogs {A} (P : catalog -> Prop) (m : M A) :
  (forall w, live (mysql (m w).2) = live (mysql w) /\
             committed (mysql (m w).2) = committed (mysql w)) ->
  keeps_inv (session_inv P) m.
Proof. intros E w [Hl Hc]. destruct (E w) as [El Ec]. split; congruence. Qed.

(** What a primitive leaves of the session. *)
Ltac primitive :=
  let w := fresh "w" in
  intros w; destruct w as [[? ?] [? ? ? ? ? ?] ? ? ? ?];
  unfold print, sys_exit, raise, lift, datetime_now, randbelow, open_r, open_w, file_write,
    mkdir, json_load, json_dump, conn_cursor, cursor_close, cursor_fetchall, conn_close,
    conn_rollback, conn_commit, mysql_connect, server_call,
    mbind, M_bind, mret, M_ret, set_fs, set_mysql, set_stdout, set_drawn;
  cbn; repeat (case_match; simplify_eq); cbn; auto.

Section CatalogInvariant.
Variable P : catalog -> Prop.

Lemma keeps_print line : keeps_inv (session_inv P) (print line).
Proof. apply keeps_inv_catalogs. primitive. Qed.

Lemma keeps_lift {A} (r : result A) : keeps_inv (session_inv P) (lift r).
Proof. apply keeps_inv_catalogs. primitive. Qed.

Lemma keeps_raise {A} (e : exn) : keeps_inv (session_inv P) (raise (A := A) e).
Proof. apply keeps_inv_catalogs. primitive. Qed.

Lemma keeps_datetime_now : keeps_inv (session_inv P) datetime_now.
Proof. apply keeps_inv_catalogs. primitive. Qed.

Lemma keeps_randbelow n : keeps_inv (session_inv P) (randbelow n).
Proof. apply keeps_inv_catalogs. primitive. Qed.

Lemma keeps_open_r path : keeps_inv (session_inv P) (open_r path).
Proof. apply keeps_inv_catalogs. primitive. Qed.

Lemma keeps_open_w path : keeps_inv (session_inv P) (open_w path).
Proof. apply keeps_inv_catalogs. primitive. Qed.

Lemma keeps_file_write_inv path text : keeps_inv (session_inv P) (file_write path text).
Proof. apply keeps_inv_catalogs. primitive. Qed.

Lemma keeps_mkdir path : keeps_inv (session_inv P) (mkdir path).
Proof. apply keeps_inv_catalogs. primitive. Qed.

Lemma keeps_conn_cursor conn : keeps_inv (session_inv P) (conn_cursor conn).
Proof. apply keeps_inv_catalogs. primitive. Qed.

Lemma keeps_cursor_close c : keeps_inv (session_inv P) (cursor_close c).
Proof. apply keeps_inv_catalogs. primitive. Qed.

Lemma keeps_cursor_fetchall c : keeps_inv (session_inv P) (cursor_fetchall c).
Proof. apply keeps_inv_catalogs. primitive. Qed.

Lemma keeps_mysql_connect u p h o : keeps_inv (session_inv P) (mysql_connect u p h o).
Proof. apply keeps_inv_catalogs. primitive. Qed.

Lemma keeps_conn_commit conn : keeps_inv (session_inv P) (conn_commit conn).
Proof.
  intros [? [lv cm fl ? ? ?] ? ? ? ?] [Hl Hc]. unfold session_inv. run.
  destruct fl as [|[msg|] fl]; cbn; auto.
Qed.

Lemma keeps_conn_rollback conn : keeps_inv (session_inv P) (conn_rollback conn).
Proof.
  intros [? [lv cm fl ? ? ?] ? ? ? ?] [Hl Hc]. unfold session_inv. run.
  destruct fl as [|[msg|] fl]; cbn; auto.
Qed.

Lemma keeps_conn_close conn : keeps_inv (session_inv P) (conn_close conn).
Proof. intros [? [lv cm fl ? ? ?] ? ? ? ?] [Hl Hc]. split; exact Hc. Qed.

Lemma keeps_cursor_execute c q :
  stmt_keeps P q -> keeps_inv (session_inv P) (cursor_execute c q).
Proof.
  intros Hq [? [lv cm fl ? ? ?] ? ? ? ?] [Hl Hc]. unfold session_inv. run.
  cbn in Hl, Hc.
  destruct fl as [|[msg|] fl]; cbn; auto.
  all: destruct (run_stmt q lv) as [msg|[db rows]] eqn:E; cbn;
    [destruct (implicit_commit q); auto|].
  all: pose proof (Hq lv db rows Hl E); destruct (implicit_commit q); auto.
Qed.

End CatalogInvariant.

Ltac keeps :=
  unfold sys_exit, json_load, json_dump;
  repeat first
    [ apply keeps_inv_ret
    | apply keeps_print | apply keeps_lift | apply keeps_raise | apply keeps_datetime_now
    | apply keeps_randbelow | apply keeps_open_r | apply keeps_open_w
    | apply keeps_file_write_inv | apply keeps_mkdir | apply keeps_conn_cursor
    | apply keeps_cursor_close | apply keeps_cursor_fetchall | apply keeps_mysql_connect
    | apply keeps_conn_commit | apply keeps_conn_rollback | apply keeps_conn_close
    | apply keeps_cursor_execute; solve [auto]
    | lazymatch goal with
      | |- keeps_inv _ (local _ _) => apply keeps_inv_local
      | |- keeps_inv _ (attempt _ _) => apply keeps_inv_attempt; [|intros ?]
      end
    | apply keeps_inv_try_finally
    | apply keeps_inv_try_except; [|intros ?]
    | apply keeps_inv_for_each; intros ?
    | apply keeps_inv_bind; [|intros ?]
    | match goal with
      | |- keeps_inv _ (match ?x with _ => _ end) => destruct x
      end ].

Section Commands.
Context `{JsonCodec}.
Variable P : catalog -> Prop.

Lemma connect_to_db_keeps : keeps_inv (session_inv P) connect_to_db.
Proof. unfold connect_to_db. keeps. Qed.

Lemma write_supporting_file_keeps name :
  keeps_inv (session_inv P) (write_supporting_file name).
Proof. unfold write_supporting_file. keeps. Qed.

Lemma random_choices_keeps population k :
  keeps_inv (session_inv P) (random_choices population k).
Proof. induction k as [|k IH]; cbn [random_choices]; keeps. exact IH. Qed.

Lemma prepare_keeps : keeps_inv (session_inv P) prepare.
Proof.
  unfold prepare, generate_schema_date_with_suffix.
  apply keeps_inv_bind; [|intros name; keeps].
  apply keeps_inv_bind; [apply keeps_datetime_now | intros today].
  apply keeps_inv_bind; [apply random_choices_keeps | intros suffix; keeps].
Qed.

Lemma create_schema_keeps conn name :
  stmt_keeps P (CreateDatabaseIfNotExists name) ->
  keeps_inv (session_inv P) (create_schema conn name).
Proof. intros Hq. unfold create_schema. keeps. Qed.

Lemma create_table_keeps conn name table_name :
  stmt_keeps P (CreateTableIfNotExists name table_name) ->
  keeps_inv (session_inv P) (create_table conn name table_name).
Proof. intros Hq. unfold create_table. keeps. Qed.

Lemma insert_records_keeps conn name table_name records :
  (forall r, stmt_keeps P (InsertOnDuplicateKeyKeep name table_name r)) ->
  keeps_inv (session_inv P) (insert_records conn name table_name records).
Proof. intros Hq. unfold insert_records. keeps. Qed.

Lemma delete_schemas_keeps conn prefix :
  (forall p, stmt_keeps P (SelectSchemataLike p)) ->
  (forall s, stmt_keeps P (DropDatabaseIfExists s)) ->
  keeps_inv (session_inv P) (delete_schemas_with_prefix conn prefix).
Proof. intros Hs Hd. unfold delete_schemas_with_prefix. keeps. Qed.

(** [setup] and [cdc_insert] once the schema name is read. *)
Lemma setup_named_keeps name :
  stmt_keeps P (CreateDatabaseIfNotExists name) ->
  stmt_keeps P (CreateTableIfNotExists name "id_and_name_cat") ->
  (forall r, stmt_keeps P (InsertOnDuplicateKeyKeep name "id_and_name_cat" r)) ->
  keeps_inv (session_inv P)
    (write_supporting_file name ;;
     connection ← connect_to_db;
     create_schema connection name ;;
     create_table connection name "id_and_name_cat" ;;
     insert_records connection name "id_and_name_cat" seed_records ;;
     conn_close connection).
Proof.
  intros H1 H2 H3.
  apply keeps_inv_bind; [apply write_supporting_file_keeps | intros _].
  apply keeps_inv_bind; [apply connect_to_db_keeps | intros conn].
  apply keeps_inv_bind; [now apply create_schema_keeps | intros _].
  apply keeps_inv_bind; [now apply create_table_keeps | intros _].
  apply keeps_inv_bind; [now apply insert_records_keeps | intros _].
  apply keeps_conn_close.
Qed.

Lemma cdc_insert_named_keeps name :
  (forall r, stmt_keeps P (InsertOnDuplicateKeyKeep name "id_and_name_cat" r)) ->
  keeps_inv (session_inv P)
    (connection ← connect_to_db;
     insert_records connection name "id_and_name_cat" [("4", "four"); ("5", "five")] ;;
     conn_close connection).
Proof.
  intros H3.
  apply keeps_inv_bind; [apply connect_to_db_keeps | intros conn].
  apply keeps_inv_bind; [now apply insert_records_keeps | intros _].
  apply keeps_conn_close.
Qed.

Lemma setup_keeps :
  (forall name, stmt_keeps P (CreateDatabaseIfNotExists name)) ->
  (forall name t, stmt_keeps P (CreateTableIfNotExists name t)) ->
  (forall name t r, stmt_keeps P (InsertOnDuplicateKeyKeep name t r)) ->
  keeps_inv (session_inv P) setup.
Proof.
  intros H1 H2 H3. unfold setup, load_schema_name_from_catalog.
  apply keeps_inv_bind; [apply keeps_open_r | intros name].
  apply setup_named_keeps; auto.
Qed.

Lemma cdc_insert_keeps :
  (forall name t r, stmt_keeps P (InsertOnDuplicateKeyKeep name t r)) ->
  keeps_inv (session_inv P) cdc_insert.
Proof.
  intros H3. unfold cdc_insert, load_schema_name_from_catalog.
  apply keeps_inv_bind; [apply keeps_open_r | intros name].
  apply cdc_insert_named_keeps; auto.
Qed.

Lemma teardown_keeps :
  (forall p, stmt_keeps P (SelectSchemataLike p)) ->
  (forall s, stmt_keeps P (DropDatabaseIfExists s)) ->
  keeps_inv (session_inv P) teardown.
Proof.
  intros Hs Hd. unfold teardown.
  apply keeps_inv_bind; [apply connect_to_db_keeps | intros conn].
  apply keeps_inv_bind; [apply keeps_datetime_now | intros today].
  apply keeps_inv_bind; [apply keeps_lift | intros yesterday].
  now apply delete_schemas_keeps.
Qed.

Lemma final_teardown_keeps :
  (forall p, stmt_keeps P (SelectSchemataLike p)) ->
  (forall s, stmt_keeps P (DropDatabaseIfExists s)) ->
  keeps_inv (session_inv P) final_teardown.
Proof.
  intros Hs Hd. unfold final_teardown, load_schema_name_from_catalog.
  apply keeps_inv_bind; [apply connect_to_db_keeps | intros conn].
  apply keeps_inv_bind; [apply keeps_open_r | intros name].
  apply keeps_inv_bind; [apply keeps_print | intros _].
  now apply delete_schemas_keeps.
Qed.

(** The commands that seed: [setup], [setup_cdc], [insert], [prepare]. *)
Lemma seeding_commands_keep (prog command : string) (rest : list string) :
  In command ["setup"; "setup_cdc"; "insert"; "prepare"] ->
  (forall name, stmt_keeps P (CreateDatabaseIfNotExists name)) ->
  (forall name t, stmt_keeps P (CreateTableIfNotExists name t)) ->
  (forall name t r, stmt_keeps P (InsertOnDuplicateKeyKeep name t r)) ->
  keeps_inv (session_inv P) (main (prog :: command :: rest)).
Proof.
  intros Hin H1 H2 H3.
  cbn in Hin. destruct Hin as [<-|[<-|[<-|[<-|[]]]]];
    first [ now apply setup_keeps | now apply cdc_insert_keeps | apply prepare_keeps ].
Qed.

Lemma teardown_commands_keep (prog command : string) (rest : list string) :
  In command ["teardown"; "final_teardown"] ->
  (forall p, stmt_keeps P (SelectSchemataLike p)) ->
  (forall s, stmt_keeps P (DropDatabaseIfExists s)) ->
  keeps_inv (session_inv P) (main (prog :: command :: rest)).
Proof.
  intros Hin Hs Hd.
  cbn in Hin. destruct Hin as [<-|[<-|[]]];
    first [ now apply teardown_keeps | now apply final_teardown_keeps ].
Qed.

Lemma main_keeps (argv : list string) :
  (forall q, stmt_keeps P q) -> keeps_inv (session_inv P) (main argv).
Proof.
  intros Hq. unfold main.
  apply keeps_inv_bind; [destruct (argv !! 1); keeps | intros command].
  repeat match goal with
         | |- keeps_inv _ (if ?b then _ else _) => destruct b
         end;
    first [ now apply setup_keeps | now apply teardown_keeps
          | now apply final_teardown_keeps | apply prepare_keeps
          | now apply cdc_insert_keeps | keeps ].
Qed.

End Commands.

(** ** What the statements keep *)

Lemma rows_of_insert_schema (db : catalog) (s s' t : string) (tables : gmap string table) :
  rows_of (<[s := tables]> db) s' t = if decide (s = s') then tables !! t else rows_of db s' t.
Proof.
  unfold rows_of. rewrite lookup_insert. now destruct (decide (s = s')).
Qed.

Lemma rows_of_delete (db : catalog) (s s' t : string) :
  rows_of (delete s db) s' t = if decide (s = s') then None else rows_of db s' t.
Proof.
  unfold rows_of. rewrite lookup_delete. now destruct (decide (s = s')).
Qed.

Lemma rows_of_lookup (db : catalog) (s t : string) (tables : gmap string table) :
  db !! s = Some tables -> rows_of db s t = tables !! t.
Proof. intros E. unfold rows_of. now rewrite E. Qed.

Lemma has_key_in (id : string) (rows : table) :
  has_key id rows = true <-> In id (map fst rows).
Proof.
  unfold has_key. rewrite existsb_exists, in_map_iff. split.
  - intros (r & Hin & E). apply String.eqb_eq in E. eauto.
  - intros (r & E & Hin). exists r. split; [exact Hin|]. now apply String.eqb_eq.
Qed.

Lemma upsert_keys_unique (r : row) (rows : table) :
  NoDup (map fst rows) -> NoDup (map fst (upsert r rows)).
Proof.
  intros Hnd. unfold upsert. destruct (has_key (fst r) rows) eqn:Hk; [exact Hnd|].
  rewrite map_app. cbn [map]. apply NoDup_app. split; [exact Hnd|]. split.
  - intros id Hid Hin. apply list_elem_of_singleton in Hin as ->.
    apply list_elem_of_In, has_key_in in Hid. congruence.
  - apply NoDup_singleton.
Qed.

Lemma upsert_prefix (r : row) (rows : table) : rows `prefix_of` upsert r rows.
Proof.
  unfold upsert. destruct (has_key (fst r) rows); [reflexivity|].
  now apply prefix_app_r.
Qed.

(** Whatever statement the script sends, ids stay unique. *)
Lemma stmt_keeps_keys_unique (q : stmt) : stmt_keeps keys_unique q.
Proof.
  intros db db' out Hdb Hrun s' t' rows' Hrows. unfold keys_unique in Hdb.
  destruct q as [s|s t|s t r|p|s]; cbn in Hrun.
  - destruct (db !! s) eqn:Hs; simplify_eq; eauto.
    rewrite rows_of_insert_schema in Hrows. case_decide; [|eauto].
    now rewrite lookup_empty in Hrows.
  - destruct (db !! s) as [tables|] eqn:Hs; [|discriminate].
    destruct (tables !! t) eqn:Ht; simplify_eq; eauto.
    rewrite rows_of_insert_schema in Hrows. case_decide as Hss; [subst s'|eauto].
    rewrite lookup_insert in Hrows. case_decide; simplify_eq; [constructor|].
    apply (Hdb s t'). now rewrite (rows_of_lookup db s t' tables Hs).
  - destruct (db !! s) as [tables|] eqn:Hs; [|discriminate].
    destruct (tables !! t) as [rows|] eqn:Ht; simplify_eq.
    rewrite rows_of_insert_schema in Hrows. case_decide as Hss; [subst s'|eauto].
    rewrite lookup_insert in Hrows. case_decide as Htt.
    + subst t'. injection Hrows as <-.
      apply upsert_keys_unique, (Hdb s t). now rewrite (rows_of_lookup db s t tables Hs).
    + apply (Hdb s t'). now rewrite (rows_of_lookup db s t' tables Hs).
  - simplify_eq. eauto.
  - simplify_eq. rewrite rows_of_delete in Hrows. case_decide; [discriminate|eauto].
Qed.

Lemma rows_kept_refl (db : catalog) : rows_kept db db.
Proof. split; [auto|]. intros s t rows Hrows. exists rows. split; [exact Hrows|reflexivity]. Qed.

Lemma rows_kept_step (db0 db db' : catalog) :
  rows_kept db0 db -> rows_kept db db' -> rows_kept db0 db'.
Proof.
  intros [Hs Hr] [Hs' Hr']. split; [auto|].
  intros s t rows0 H0. destruct (Hr s t rows0 H0) as (rows & Hrows & Hpre).
  destruct (Hr' s t rows Hrows) as (rows' & Hrows' & Hpre').
  exists rows'. split; [exact Hrows'|]. now transitivity rows.
Qed.

(** Creating and inserting remove nothing and change no row. *)
Lemma stmt_rows_kept (q : stmt) (db db' : catalog) (out : list string) :
  match q with DropDatabaseIfExists _ => False | _ => True end ->
  run_stmt q db = inr (db', out) -> rows_kept db db'.
Proof.
  intros Hq Hrun. destruct q as [s|s t|s t r|p|s]; cbn in Hrun; try contradiction.
  - destruct (db !! s) eqn:Hs; simplify_eq; [apply rows_kept_refl|]. split.
    + intros s' Hs'. rewrite lookup_insert. case_decide; eauto.
    + intros s' t' rows0 H0. exists rows0. split; [|reflexivity].
      rewrite rows_of_insert_schema. case_decide; [subst s'|exact H0].
      unfold rows_of in H0. now rewrite Hs in H0.
  - destruct (db !! s) as [tables|] eqn:Hs; [|discriminate].
    destruct (tables !! t) eqn:Ht; simplify_eq; [apply rows_kept_refl|]. split.
    + intros s' Hs'. rewrite lookup_insert. case_decide; eauto.
    + intros s' t' rows0 H0. exists rows0. split; [|reflexivity].
      rewrite rows_of_insert_schema. case_decide as Hss; [subst s'|exact H0].
      rewrite (rows_of_lookup db s t' tables Hs) in H0.
      rewrite lookup_insert. case_decide; [subst t'; congruence|exact H0].
  - destruct (db !! s) as [tables|] eqn:Hs; [|discriminate].
    destruct (tables !! t) as [rows|] eqn:Ht; simplify_eq. split.
    + intros s' Hs'. rewrite lookup_insert. case_decide; eauto.
    + intros s' t' rows0 H0.
      rewrite rows_of_insert_schema. case_decide as Hss; [subst s'|].
      * rewrite (rows_of_lookup db s t' tables Hs) in H0.
        rewrite lookup_insert. case_decide; [subst t'|].
        -- exists (upsert r rows). split; [reflexivity|].
           replace rows0 with rows by congruence. apply upsert_prefix.
        -- exists rows0. split; [exact H0|reflexivity].
      * exists rows0. split; [exact H0|reflexivity].
  - simplify_eq. apply rows_kept_refl.
Qed.

Lemma stmt_keeps_rows_kept (db0 : catalog) (q : stmt) :
  match q with DropDatabaseIfExists _ => False | _ => True end ->
  stmt_keeps (rows_kept db0) q.
Proof.
  intros Hq db db' out Hdb Hrun.
  apply (rows_kept_step db0 db db' Hdb), (stmt_rows_kept q db db' out Hq Hrun).
Qed.

(** Enumerating and dropping add nothing and change nothing that stays. *)
Lemma stmt_keeps_subseteq (db0 : catalog) (q : stmt) :
  match q with SelectSchemataLike _ | DropDatabaseIfExists _ => True | _ => False end ->
  stmt_keeps (fun db => db ⊆ db0) q.
Proof.
  intros Hq db db' out Hdb Hrun. destruct q as [s|s t|s t r|p|s]; cbn in Hrun;
    try contradiction; simplify_eq; [exact Hdb|].
  transitivity db; [apply delete_subseteq | exact Hdb].
Qed.

(** A statement on the schema [name] leaves the other schemas alone. *)
Lemma stmt_keeps_same_elsewhere (name : string) (db0 : catalog) (q : stmt) :
  match q with
  | CreateDatabaseIfNotExists s | CreateTableIfNotExists s _
  | InsertOnDuplicateKeyKeep s _ _ => s = name
  | _ => False
  end ->
  stmt_keeps (same_elsewhere name db0) q.
Proof.
  intros Hq db db' out Hdb Hrun s' Hs'. specialize (Hdb s' Hs').
  destruct q as [s|s t|s t r|p|s]; cbn in Hrun; try contradiction; subst s.
  - destruct (db !! name); simplify_eq; [exact Hdb|]. now rewrite lookup_insert_ne.
  - destruct (db !! name) as [tables|]; [|discriminate].
    destruct (tables !! t); simplify_eq; [exact Hdb|]. now rewrite lookup_insert_ne.
  - destruct (db !! name) as [tables|]; [|discriminate].
    destruct (tables !! t); simplify_eq. now rewrite lookup_insert_ne.
Qed.

(** ** What the commands keep *)

Section CommandInvariants.
Context `{JsonCodec}.

(** X1: no command, on no world and under no fault schedule, leaves a table
    with the same id in two rows: when ids are unique in every table the
    session sees and in every committed one, they are so after [main]. *)
Theorem primary_keys_stay_unique (argv : list string) (w : world) :
  session_inv keys_unique w -> session_inv keys_unique (main argv w).2.
Proof. apply main_keeps. apply stmt_keeps_keys_unique. Qed.

(** X2: the seeding commands ([setup], [setup_cdc], [insert], [prepare])
    never drop a schema or a table and never remove, reorder or rewrite a
    row: whatever the server answers, every table is afterwards there with
    the rows it had, in their place, before any new one. *)
Theorem seeding_keeps_every_row (prog command : string) (rest : list string) (w : world) :
  In command ["setup"; "setup_cdc"; "insert"; "prepare"] ->
  live (mysql w) = committed (mysql w) ->
  session_inv (rows_kept (live (mysql w))) (main (prog :: command :: rest) w).2.
Proof.
  intros Hin Hclean.
  apply (seeding_commands_keep (rows_kept (live (mysql w))) prog command rest Hin);
    try (intros; now apply stmt_keeps_rows_kept).
  split; [|rewrite <- Hclean]; apply rows_kept_refl.
Qed.

(** X3: [teardown] and [final_teardown] only remove: whatever the server
    answers, the catalog afterwards is a part of the catalog before, every
    schema that is left holding the tables and rows it held. *)
Theorem teardown_only_removes (prog command : string) (rest : list string) (w : world) :
  In command ["teardown"; "final_teardown"] ->
  live (mysql w) = committed (mysql w) ->
  session_inv (fun db => db ⊆ live (mysql w)) (main (prog :: command :: rest) w).2.
Proof.
  intros Hin Hclean.
  apply (teardown_commands_keep (fun db => db ⊆ live (mysql w)) prog command rest Hin);
    try (intros; now apply stmt_keeps_subseteq).
  split; [|rewrite <- Hclean]; reflexivity.
Qed.

(** X4: [setup], [setup_cdc] and [insert] touch the schema named in the
    persisted file and no other: whatever the server answers, every other
    schema is afterwards as it was. *)
Theorem seeding_touches_named_schema_only (prog command name : string)
    (rest : list string) (w : world) :
  In command ["setup"; "setup_cdc"; "insert"] ->
  files (fs w) !! generated_schema_file = Some name ->
  live (mysql w) = committed (mysql w) ->
  session_inv (same_elsewhere name (live (mysql w))) (main (prog :: command :: rest) w).2.
Proof.
  intros Hin Hname Hclean.
  assert (Hstart : session_inv (same_elsewhere name (live (mysql w))) w).
  { split; [|rewrite <- Hclean]; intros s _; reflexivity. }
  assert (Hload : load_schema_name_from_catalog w = (Ret name, w)).
  { unfold load_schema_name_from_catalog, open_r. now rewrite Hname. }
  cbn in Hin. destruct Hin as [<-|[<-|[<-|[]]]].
  - change (main (prog :: "setup" :: rest) w) with (setup w).
    unfold setup. rewrite (bind_ret _ _ _ _ _ Hload).
    apply (setup_named_keeps (same_elsewhere name (live (mysql w))) name);
      try (intros; now apply stmt_keeps_same_elsewhere). exact Hstart.
  - change (main (prog :: "setup_cdc" :: rest) w) with (setup w).
    unfold setup. rewrite (bind_ret _ _ _ _ _ Hload).
    apply (setup_named_keeps (same_elsewhere name (live (mysql w))) name);
      try (intros; now apply stmt_keeps_same_elsewhere). exact Hstart.
  - change (main (prog :: "insert" :: rest) w) with (cdc_insert w).
    unfold cdc_insert. rewrite (bind_ret _ _ _ _ _ Hload).
    apply (cdc_insert_named_keeps (same_elsewhere name (live (mysql w))) name);
      try (intros; now apply stmt_keeps_same_elsewhere). exact Hstart.
Qed.

End CommandInvariants.

(** ** Preparing a run *)

(** What [random.choices] leaves of the world: the draws are taken, nothing
    else moves. *)
Lemma random_choices_run (population : string) (k : nat) (w : world) :
  exists s,
    random_choices population k w
    = (Ret s,
       {| fs := fs w; mysql := mysql w; stdout := stdout w;
          now_la := now_la w; tape := tape w; drawn := k + drawn w |}).
Proof.
  revert w. induction k as [|k IH]; intros w.
  - exists "". now destruct w.
  - destruct (IH (set_drawn S w)) as (s & Hrun).
    exists (String (char_at (tape w (drawn w) mod String.length population) population) s).
    cbn [random_choices]. unfold randbelow at 1.
    unfold mbind, M_bind at 1. unfold mbind, M_bind at 1. rewrite Hrun.
    cbn. now rewrite Nat.add_succ_r.
Qed.

(** X5: [prepare] and [load_schema_name_from_catalog] are a round trip.
    When the working directory is there and the file is not a directory,
    [prepare] returns, whatever the file held before; the name the
    generator made is the line printed and is what the next read of the
    file returns; the server is not touched. *)
Theorem prepare_then_load (w : world) :
  "." ∈ dirs (fs w) ->
  generated_schema_file ∉ dirs (fs w) ->
  exists name w1 w',
    generate_schema_date_with_suffix w = (Ret name, w1) /\
    prepare w = (Ret tt, w') /\
    load_schema_name_from_catalog w' = (Ret name, w') /\
    stdout w' = (stdout w ++ ["schema_name: " +:+ name])%list /\
    mysql w' = mysql w.
Proof.
  intros Hcwd Hfile.
  destruct (random_choices_run (ascii_lowercase +:+ digits) 8 w) as (suffix & Hrun).
  destruct w as [[fl ds] sess out now tp dr].
  cbn [fs files dirs mysql stdout now_la tape drawn] in *.
  assert (Hgen : generate_schema_date_with_suffix
                   {| fs := {| files := fl; dirs := ds |}; mysql := sess; stdout := out;
                      now_la := now; tape := tp; drawn := dr |}
                 = (Ret (strftime_Ymd now +:+ "_" +:+ suffix),
                    {| fs := {| files := fl; dirs := ds |}; mysql := sess; stdout := out;
                       now_la := now; tape := tp; drawn := 8 + dr |})).
  { unfold generate_schema_date_with_suffix, datetime_now.
    unfold mbind, M_bind at 1. unfold mbind, M_bind at 1. now rewrite Hrun. }
  eexists. eexists. eexists. split; [exact Hgen|].
  unfold prepare. rewrite (bind_ret _ _ _ _ _ Hgen). clear Hrun Hgen.
  unfold load_schema_name_from_catalog. fs_run.
  rewrite (decide_False (P := generated_schema_file ∈ ds)) by assumption.
  change (dirname generated_schema_file) with ".".
  rewrite (decide_True (P := "." ∈ ds)) by assumption.
  fs_run. split; [reflexivity|].
  cbn [fs files dirs mysql stdout default from_option].
  rewrite !lookup_insert_eq. cbn [default from_option]. rewrite append_nil_l. auto.
Qed.

(** ** Dispatch *)

(** X6: a first argument that is none of the six commands, compared as
    written, makes [main] print the message that names it and leave through
    [exit(1)]; nothing else happens. *)
Theorem unrecognized_command_exits `{JsonCodec} (prog command : string)
    (rest : list string) (w : world) :
  known_command command = false ->
  main (prog :: command :: rest) w
  = (Raise (SystemExit 1),
     set_stdout (fun out => (out ++ ["Unrecognized command " +:+ command +:+ "."])%list) w).
Proof.
  unfold known_command. cbn [existsb]. rewrite !orb_false_iff.
  intros (E1 & E2 & E3 & E4 & E5 & E6 & _).
  unfold main. cbn [lookup list_lookup].
  unfold mbind at 1, M_bind at 1, mret at 1, M_ret at 1.
  now rewrite E1, E2, E3, E4, E5, E6.
Qed.

(** ** Credentials *)

(** X7: a secrets object that lacks a credential stops [connect_to_db]
    with the [KeyError] of the first key missing, in the order username,
    password, host, port: it is not caught, nothing is printed, and the
    server is not called. *)
Theorem connect_to_db_missing_credential `{JsonCodec} (w : world) (text key : string)
    (fields : list (string * json)) :
  files (fs w) !! secret_config_file = Some text ->
  json_loads text = Some (JObj fields) ->
  first_missing credential_keys fields = Some key ->
  connect_to_db w = (Raise (KeyError key), w).
Proof.
  intros Hf Hl Hmissing.
  unfold connect_to_db, open_r, json_load.
  unfold mbind at 1, M_bind at 1. rewrite Hf.
  unfold mbind at 1, M_bind at 1. rewrite Hl.
  unfold first_missing, credential_keys in Hmissing.
  unfold try_except_Error, lift, getitem, mbind, M_bind, mret, M_ret.
  destruct (assoc_get "username" fields); [|now simplify_eq].
  destruct (assoc_get "password" fields); [|now simplify_eq].
  destruct (assoc_get "host" fields); [|now simplify_eq].
  destruct (assoc_get "port" fields); [discriminate|now simplify_eq].
Qed.

(** ** Inserting, whatever the server answers *)

Lemma has_key_prefix (id : string) (rows rows' : table) :
  rows `prefix_of` rows' -> has_key id rows = true -> has_key id rows' = true.
Proof.
  intros [k ->] Hk. unfold has_key in *. rewrite existsb_app.
  apply orb_true_iff. left. exact Hk.
Qed.

(** The loop of [insert_records]: no row is lost on the way, and when it
    comes to its end every record's id is in the table. *)
Lemma insert_loop_done (schema_name table_name : string) (records : list row) (w : world) :
  let rw := for_each records (fun record =>
              cursor_execute Cursor
                (InsertOnDuplicateKeyKeep schema_name table_name record)) w in
  rows_kept (live (mysql w)) (live (mysql rw.2)) /\
  (rw.1 = Ret tt ->
   forall r, r ∈ records ->
     exists rows, rows_of (live (mysql rw.2)) schema_name table_name = Some rows /\
                  has_key (fst r) rows = true).
Proof.
  revert w. induction records as [|record records IH]; intros w.
  - cbn. split; [apply rows_kept_refl|]. intros _ r Hin. now apply elem_of_nil in Hin.
  - destruct w as [fsys [lv cm fl cn cu fe] out now tp dr].
    cbn [for_each]. run.
    destruct fl as [|[msg|] fl]; cbn.
    2:{ split; [apply rows_kept_refl | discriminate]. }
    all: destruct (lv !! schema_name) as [tables|] eqn:Hs; cbn;
      [destruct (tables !! table_name) as [rows|] eqn:Ht; cbn|];
      try (split; [apply rows_kept_refl | discriminate]).
    all: assert (Hstep : rows_kept lv
                   (<[schema_name := <[table_name := upsert record rows]> tables]> lv))
      by (apply (stmt_rows_kept
                   (InsertOnDuplicateKeyKeep schema_name table_name record) lv _ []);
          [exact I | cbn; now rewrite Hs, Ht]).
    all: loop_outcome IH r w2; cbn in IH; destruct IH as [Hkept Hall];
      destruct r as [[]|e]; cbn;
      (split; [exact (rows_kept_step _ _ _ Hstep Hkept)|]); try discriminate.
    all: intros _ r Hin; apply elem_of_cons in Hin as [->|Hin]; [|now apply Hall].
    all: destruct Hkept as [_ Hkept];
      destruct (Hkept schema_name table_name (upsert record rows)) as (rows2 & Hrows2 & Hpre);
      [rewrite rows_of_insert_schema, decide_True by reflexivity; apply lookup_insert_eq|].
    all: exists rows2; split; [exact Hrows2|];
      exact (has_key_prefix _ _ _ Hpre (has_key_upsert_same record rows)).
Qed.

Section AllOrNothing.
Context `{JsonCodec}.

Lemma insert_records_outcome (conn : connection) (schema_name table_name : string)
    (records : list row) (w : world) :
  live (mysql w) = committed (mysql w) ->
  let r := (insert_records conn schema_name table_name records w).1 in
  let w' := (insert_records conn schema_name table_name records w).2 in
  (r = Ret tt /\
   stdout w' = (stdout w ++ ["Records inserted successfully"])%list /\
   committed (mysql w') = live (mysql w') /\
   rows_kept (live (mysql w)) (live (mysql w')) /\
   forall r, r ∈ records ->
     exists rows, rows_of (live (mysql w')) schema_name table_name = Some rows /\
                  has_key (fst r) rows = true)
  \/
  ((exists msg, stdout w' = (stdout w ++ ["Error inserting records: " +:+ msg])%list) /\
   committed (mysql w') = committed (mysql w) /\
   (r = Ret tt -> live (mysql w') = live (mysql w)) /\
   (r = Ret tt \/ exit_status r = 1)).
Proof.
  destruct w as [fsys [lv cm fl cn cu fe] out now tp dr]. cbn [mysql live committed stdout].
  intros <-. unfold insert_records. run.
  destruct fl as [|[msg|] fl]; cbn.
  2:{ right. destruct fl as [|[msg'|] fl]; cbn; repeat split; eauto; discriminate. }
  all: lazymatch goal with
       | |- context [@for_each ?A ?l ?body ?w1] =>
           pose proof (insert_loop_frame schema_name table_name records w1) as L1;
           pose proof (insert_loop_done schema_name table_name records w1) as L2;
           run_in L1; run_in L2;
           destruct (@for_each A l body w1) as [r w2]
       end.
  all: destruct L1 as (Hr & Hc & _ & _ & Hout & _); destruct L2 as [Hkept Hall].
  all: destruct w2 as [fsys2 [lv2 cm2 fl2 cn2 cu2 fe2] out2 now2 tp2 dr2]; cbn in *; subst.
  all: destruct Hr as [-> | [emsg ->]]; cbn.
  all: unfold server_call; cbn.
  all: repeat match goal with
              | |- context [match ?l with [] => _ | _ :: _ => _ end] =>
                  destruct l as [|[?|] ?]; cbn
              end.
  all: first [ left; repeat (split; [first [reflexivity | exact Hkept]|]);
               exact (Hall eq_refl)
             | right; repeat split; eauto; discriminate ].
Qed.

(** X8: [insert_records] commits all of its records or none, wherever the
    failure falls.  Entered with nothing uncommitted, on any world and
    under any fault schedule, it ends in one of two ways.  Either it
    returns normally, the success line is printed, everything is
    committed, every row that was there is still in its place and the id of
    every record is in the table.  Or the error is printed and the
    committed catalog is what it was before the call; then, if the function
    returns normally, the session too sees the catalog as it was, the
    records already sent being rolled back, and if it does not, the process
    ends with status 1. *)
Theorem insert_records_all_or_nothing (conn : connection) (schema_name table_name : string)
    (records : list row) (w : world) :
  live (mysql w) = committed (mysql w) ->
  let r := (insert_records conn schema_name table_name records w).1 in
  let w' := (insert_records conn schema_name table_name records w).2 in
  (r = Ret tt /\
   stdout w' = (stdout w ++ ["Records inserted successfully"])%list /\
   committed (mysql w') = live (mysql w') /\
   rows_kept (live (mysql w)) (live (mysql w')) /\
   forall r, r ∈ records ->
     exists rows, rows_of (live (mysql w')) schema_name table_name = Some rows /\
                  has_key (fst r) rows = true)
  \/
  ((exists msg, stdout w' = (stdout w ++ ["Error inserting records: " +:+ msg])%list) /\
   committed (mysql w') = committed (mysql w) /\
   (r = Ret tt -> live (mysql w') = live (mysql w)) /\
   (r = Ret tt \/ exit_status r = 1)).
Proof. apply insert_records_outcome. Qed.

(** X9: [insert] before [setup] is a logged no-op that ends with status 0.
    When the fixture table is not there and the server answers every call,
    [cdc_insert] returns normally: the one line printed after the
    connection is the insertion error, the catalog is what it was, and the
    connection is closed. *)
Theorem cdc_insert_before_setup (w : world) (name : string) :
  files (fs w) !! generated_schema_file = Some name ->
  has_credentials w ->
  faults (mysql w) = [] ->
  live (mysql w) = committed (mysql w) ->
  rows_of (live (mysql w)) name "id_and_name_cat" = None ->
  exists w' msg,
    cdc_insert w = (Ret tt, w') /\
    exit_status (cdc_insert w).1 = 0 /\
    stdout w' = (stdout w ++ ["Connected to the database successfully";
                              "Error inserting records: " +:+ msg])%list /\
    live (mysql w') = live (mysql w) /\
    committed (mysql w') = committed (mysql w) /\
    connections (mysql w') = connections (mysql w) /\
    cursors (mysql w') = cursors (mysql w).
Proof.
  intros Hname Hcred Hfaults Hclean Hrows.
  assert (Hload : load_schema_name_from_catalog w = (Ret name, w)).
  { unfold load_schema_name_from_catalog, open_r. now rewrite Hname. }
  unfold cdc_insert. rewrite (bind_ret _ _ _ _ _ Hload).
  rewrite (bind_ret _ _ _ _ _ (connect_to_db_ok w Hcred (no_faults_next_call w Hfaults))).
  clear Hload Hcred Hname.
  destruct w as [fsys [lv cm fl cn cu fe] out now tp dr].
  cbn [mysql live committed stdout faults] in *. subst cm fl.
  unfold after_connect, insert_records. cbn [for_each]. run.
  unfold rows_of in Hrows.
  assert (Hout : forall msg : string,
            ((out ++ ["Connected to the database successfully"]) ++
             ["Error inserting records: " +:+ msg])%list
            = (out ++ ["Connected to the database successfully";
                       "Error inserting records: " +:+ msg])%list)
    by (intros msg; now rewrite <- app_assoc).
  destruct (lv !! name) as [tables|]; cbn in *; [rewrite Hrows|]; cbn;
    eexists; eexists; rewrite Hout; repeat split; reflexivity.
Qed.

End AllOrNothing.

(** ** Sample runs of the invariants *)

Lemma fixture_keys_unique (db : catalog) :
  (forall s tables, db !! s = Some tables -> tables = fixture_table) -> keys_unique db.
Proof.
  intros Hdb s t rows Hrows. unfold rows_of in Hrows.
  destruct (db !! s) as [tables|] eqn:Hs; [|discriminate]. cbn in Hrows.
  rewrite (Hdb s tables Hs) in Hrows. unfold fixture_table in Hrows.
  apply lookup_singleton_Some in Hrows as [_ <-]. constructor.
Qed.

Lemma two_runs_keys_unique : keys_unique two_runs.
Proof.
  apply fixture_keys_unique. intros s tables Hs. unfold two_runs in Hs.
  apply lookup_insert_Some in Hs as [[_ <-]|[_ Hs]]; [reflexivity|].
  now apply lookup_singleton_Some in Hs as [_ <-].
Qed.

Lemma primary_keys_stay_unique_witness :
  session_inv keys_unique
    (main ["hook.py"; "insert"] (sample_world plain_fs two_runs [] (jan 3))).2.
Proof.
  apply (primary_keys_stay_unique ["hook.py"; "insert"]
           (sample_world plain_fs two_runs [] (jan 3))).
  split; exact two_runs_keys_unique.
Defined.

Lemma seeding_keeps_every_row_witness :
  session_inv (rows_kept two_runs)
    (main ["hook.py"; "insert"] (sample_world plain_fs two_runs [] (jan 3))).2.
Proof.
  apply (seeding_keeps_every_row "hook.py" "insert" []
           (sample_world plain_fs two_runs [] (jan 3))).
  - cbn. auto.
  - reflexivity.
Defined.

Lemma teardown_only_removes_witness :
  session_inv (fun db => db ⊆ three_days)
    (main ["hook.py"; "teardown"] (sample_world plain_fs three_days [] (jan 3))).2.
Proof.
  apply (teardown_only_removes "hook.py" "teardown" []
           (sample_world plain_fs three_days [] (jan 3))).
  - cbn. auto.
  - reflexivity.
Defined.

Lemma seeding_touches_named_schema_only_witness :
  session_inv (same_elsewhere sample_name two_runs)
    (main ["hook.py"; "setup"] (sample_world plain_fs two_runs [None; Some "gone away"] (jan 3))).2.
Proof.
  apply (seeding_touches_named_schema_only "hook.py" "setup" sample_name []
           (sample_world plain_fs two_runs [None; Some "gone away"] (jan 3))).
  - cbn. auto.
  - reflexivity.
  - reflexivity.
Defined.

Lemma prepare_then_load_witness :
  exists name w1 w',
    generate_schema_date_with_suffix (sample_world plain_fs ∅ [] (jan 3)) = (Ret name, w1) /\
    prepare (sample_world plain_fs ∅ [] (jan 3)) = (Ret tt, w') /\
    load_schema_name_from_catalog w' = (Ret name, w') /\
    stdout w' = ([] ++ ["schema_name: " +:+ name])%list /\
    mysql w' = sample_session ∅ [].
Proof.
  apply (prepare_then_load (sample_world plain_fs ∅ [] (jan 3))).
  - cbn. set_unfold. auto.
  - cbn. set_unfold. intros [[E|E]|E]; vm_compute in E; discriminate E.
Defined.

Lemma unrecognized_command_exits_witness :
  main ["hook.py"; "Setup"] (sample_world plain_fs ∅ [] (jan 3))
  = (Raise (SystemExit 1),
     set_stdout (fun out => (out ++ ["Unrecognized command " +:+ "Setup" +:+ "."])%list)
       (sample_world plain_fs ∅ [] (jan 3))).
Proof.
  apply (unrecognized_command_exits "hook.py" "Setup" []
           (sample_world plain_fs ∅ [] (jan 3))).
  reflexivity.
Defined.

(** A secrets file without a password. *)
Lemma connect_to_db_missing_credential_witness :
  let w := sample_world
             {| files := {[ secret_config_file := sample_secret_cdc_text ]}; dirs := ∅ |}
             ∅ [] (jan 3) in
  @connect_to_db
    {| json_loads text := Some (JObj [("username", JStr "root"); ("host", JStr "db")]);
       json_dumps obj := "" |} w
  = (Raise (KeyError "password"), w).
Proof.
  apply (@connect_to_db_missing_credential
           {| json_loads text := Some (JObj [("username", JStr "root"); ("host", JStr "db")]);
              json_dumps obj := "" |}
           (sample_world
              {| files := {[ secret_config_file := sample_secret_cdc_text ]}; dirs := ∅ |}
              ∅ [] (jan 3))
           sample_secret_cdc_text "password"
           [("username", JStr "root"); ("host", JStr "db")]).
  - reflexivity.
  - reflexivity.
  - reflexivity.
Defined.

Lemma insert_records_all_or_nothing_witness :
  let w := sample_world plain_fs two_runs [None; None; Some "gone away"] (jan 3) in
  let r := (insert_records Connection sample_name "id_and_name_cat" seed_records w).1 in
  let w' := (insert_records Connection sample_name "id_and_name_cat" seed_records w).2 in
  (r = Ret tt /\
   stdout w' = (stdout w ++ ["Records inserted successfully"])%list /\
   committed (mysql w') = live (mysql w') /\
   rows_kept (live (mysql w)) (live (mysql w')) /\
   forall r, r ∈ seed_records ->
     exists rows, rows_of (live (mysql w')) sample_name "id_and_name_cat" = Some rows /\
                  has_key (fst r) rows = true)
  \/
  ((exists msg, stdout w' = (stdout w ++ ["Error inserting records: " +:+ msg])%list) /\
   committed (mysql w') = committed (mysql w) /\
   (r = Ret tt -> live (mysql w') = live (mysql w)) /\
   (r = Ret tt \/ exit_status r = 1)).
Proof.
  apply (insert_records_all_or_nothing Connection sample_name "id_and_name_cat" seed_records
           (sample_world plain_fs two_runs [None; None; Some "gone away"] (jan 3))).
  reflexivity.
Defined.

Lemma cdc_insert_before_setup_witness :
  exists w' msg,
    cdc_insert (sample_world plain_fs ∅ [] (jan 3)) = (Ret tt, w') /\
    exit_status (cdc_insert (sample_world plain_fs ∅ [] (jan 3))).1 = 0 /\
    stdout w' = ([] ++ ["Connected to the database successfully";
                        "Error inserting records: " +:+ msg])%list /\
    live (mysql w') = ∅ /\
    committed (mysql w') = ∅ /\
    connections (mysql w') = 0 /\
    cursors (mysql w') = 0.
Proof.
  apply (cdc_insert_before_setup (sample_world plain_fs ∅ [] (jan 3)) sample_name).
  - reflexivity.
  - apply sample_has_credentials.
  - reflexivity.
  - reflexivity.
  - reflexivity.
Defined.

(** ** What a command leaves as it was *)

(** A reading [f] of the world that [m] gives back as it found it is an
    invariant at every value. *)
Lemma keeps_inv_frame {A X} (f : world -> X) (x : X) (m : M A) :
  (forall w, f (m w).2 = f w) -> keeps_inv (fun w => f w = x) m.
Proof. intros E w Hw. now rewrite E. Qed.

Lemma frame_of_keeps {A X} (f : world -> X) (m : M A) :
  (forall x, keeps_inv (fun w => f w = x) m) -> forall w, f (m w).2 = f w.
Proof. intros K w. exact (K (f w) w eq_refl). Qed.

Ltac frame_step f :=
  lazymatch goal with
  | |- keeps_inv _ (mret _) => apply keeps_inv_ret
  | |- keeps_inv _ (local _ _) => apply keeps_inv_local
  | |- keeps_inv _ (attempt _ _) => apply keeps_inv_attempt; [|intros ?]
  | |- keeps_inv _ (try_finally _ _) => apply keeps_inv_try_finally
  | |- keeps_inv _ (try_except_Error _ _) => apply keeps_inv_try_except; [|intros ?]
  | |- keeps_inv _ (for_each _ _) => apply keeps_inv_for_each; intros ?
  | |- keeps_inv _ (cursor_execute _ _) => unfold cursor_execute
  | |- keeps_inv _ (_ ≫= _) => apply keeps_inv_bind; [|intros ?]
  | |- keeps_inv _ (match ?x with _ => _ end) => destruct x
  | |- keeps_inv _ _ => apply (keeps_inv_frame f); solve [primitive]
  end.

Ltac frame f := unfold sys_exit, json_load, json_dump; repeat frame_step f.

Lemma random_choices_frame {X} (f : world -> X) (population : string) (k : nat) :
  (forall g w, f (set_drawn g w) = f w) ->
  forall w, f (random_choices population k w).2 = f w.
Proof.
  intros Hf w. destruct (random_choices_run population k w) as (s & ->).
  cbn [snd]. rewrite <- (Hf (fun d => k + d) w). now destruct w.
Qed.

Section Frames.
Context `{JsonCodec}.

(** *** Cursors *)

(** A guarded operation: the cursor its [try] block obtains is the one its
    [finally] block closes, and when none is obtained none is closed. *)
Lemma guarded_cursors (conn : connection) (body : cursor -> M unit)
    (handler : string -> M unit) (n : nat) :
  (forall c m, keeps_inv (fun w => cursors (mysql w) = m) (body c)) ->
  (forall e m, keeps_inv (fun w => cursors (mysql w) = m) (handler e)) ->
  keeps_inv (fun w => cursors (mysql w) = n)
    (attempt (conn_cursor conn) (fun bound =>
       try_finally
         (try_except_Error (cursor ← lift bound; body cursor) handler)
         (cursor ← local "cursor" bound; cursor_close cursor))).
Proof.
  intros Hb Hh w Hw. unfold attempt.
  destruct (conn_cursor conn w) as [bound w1] eqn:Hcur.
  assert (Hw1 : cursors (mysql w1)
                = match bound with Ret _ => S n | Raise _ => n end).
  { destruct w as [fsys [lv cm fl cn cu fe] out now tp dr].
    unfold conn_cursor, server_call in Hcur. cbn in Hcur, Hw.
    destruct fl as [|[msg|] fl]; cbn in Hcur; injection Hcur as <- <-; cbn; congruence. }
  pose proof (keeps_inv_try_except _ (cursor ← lift bound; body cursor) handler
                (keeps_inv_bind _ (lift bound) body
                   ltac:(apply (keeps_inv_frame (fun w => cursors (mysql w)));
                         solve [primitive])
                   (fun c => Hb c _))
                (fun e => Hh e _) w1 Hw1) as Hbody.
  unfold try_finally.
  destruct (try_except_Error (cursor ← lift bound; body cursor) handler w1) as [r w2].
  cbn [snd] in Hbody.
  destruct bound as [[]|e]; run.
  - now rewrite Hbody.
  - exact Hbody.
Qed.

Lemma create_schema_cursors conn name n :
  keeps_inv (fun w => cursors (mysql w) = n) (create_schema conn name).
Proof.
  unfold create_schema. apply guarded_cursors; intros; frame (fun w => cursors (mysql w)).
Qed.

Lemma create_table_cursors conn name table_name n :
  keeps_inv (fun w => cursors (mysql w) = n) (create_table conn name table_name).
Proof.
  unfold create_table. apply guarded_cursors; intros; frame (fun w => cursors (mysql w)).
Qed.

Lemma insert_records_cursors conn name table_name records n :
  keeps_inv (fun w => cursors (mysql w) = n) (insert_records conn name table_name records).
Proof.
  unfold insert_records. apply guarded_cursors; intros; frame (fun w => cursors (mysql w)).
Qed.

Lemma delete_schemas_cursors conn prefix n :
  keeps_inv (fun w => cursors (mysql w) = n) (delete_schemas_with_prefix conn prefix).
Proof.
  unfold delete_schemas_with_prefix.
  apply guarded_cursors; intros; frame (fun w => cursors (mysql w)).
Qed.

Lemma random_choices_cursors population k n :
  keeps_inv (fun w => cursors (mysql w) = n) (random_choices population k).
Proof.
  apply (keeps_inv_frame (fun w => cursors (mysql w))).
  apply (random_choices_frame (fun w => cursors (mysql w))). intros g w. now destruct w.
Qed.

Lemma main_cursors (argv : list string) (n : nat) :
  keeps_inv (fun w => cursors (mysql w) = n) (main argv).
Proof.
  unfold main, setup, cdc_insert, teardown, final_teardown, prepare,
    generate_schema_date_with_suffix, load_schema_name_from_catalog, connect_to_db,
    write_supporting_file.
  unfold sys_exit, json_load, json_dump.
  repeat lazymatch goal with
         | |- keeps_inv _ (create_schema _ _) => apply create_schema_cursors
         | |- keeps_inv _ (create_table _ _ _) => apply create_table_cursors
         | |- keeps_inv _ (insert_records _ _ _ _) => apply insert_records_cursors
         | |- keeps_inv _ (delete_schemas_with_prefix _ _) => apply delete_schemas_cursors
         | |- keeps_inv _ (random_choices _ _) => apply random_choices_cursors
         | |- _ => frame_step (fun w => cursors (mysql w))
         end.
Qed.

(** X10: every cursor a command opens it closes.  On every world, for every
    argument list and whatever the server answers, the number of open
    cursors after [main] is what it was before, be the way out a return, an
    [exit(1)] or an uncaught exception: a [finally] block that finds its
    cursor unbound closes none, and none was opened. *)
Theorem every_cursor_is_closed (argv : list string) (w : world) :
  cursors (mysql (main argv w).2) = cursors (mysql w).
Proof. exact (main_cursors argv (cursors (mysql w)) w eq_refl). Qed.

(** *** Connections *)

Lemma create_schema_connections conn name n :
  keeps_inv (fun w => connections (mysql w) = n) (create_schema conn name).
Proof. unfold create_schema. frame (fun w => connections (mysql w)). Qed.

Lemma create_table_connections conn name table_name n :
  keeps_inv (fun w => connections (mysql w) = n) (create_table conn name table_name).
Proof. unfold create_table. frame (fun w => connections (mysql w)). Qed.

Lemma insert_records_connections conn name table_name records n :
  keeps_inv (fun w => connections (mysql w) = n) (insert_records conn name table_name records).
Proof. unfold insert_records. frame (fun w => connections (mysql w)). Qed.

Lemma write_supporting_file_connections name n :
  keeps_inv (fun w => connections (mysql w) = n) (write_supporting_file name).
Proof. unfold write_supporting_file. frame (fun w => connections (mysql w)). Qed.

(** [connect_to_db] opens a connection when it returns, and none when it
    does not. *)
Lemma connect_to_db_connections (w : world) :
  connections (mysql (connect_to_db w).2)
  = match (connect_to_db w).1 with
    | Ret _ => S (connections (mysql w))
    | Raise _ => connections (mysql w)
    end.
Proof.
  destruct w as [[fl ds] [lv cm flt cn cu fe] out now tp dr].
  unfold connect_to_db, open_r, json_load, getitem. run.
  repeat (case_match; simplify_eq; cbn); reflexivity.
Qed.

Lemma bind_returns {A B} (m : M A) (k : A -> M B) (w : world) (a : A) :
  (m w).1 = Ret a -> (m ≫= k) w = k a (m w).2.
Proof. unfold mbind, M_bind. destruct (m w) as [r w1]. cbn. now intros ->. Qed.

Lemma bind_ret_inv {A B} (m : M A) (k : A -> M B) (w : world) (b : B) :
  ((m ≫= k) w).1 = Ret b ->
  exists a, (m w).1 = Ret a /\ (m ≫= k) w = k a (m w).2.
Proof.
  unfold mbind, M_bind. destruct (m w) as [[a|e] w1]; cbn; [eauto|discriminate].
Qed.

(** *** What a guarded operation lets out *)

Lemma raises_only_bind {A B} (E : exn -> Prop) (m : M A) (k : A -> M B) :
  raises_only E m -> (forall a, raises_only E (k a)) -> raises_only E (m ≫= k).
Proof.
  intros Hm Hk w e. specialize (Hm w). unfold mbind, M_bind.
  destruct (m w) as [[a|e'] w1]; cbn in *; [apply Hk|].
  intros [= ->]. now apply Hm.
Qed.

Lemma raises_only_for_each {A} (E : exn -> Prop) (l : list A) (body : A -> M unit) :
  (forall x, raises_only E (body x)) -> raises_only E (for_each l body).
Proof.
  intros Hbody. induction l as [|x l IH]; [discriminate|].
  cbn [for_each]. apply raises_only_bind; [apply Hbody | intros _; exact IH].
Qed.

Ltac raises_primitive :=
  let w := fresh "w" in
  let e := fresh "e" in
  intros w e; destruct w as [[? ?] [? ? [|[?|] ?] ? ? ?] ? ? ? ?];
  unfold is_mysql_error; run;
  repeat (case_match; simplify_eq; cbn); intros; simplify_eq; eauto.

Ltac raises_step :=
  lazymatch goal with
  | |- raises_only _ (for_each _ _) => apply raises_only_for_each; intros ?
  | |- raises_only _ (_ ≫= _) => apply raises_only_bind; [|intros ?]
  | |- raises_only _ _ => solve [raises_primitive]
  end.

Lemma cursor_execute_raises (c : cursor) (q : stmt) :
  raises_only is_mysql_error (cursor_execute c q).
Proof. raises_primitive. Qed.

Lemma guarded_raises (conn : connection) (body : cursor -> M unit)
    (handler : string -> M unit) :
  (forall c, raises_only is_mysql_error (body c)) ->
  (forall e, raises_only is_mysql_error (handler e)) ->
  raises_only escapes_recovery
    (attempt (conn_cursor conn) (fun bound =>
       try_finally
         (try_except_Error (cursor ← lift bound; body cursor) handler)
         (cursor ← local "cursor" bound; cursor_close cursor))).
Proof.
  intros Hb Hh w e. unfold attempt.
  destruct (conn_cursor conn w) as [bound w1] eqn:Hcur.
  assert (Hbound : forall e', bound = Raise e' -> is_mysql_error e').
  { intros e' ->. destruct w as [fsys [lv cm fl cn cu fe] out now tp dr].
    unfold conn_cursor, server_call in Hcur. cbn in Hcur.
    destruct fl as [|[msg|] fl]; cbn in Hcur; simplify_eq. eexists; reflexivity. }
  unfold try_finally, try_except_Error.
  destruct bound as [c|e']; run.
  - specialize (Hb c w1 ). destruct (body c w1) as [[[]|eb] w2]; cbn in *.
    + discriminate.
    + destruct (Hb eb eq_refl) as [msg ->].
      specialize (Hh msg w2). destruct (handler msg w2) as [[[]|eh] w3]; cbn in *.
      * discriminate.
      * intros [= <-]. left. now apply Hh.
  - destruct (Hbound e' eq_refl) as [msg ->].
    destruct (handler msg w1) as [r w2]. cbn. intros [= <-]. now right.
Qed.

Lemma create_schema_raises conn name :
  raises_only escapes_recovery (create_schema conn name).
Proof. unfold create_schema. apply guarded_raises; intros; repeat raises_step. Qed.

Lemma create_table_raises conn name table_name :
  raises_only escapes_recovery (create_table conn name table_name).
Proof. unfold create_table. apply guarded_raises; intros; repeat raises_step. Qed.

Lemma insert_records_raises conn name table_name records :
  raises_only escapes_recovery (insert_records conn name table_name records).
Proof. unfold insert_records. apply guarded_raises; intros; repeat raises_step. Qed.

(** *** The connection of the seeding commands *)

Lemma closes_after {A} (m : M A) (k : A -> M unit) :
  (forall n, keeps_inv (fun w => connections (mysql w) = n) m) ->
  (forall a, closes_what_it_opens (k a)) ->
  closes_what_it_opens (m ≫= k).
Proof.
  intros Hm Hk w. specialize (Hm _ w eq_refl). unfold mbind, M_bind.
  destruct (m w) as [[a|e] w1]; cbn in *; [|auto].
  intros Hend. now rewrite Hk.
Qed.

Lemma connected_closes_connection (body : connection -> M unit) :
  (forall conn, raises_only escapes_recovery (body conn)) ->
  (forall conn w, (body conn w).1 = Ret tt ->
     connections (mysql (body conn w).2) = pred (connections (mysql w))) ->
  closes_what_it_opens (connect_to_db ≫= body).
Proof.
  intros Hraises Hbody w. pose proof (connect_to_db_connections w) as Hc.
  unfold mbind, M_bind. destruct (connect_to_db w) as [[conn|e] w1]; cbn in *; [|auto].
  specialize (Hraises conn w1). specialize (Hbody conn w1).
  destruct (body conn w1) as [[[]|e] w2]; cbn in *.
  - intros _. now rewrite Hbody, Hc.
  - intros [Hret | [status [= ->]]]; [discriminate|].
    destruct (Hraises _ eq_refl) as [[msg Hm] | Hu]; discriminate.
Qed.

Lemma seed_database_connections conn name (w : world) :
  let body := create_schema conn name ;;
              create_table conn name "id_and_name_cat" ;;
              insert_records conn name "id_and_name_cat" seed_records ;;
              conn_close conn in
  (body w).1 = Ret tt ->
  connections (mysql (body w).2) = pred (connections (mysql w)).
Proof.
  intros body Hret. subst body.
  destruct (bind_ret_inv _ _ _ _ Hret) as ([] & _ & E1). rewrite E1 in *. clear E1.
  destruct (bind_ret_inv _ _ _ _ Hret) as ([] & _ & E2). rewrite E2 in *. clear E2.
  destruct (bind_ret_inv _ _ _ _ Hret) as ([] & _ & E3). rewrite E3 in *. clear E3.
  cbn [conn_close snd mysql set_mysql connections].
  f_equal.
  rewrite (insert_records_connections conn name _ _ _ _ eq_refl).
  rewrite (create_table_connections conn name _ _ _ eq_refl).
  now rewrite (create_schema_connections conn name _ _ eq_refl).
Qed.

Lemma insert_then_close_connections conn name records (w : world) :
  let body := insert_records conn name "id_and_name_cat" records ;; conn_close conn in
  (body w).1 = Ret tt ->
  connections (mysql (body w).2) = pred (connections (mysql w)).
Proof.
  intros body Hret. subst body.
  destruct (bind_ret_inv _ _ _ _ Hret) as ([] & _ & E1). rewrite E1 in *. clear E1.
  cbn [conn_close snd mysql set_mysql connections].
  f_equal.
  now rewrite (insert_records_connections conn name _ _ _ _ eq_refl).
Qed.

Lemma setup_connections : closes_what_it_opens setup.
Proof.
  unfold setup, load_schema_name_from_catalog.
  apply closes_after; [intros n; frame (fun w => connections (mysql w)) | intros name].
  apply closes_after; [intros n; apply write_supporting_file_connections | intros _].
  apply connected_closes_connection.
  - intros conn.
    repeat (apply raises_only_bind; [|intros _]);
      first [apply create_schema_raises | apply create_table_raises
            | apply insert_records_raises | raises_primitive].
  - intros conn w. apply seed_database_connections.
Qed.

Lemma cdc_insert_connections : closes_what_it_opens cdc_insert.
Proof.
  unfold cdc_insert, load_schema_name_from_catalog.
  apply closes_after; [intros n; frame (fun w => connections (mysql w)) | intros name].
  apply connected_closes_connection.
  - intros conn.
    repeat (apply raises_only_bind; [|intros _]);
      first [apply insert_records_raises | raises_primitive].
  - intros conn w. apply insert_then_close_connections.
Qed.

(** X11: [setup] and [cdc_insert] close the connection they open whenever
    they are over by their own choice.  On every world and whatever the
    server answers, if the command returns or leaves through [sys.exit],
    the number of open connections is what it was before: no connection is
    made when [connect_to_db] exits, and after it the only ways out before
    [close()] are the error of a refused rollback and the unbound cursor,
    which end the process with a traceback. *)
Theorem seeding_closes_its_connection (w : world) :
  (ended_by_choice (setup w).1 ->
   connections (mysql (setup w).2) = connections (mysql w)) /\
  (ended_by_choice (cdc_insert w).1 ->
   connections (mysql (cdc_insert w).2) = connections (mysql w)).
Proof. split; [apply setup_connections | apply cdc_insert_connections]. Qed.

(** *** Files *)

Lemma server_commands_fs (prog command : string) (rest : list string) (x : filesystem) :
  In command ["teardown"; "final_teardown"; "insert"] ->
  keeps_inv (fun w => fs w = x) (main (prog :: command :: rest)).
Proof.
  intros Hin. cbn in Hin. destruct Hin as [<-|[<-|[<-|[]]]].
  - change (main (prog :: "teardown" :: rest)) with (mret "teardown" ≫= fun _ => teardown).
    unfold teardown, delete_schemas_with_prefix, connect_to_db. frame fs.
  - change (main (prog :: "final_teardown" :: rest))
      with (mret "final_teardown" ≫= fun _ => final_teardown).
    unfold final_teardown, delete_schemas_with_prefix, connect_to_db,
      load_schema_name_from_catalog. frame fs.
  - change (main (prog :: "insert" :: rest)) with (mret "insert" ≫= fun _ => cdc_insert).
    unfold cdc_insert, insert_records, connect_to_db, load_schema_name_from_catalog.
    frame fs.
Qed.

(** X12: [teardown], [final_teardown] and [insert] never write: on every
    world and whatever the server answers, the file system after the
    command, files and directories, is the one before. *)
Theorem server_commands_write_no_file (prog command : string) (rest : list string)
    (w : world) :
  In command ["teardown"; "final_teardown"; "insert"] ->
  fs (main (prog :: command :: rest) w).2 = fs w.
Proof.
  intros Hin. exact (server_commands_fs prog command rest (fs w) Hin w eq_refl).
Qed.

End Frames.

(** ** What [write_supporting_file] leaves alone *)

Lemma keeps_file_print (path line : string) : keeps_file path (print line).
Proof. intros w. reflexivity. Qed.

Lemma keeps_file_mkdir (path p : string) : keeps_file path (mkdir p).
Proof. intros w. unfold mkdir. repeat case_match; reflexivity. Qed.

Lemma keeps_inv_ret_bind {A B} (I : world -> Prop) (a : A) (k : A -> M B) :
  keeps_inv I (k a) -> keeps_inv I (mret a ≫= k).
Proof. intros K w Hw. exact (K w Hw). Qed.

Section Written.
Context `{JsonCodec}.

Lemma write_supporting_file_keeps_file (name path : string) :
  path ∉ written_files -> keeps_file path (write_supporting_file name).
Proof.
  unfold written_files. rewrite !not_elem_of_cons. intros (N1 & N2 & N3 & N4 & N5 & _).
  unfold write_supporting_file, json_dump.
  repeat lazymatch goal with
         | |- keeps_file _ (_ ≫= _) => apply keeps_file_bind; [|intros ?]
         | |- keeps_file _ (open_r _) => apply keeps_file_open_r
         | |- keeps_file _ (json_load _) => apply keeps_file_json_load
         | |- keeps_file _ (lift _) => apply keeps_file_lift
         | |- keeps_file _ (print _) => apply keeps_file_print
         | |- keeps_file _ (mkdir _) => apply keeps_file_mkdir
         | |- keeps_file _ (open_w _) => apply keeps_file_open_w; congruence
         | |- keeps_file _ (file_write _ _) => apply keeps_file_write; congruence
         end.
Qed.

Lemma write_supporting_file_session (name : string) (x : session) :
  keeps_inv (fun w => mysql w = x) (write_supporting_file name).
Proof. unfold write_supporting_file. frame mysql. Qed.

(** X13: [write_supporting_file] writes its five files and nothing else.
    On every world and however it ends - a template missing, a placeholder
    too many, a secrets file that does not parse - a file that is not one
    of the five is afterwards what it was, and the session is not touched. *)
Theorem write_supporting_file_touches_five_files (name path : string) (w : world) :
  path ∉ written_files ->
  files (fs (write_supporting_file name w).2) !! path = files (fs w) !! path /\
  mysql (write_supporting_file name w).2 = mysql w.
Proof.
  intros Hpath. split.
  - now apply write_supporting_file_keeps_file.
  - exact (write_supporting_file_session name (mysql w) w eq_refl).
Qed.

Lemma main_keeps_schema_file (prog command : string) (rest : list string)
    (x : option string) :
  command <> "prepare" ->
  keeps_inv (fun w => files (fs w) !! generated_schema_file = x)
    (main (prog :: command :: rest)).
Proof.
  intros Hne. unfold main. cbn [lookup list_lookup]. apply keeps_inv_ret_bind.
  unfold setup, cdc_insert, teardown, final_teardown, load_schema_name_from_catalog,
    connect_to_db, insert_records, create_schema, create_table, delete_schemas_with_prefix.
  unfold sys_exit, json_load.
  repeat lazymatch goal with
         | |- keeps_inv _ (write_supporting_file _) =>
             apply (keeps_inv_frame (fun w => files (fs w) !! generated_schema_file));
             apply write_supporting_file_keeps_file, not_written; now right
         | |- keeps_inv _ (if String.eqb ?c "prepare" then _ else _) =>
             destruct (String.eqb_spec c "prepare") as [?|_]; [contradiction|]
         | |- keeps_inv ?I (if false then _ else ?k) => change (keeps_inv I k)
         | |- _ => frame_step (fun w => files (fs w) !! generated_schema_file)
         end.
Qed.

(** X14: [prepare] is the only command that writes the persisted schema
    name.  Whatever other first argument [main] is given, known or not, on
    every world and whatever the server answers, the schema file is
    afterwards what it was. *)
Theorem only_prepare_writes_schema_file (prog command : string) (rest : list string)
    (w : world) :
  command <> "prepare" ->
  files (fs (main (prog :: command :: rest) w).2) !! generated_schema_file
  = files (fs w) !! generated_schema_file.
Proof.
  intros Hne.
  exact (main_keeps_schema_file prog command rest _ Hne w eq_refl).
Qed.

(** ** Templates that cannot be filled *)

Lemma copy_block_missing (src dst : string) (args : list string) (w : world) :
  dst ∉ dirs (fs w) ->
  dirname dst ∈ dirs (fs w) ->
  src <> dst ->
  files (fs w) !! src = None ->
  src ∉ dirs (fs w) ->
  (open_w dst ;;
   source_file ← open_r src;
   text ← lift (py_format source_file args);
   file_write dst text) w
  = (Raise (FileNotFoundError src),
     set_fs (fun f => {| files := <[dst := ""]> (files f); dirs := dirs f |}) w).
Proof.
  destruct w as [[fl ds] sess out now tp dr]. cbn [fs files dirs].
  intros Hdst Hdir Hne Hsrc Hnd. fs_run.
  rewrite (decide_False (P := dst ∈ ds)), (decide_True (P := dirname dst ∈ ds)) by assumption.
  fs_run. rewrite lookup_insert_ne, Hsrc by congruence.
  now rewrite (decide_False (P := src ∈ ds)) by assumption.
Qed.

Lemma copy_block_unfilled (src dst content : string) (args : list string) (e : exn)
    (w : world) :
  dst ∉ dirs (fs w) ->
  dirname dst ∈ dirs (fs w) ->
  src <> dst ->
  files (fs w) !! src = Some content ->
  py_format content args = Raise e ->
  (open_w dst ;;
   source_file ← open_r src;
   text ← lift (py_format source_file args);
   file_write dst text) w
  = (Raise e,
     set_fs (fun f => {| files := <[dst := ""]> (files f); dirs := dirs f |}) w).
Proof.
  destruct w as [[fl ds] sess out now tp dr]. cbn [fs files dirs].
  intros Hdst Hdir Hne Hsrc Hfmt. fs_run.
  rewrite (decide_False (P := dst ∈ ds)), (decide_True (P := dirname dst ∈ ds)) by assumption.
  fs_run. rewrite lookup_insert_ne, Hsrc by congruence.
  fs_run. now rewrite Hfmt.
Qed.

(** With nothing to convert, an argument is one too many. *)
Lemma py_format_no_placeholder (text v : string) (args : list string) :
  all_chars not_percent text = true ->
  py_format text (v :: args)
  = Raise (TypeError "not all arguments converted during string formatting").
Proof.
  intros Htext. unfold py_format.
  rewrite <- (append_nil_r text) at 1.
  now rewrite format_loop_text by exact Htext.
Qed.

Lemma format_loop_escape (rest : string) (args : list string) (out : string) :
  format_loop FText ("%%" +:+ rest) args out = format_loop FText rest args (out +:+ "%").
Proof. reflexivity. Qed.

(** What the first copy of [write_supporting_file] is when its block
    fails with [e], the copy having been emptied. *)
Lemma first_copy_fails (name : string) (w : world) (e : exn) :
  temp_dir_ready w ->
  (forall w1,
     files (fs w1) = files (fs w) ->
     (temp_dir ∈ dirs (fs w1)) ->
     (forall path, path <> temp_dir -> path ∉ dirs (fs w) -> path ∉ dirs (fs w1)) ->
     (open_w catalog_write_file ;;
      source_file ← open_r catalog_source_file;
      text ← lift (py_format source_file [name]);
      file_write catalog_write_file text) w1
     = (Raise e,
        set_fs (fun f => {| files := <[catalog_write_file := ""]> (files f);
                            dirs := dirs f |}) w1)) ->
  (write_supporting_file name w).1 = Raise e /\
  files (fs (write_supporting_file name w).2) !! catalog_write_file = Some "" /\
  (forall path, path <> catalog_write_file ->
     files (fs (write_supporting_file name w).2) !! path = files (fs w) !! path).
Proof.
  intros Hready Hblock.
  destruct (mkdir_temp_run
              (set_stdout (fun out =>
                 (out ++ ["writing schema name to files: " +:+ name])%list) w))
    as (ds & Hmk & Hin & Hfresh); [exact Hready|].
  cbn [fs set_stdout] in Hfresh.
  unfold write_supporting_file.
  erewrite bind_ret by reflexivity.
  erewrite bind_ret by exact Hmk.
  erewrite bind_raise by (apply Hblock; [reflexivity | exact Hin | exact Hfresh]).
  cbn [fst snd fs files set_fs set_stdout]. split; [reflexivity|]. split.
  - apply lookup_insert_eq.
  - intros path Hpath. now apply lookup_insert_ne.
Qed.

(** X15: a missing catalog template stops [write_supporting_file] with
    [FileNotFoundError], after the copy was opened for writing: the copy is
    left behind empty, and no other file is written. *)
Theorem missing_template_leaves_empty_copy (name : string) (w : world) :
  temp_dir_ready w ->
  files (fs w) !! catalog_source_file = None ->
  catalog_source_file ∉ dirs (fs w) ->
  (write_supporting_file name w).1 = Raise (FileNotFoundError catalog_source_file) /\
  files (fs (write_supporting_file name w).2) !! catalog_write_file = Some "" /\
  (forall path, path <> catalog_write_file ->
     files (fs (write_supporting_file name w).2) !! path = files (fs w) !! path).
Proof.
  intros Hready Hnone Hnd. apply first_copy_fails; [exact Hready|].
  intros w1 Hfiles Hin Hfresh.
  destruct (written_files_not_dirs w Hready) as (D1 & _).
  apply copy_block_missing;
    [ apply Hfresh; [paths_differ | exact D1] | exact Hin | paths_differ
    | now rewrite Hfiles | apply Hfresh; [paths_differ | exact Hnd] ].
Qed.

(** X16: a catalog template without a placeholder is an error, not a plain
    copy.  When the template holds no [%], the schema name is an argument
    too many for the [%] operator: [write_supporting_file] stops with
    [TypeError], the copy is left empty and no other file is written. *)
Theorem template_without_placeholder_is_an_error (name text : string) (w : world) :
  temp_dir_ready w ->
  files (fs w) !! catalog_source_file = Some text ->
  all_chars not_percent text = true ->
  (write_supporting_file name w).1
  = Raise (TypeError "not all arguments converted during string formatting") /\
  files (fs (write_supporting_file name w).2) !! catalog_write_file = Some "" /\
  (forall path, path <> catalog_write_file ->
     files (fs (write_supporting_file name w).2) !! path = files (fs w) !! path).
Proof.
  intros Hready Hsome Htext. apply first_copy_fails; [exact Hready|].
  intros w1 Hfiles Hin Hfresh.
  destruct (written_files_not_dirs w Hready) as (D1 & _).
  apply copy_block_unfilled with (content := text);
    [ apply Hfresh; [paths_differ | exact D1] | exact Hin | paths_differ
    | now rewrite Hfiles | now apply py_format_no_placeholder ].
Qed.

End Written.

(** X17: the [%] operator on a template with an escaped percent sign.
    Where the template holds [%%] before its one [%s] and no other [%], the
    result is the template with the placeholder replaced by the argument
    and the escape by a single sign. *)
Theorem py_format_unescapes_percent (pre mid post v : string) :
  all_chars not_percent pre = true ->
  all_chars not_percent mid = true ->
  all_chars not_percent post = true ->
  py_format (pre +:+ "%%" +:+ mid +:+ "%s" +:+ post) [v]
  = Ret (pre +:+ "%" +:+ mid +:+ v +:+ post).
Proof.
  intros Hpre Hmid Hpost. unfold py_format.
  rewrite format_loop_text, format_loop_escape by exact Hpre.
  rewrite format_loop_text, format_loop_placeholder by exact Hmid.
  rewrite <- (append_nil_r post) at 1.
  rewrite format_loop_text by exact Hpost. cbn [format_loop].
  now rewrite append_nil_l, !append_assoc.
Qed.

(** *** Sample runs *)

Lemma write_supporting_file_touches_five_files_witness :
  let w := sample_world (sample_fs "no placeholder" "state: %s") ∅ [] (jan 3) in
  files (fs (write_supporting_file sample_name w).2) !! generated_schema_file
  = files (fs w) !! generated_schema_file /\
  mysql (write_supporting_file sample_name w).2 = mysql w.
Proof.
  apply (write_supporting_file_touches_five_files sample_name generated_schema_file
           (sample_world (sample_fs "no placeholder" "state: %s") ∅ [] (jan 3))).
  apply not_written. now right.
Defined.

Lemma only_prepare_writes_schema_file_witness :
  let w := sample_world plain_fs two_runs [None; Some "gone away"] (jan 3) in
  files (fs (main ["hook.py"; "setup"] w).2) !! generated_schema_file
  = files (fs w) !! generated_schema_file.
Proof.
  apply (only_prepare_writes_schema_file "hook.py" "setup" []
           (sample_world plain_fs two_runs [None; Some "gone away"] (jan 3))).
  discriminate.
Defined.

(** The sample file system without its catalog template. *)
Lemma missing_template_leaves_empty_copy_witness :
  let w := sample_world
             {| files := delete catalog_source_file (files plain_fs);
                dirs := dirs plain_fs |} ∅ [] (jan 3) in
  (write_supporting_file sample_name w).1 = Raise (FileNotFoundError catalog_source_file) /\
  files (fs (write_supporting_file sample_name w).2) !! catalog_write_file = Some "" /\
  (forall path, path <> catalog_write_file ->
     files (fs (write_supporting_file sample_name w).2) !! path = files (fs w) !! path).
Proof.
  apply (missing_template_leaves_empty_copy sample_name
           (sample_world
              {| files := delete catalog_source_file (files plain_fs);
                 dirs := dirs plain_fs |} ∅ [] (jan 3))).
  - split.
    + right. split; [reflexivity|]. cbn. set_unfold. auto.
    + unfold written_files.
      repeat (apply Forall_cons_2;
              [cbn; set_unfold; intros [[E|E]|E]; vm_compute in E; discriminate E|]).
      apply Forall_nil_2.
  - reflexivity.
  - cbn. set_unfold. intros [[E|E]|E]; vm_compute in E; discriminate E.
Defined.

Lemma template_without_placeholder_is_an_error_witness :
  let w := sample_world (sample_fs "no placeholder" "state: %s %s") ∅ [] (jan 3) in
  (write_supporting_file sample_name w).1
  = Raise (TypeError "not all arguments converted during string formatting") /\
  files (fs (write_supporting_file sample_name w).2) !! catalog_write_file = Some "" /\
  (forall path, path <> catalog_write_file ->
     files (fs (write_supporting_file sample_name w).2) !! path = files (fs w) !! path).
Proof.
  apply (template_without_placeholder_is_an_error sample_name "no placeholder"
           (sample_world (sample_fs "no placeholder" "state: %s %s") ∅ [] (jan 3))).
  - apply sample_temp_dir_ready.
  - reflexivity.
  - reflexivity.
Defined.

Lemma py_format_unescapes_percent_witness :
  py_format ("load " +:+ "%%" +:+ " of " +:+ "%s" +:+ ".") ["20240101_abcd1234"]
  = Ret ("load " +:+ "%" +:+ " of " +:+ "20240101_abcd1234" +:+ ".").
Proof.
  apply (py_format_unescapes_percent "load " " of " "." "20240101_abcd1234"); reflexivity.
Defined.

(** ** The files [write_supporting_file] leaves when it returns *)

Lemma lookup_files_written (copy incremental abnormal config config_cdc path : string)
    (fl : gmap string string) :
  files_written copy incremental abnormal config config_cdc fl !! path
  = if decide (path = secret_active_config_cdc_file) then Some config_cdc
    else if decide (path = secret_active_config_file) then Some config
    else if decide (path = abnormal_state_write_file) then Some abnormal
    else if decide (path = catalog_incremental_write_file) then Some incremental
    else if decide (path = catalog_write_file) then Some copy
    else fl !! path.
Proof.
  unfold files_written. rewrite !lookup_insert.
  repeat case_decide; try reflexivity; congruence.
Qed.

Lemma files_written_other (copy incremental abnormal config config_cdc path : string)
    (fl : gmap string string) :
  path ∉ written_files ->
  files_written copy incremental abnormal config config_cdc fl !! path = fl !! path.
Proof.
  unfold written_files. rewrite !not_elem_of_cons. intros (N1 & N2 & N3 & N4 & N5 & _).
  rewrite lookup_files_written. repeat case_decide; try reflexivity; congruence.
Qed.

Lemma files_written_twice (copy incremental abnormal config config_cdc : string)
    (fl : gmap string string) :
  files_written copy incremental abnormal config config_cdc
    (files_written copy incremental abnormal config config_cdc fl)
  = files_written copy incremental abnormal config config_cdc fl.
Proof.
  apply map_eq. intros path. rewrite !lookup_files_written.
  repeat case_decide; reflexivity.
Qed.

Lemma mkdir_temp_dirs (w : world) :
  dirs (fs (mkdir temp_dir w).2) ∖ {[temp_dir]} = dirs (fs w) ∖ {[temp_dir]}.
Proof.
  destruct w as [[fl ds] sess out now tp dr]. unfold mkdir. cbn [fs files dirs].
  destruct (decide (temp_dir ∈ ds)); [reflexivity|].
  destruct (decide (is_Some (fl !! temp_dir))); [reflexivity|].
  destruct (decide (dirname temp_dir ∈ ds)); [|reflexivity].
  cbn [snd fs dirs set_fs]. apply set_eq. intros path.
  rewrite !elem_of_difference, elem_of_union, elem_of_singleton. tauto.
Qed.

Lemma assoc_get_set_same {A} (k : string) (v : A) (l : list (string * A)) :
  assoc_get k (assoc_set k v l) = Some v.
Proof.
  induction l as [|[k' v'] l IH]; cbn.
  - now rewrite String.eqb_refl.
  - destruct (String.eqb k k') eqn:E; cbn; [now rewrite String.eqb_refl|].
    now rewrite E.
Qed.

Lemma assoc_get_set_other {A} (k k0 : string) (v : A) (l : list (string * A)) :
  k0 <> k -> assoc_get k0 (assoc_set k v l) = assoc_get k0 l.
Proof.
  intros Hne. induction l as [|[k' v'] l IH]; cbn.
  - now rewrite (proj2 (String.eqb_neq k0 k) Hne).
  - destruct (String.eqb k k') eqn:E; cbn.
    + apply String.eqb_eq in E as <-. now rewrite (proj2 (String.eqb_neq k0 k) Hne).
    + now rewrite IH.
Qed.

Lemma not_dir_after (path : string) (ds ds' : gset string) :
  path <> temp_dir -> ds' ∖ {[temp_dir]} = ds ∖ {[temp_dir]} -> path ∉ ds -> path ∉ ds'.
Proof.
  intros Hne E Hnot Hin.
  assert (Hd : path ∈ ds' ∖ {[temp_dir]}).
  { apply elem_of_difference. split; [exact Hin|]. now rewrite elem_of_singleton. }
  rewrite E in Hd. apply elem_of_difference in Hd as [Hd _]. contradiction.
Qed.

Section Written2.
Context `{JsonCodec}.

Lemma write_supporting_file_dirs (name : string) (x : gset string) :
  keeps_inv (fun w => dirs (fs w) ∖ {[temp_dir]} = x) (write_supporting_file name).
Proof.
  unfold write_supporting_file. unfold sys_exit, json_load, json_dump.
  repeat lazymatch goal with
         | |- keeps_inv _ (mkdir _) =>
             apply (keeps_inv_frame (fun w => dirs (fs w) ∖ {[temp_dir]}));
             apply mkdir_temp_dirs
         | |- _ => frame_step (fun w => dirs (fs w) ∖ {[temp_dir]})
         end.
Qed.

(** [write_supporting_file] when what it reads is in place. *)
Lemma write_supporting_file_run (name : string) (w : world)
    (pre post ipre ipost a b c text text' : string) (fields fields' : list (string * json)) :
  temp_dir_ready w ->
  templates_ready w pre post ipre ipost a b c ->
  files (fs w) !! secret_config_file = Some text ->
  json_loads text = Some (JObj fields) ->
  files (fs w) !! secret_config_cdc_file = Some text' ->
  json_loads text' = Some (JObj fields') ->
  exists w',
    write_supporting_file name w = (Ret tt, w') /\
    files (fs w') =
      files_written (pre +:+ name +:+ post) (ipre +:+ name +:+ ipost)
        (a +:+ name +:+ b +:+ name +:+ c)
        (json_dumps (JObj (assoc_set "database" (JStr name) fields)))
        (json_dumps (JObj (assoc_set "database" (JStr name) fields')))
        (files (fs w)) /\
    temp_dir_ready w' /\
    mysql w' = mysql w /\
    stdout w' = (stdout w ++ ["writing schema name to files: " +:+ name])%list /\
    now_la w' = now_la w.
Proof.
  intros Hready Htpl Hf Hl Hf' Hl'.
  pose proof (write_supporting_file_dirs name _ w eq_refl) as Hdirs. cbv beta in Hdirs.
  assert (Hnow : now_la (write_supporting_file name w).2 = now_la w).
  { apply (frame_of_keeps now_la). intros x. unfold write_supporting_file. frame now_la. }
  destruct (write_supporting_file_copies name w pre post ipre ipost a b c Hready Htpl)
    as (w3 & Hrun & Hfiles & Htemp & D4 & D5 & Hmysql & Hout).
  assert (Hconfigs : write_active_configs name w3
            = (Ret tt,
               set_fs (fun f =>
                 {| files := <[secret_active_config_cdc_file :=
                                 json_dumps (JObj (assoc_set "database" (JStr name) fields'))]>
                               (<[secret_active_config_file :=
                                    json_dumps (JObj (assoc_set "database" (JStr name) fields))]>
                                  (files f));
                    dirs := dirs f |}) w3)).
  { unfold write_active_configs.
    erewrite bind_ret.
    2:{ apply config_block_run with (text := text) (fields := fields);
        [ exact D4 | exact Htemp
        | rewrite Hfiles, !lookup_insert_ne by paths_differ; exact Hf | exact Hl ]. }
    erewrite config_block_run with (text := text') (fields := fields');
      [ now destruct w3 as [[] ? ? ? ? ?] | exact D5 | exact Htemp
      | cbn [fs files set_fs];
        rewrite Hfiles, !lookup_insert_ne by paths_differ; exact Hf' | exact Hl' ]. }
  rewrite Hrun, Hconfigs in *. cbn [snd fs files dirs set_fs now_la] in Hdirs, Hnow.
  eexists. split; [reflexivity|].
  cbn [fs files dirs mysql stdout now_la set_fs].
  split; [now rewrite Hfiles|]. split; [|auto].
  split; [left; exact Htemp|].
  destruct (written_files_not_dirs w Hready) as (E1 & E2 & E3 & E4 & E5).
  unfold written_files.
  repeat (apply Forall_cons_2;
          [apply (not_dir_after _ (dirs (fs w))); [paths_differ | exact Hdirs | assumption]|]).
  apply Forall_nil_2.
Qed.


(** X18: the active configs name the schema.  When what it reads is in
    place, [write_supporting_file] leaves in the active config the
    serialization of the object of the secrets file with its [database]
    entry set to the schema name, every other entry - the credentials among
    them - being what the secrets file holds. *)
Theorem active_config_names_the_schema (name : string) (w : world)
    (pre post ipre ipost a b c text text' : string) (fields fields' : list (string * json)) :
  temp_dir_ready w ->
  templates_ready w pre post ipre ipost a b c ->
  files (fs w) !! secret_config_file = Some text ->
  json_loads text = Some (JObj fields) ->
  files (fs w) !! secret_config_cdc_file = Some text' ->
  json_loads text' = Some (JObj fields') ->
  exists active,
    files (fs (write_supporting_file name w).2) !! secret_active_config_file
    = Some (json_dumps active) /\
    getitem active "database" = Ret (JStr name) /\
    (forall key, key <> "database" -> getitem active key = getitem (JObj fields) key).
Proof.
  intros Hready Htpl Hf Hl Hf' Hl'.
  destruct (write_supporting_file_run name w pre post ipre ipost a b c text text'
              fields fields' Hready Htpl Hf Hl Hf' Hl')
    as (w' & -> & Hfiles & _).
  exists (JObj (assoc_set "database" (JStr name) fields)). split; [|split].
  - cbn [snd]. rewrite Hfiles, lookup_files_written.
    rewrite decide_False by paths_differ. now rewrite decide_True.
  - cbn [getitem]. now rewrite assoc_get_set_same.
  - intros key Hkey. cbn [getitem]. now rewrite assoc_get_set_other.
Qed.

Lemma connect_to_db_refused (w : world) (msg : string) (rest : list (option string)) :
  has_credentials w ->
  faults (mysql w) = Some msg :: rest ->
  exists w',
    connect_to_db w = (Raise (SystemExit 1), w') /\
    stdout w' = (stdout w ++ ["Error connecting to the database: " +:+ msg])%list /\
    fs w' = fs w /\
    live (mysql w') = live (mysql w) /\
    committed (mysql w') = committed (mysql w) /\
    connections (mysql w') = connections (mysql w).
Proof.
  intros Hcred Hfault.
  destruct (credentials_items w Hcred)
    as (text & secret & user & password & host & port & Hf & Hl & Hu & Hp & Hh & Ho).
  unfold connect_to_db, open_r, json_load.
  unfold mbind at 1, M_bind at 1. rewrite Hf.
  unfold mbind at 1, M_bind at 1. rewrite Hl.
  run. rewrite Hu, Hp, Hh, Ho, Hfault. cbn.
  eexists. split; [reflexivity|]. cbn. auto 10.
Qed.

(** X19: [setup] writes its files before it tries the server.  With what
    it reads in place and the connection refused, [setup] leaves through
    [exit(1)] with the five files written, the catalog untouched, no
    connection open, and two lines printed: the files being written, the
    connection error. *)
Theorem setup_writes_files_before_connecting (w : world) (name msg : string)
    (rest : list (option string)) :
  setup_files_ready w name ->
  faults (mysql w) = Some msg :: rest ->
  (setup w).1 = Raise (SystemExit 1) /\
  Forall (fun path => is_Some (files (fs (setup w).2) !! path)) written_files /\
  live (mysql (setup w).2) = live (mysql w) /\
  committed (mysql (setup w).2) = committed (mysql w) /\
  connections (mysql (setup w).2) = connections (mysql w) /\
  stdout (setup w).2
  = (stdout w ++ ["writing schema name to files: " +:+ name;
                  "Error connecting to the database: " +:+ msg])%list.
Proof.
  intros (Hname & Hready & (pre & post & ipre & ipost & a & b & c & Htpl) & Hconfigs & Hcred)
    Hfault.
  destruct (configs_ready_items w Hconfigs)
    as (text & fields & text' & fields' & Hf & Hl & Hf' & Hl').
  destruct (write_supporting_file_run name w pre post ipre ipost a b c text text'
              fields fields' Hready Htpl Hf Hl Hf' Hl')
    as (wf & Hwrite & Hfiles & _ & Hmysql & Hout & _).
  assert (Hcred_f : has_credentials wf).
  { apply (has_credentials_same_file w); [|exact Hcred].
    rewrite Hfiles. apply files_written_other, not_written. now left. }
  assert (Hfault_f : faults (mysql wf) = Some msg :: rest) by now rewrite Hmysql.
  destruct (connect_to_db_refused wf msg rest Hcred_f Hfault_f)
    as (wc & Hconnect & Hout_c & Hfs_c & Hlive_c & Hcom_c & Hcn_c).
  assert (Hload : load_schema_name_from_catalog w = (Ret name, w)).
  { unfold load_schema_name_from_catalog, open_r. now rewrite Hname. }
  unfold setup. rewrite (bind_ret _ _ _ _ _ Hload), (bind_ret _ _ _ _ _ Hwrite),
    (bind_raise _ _ _ _ _ Hconnect).
  cbn [fst snd]. rewrite Hfs_c, Hfiles, Hlive_c, Hcom_c, Hcn_c, Hout_c, Hout, Hmysql.
  split; [reflexivity|]. split; [|now rewrite <- app_assoc].
  unfold written_files.
  repeat (apply Forall_cons_2;
          [rewrite lookup_files_written; repeat case_decide; eauto; congruence|]).
  apply Forall_nil_2.
Qed.

End Written2.

(** ** The underscore of the identifier *)

Lemma starts_with_app (p t : string) : starts_with p (p +:+ t) = true.
Proof.
  induction p as [|c p IH]; [reflexivity|].
  rewrite append_cons. cbn [starts_with]. now rewrite Ascii.eqb_refl.
Qed.

Lemma like_same_prefix (stamp p s : string) :
  like p s = true -> like (stamp +:+ p) (stamp +:+ s) = true.
Proof.
  intros Hl. induction stamp as [|d stamp IH]; [exact Hl|].
  rewrite !(append_cons d stamp). destruct (Ascii.eqb d "%") eqn:Hd.
  - apply Ascii.eqb_eq in Hd as ->.
    rewrite like_percent_cons, (like_percent_skip _ _ IH). apply orb_true_r.
  - cbn [like]. rewrite Hd, Ascii.eqb_refl, orb_true_r. exact IH.
Qed.

(** The separator of a generated name is a wildcard of [LIKE]: any one
    character can stand in its place. *)
Lemma like_underscore (stamp suffix tail : string) (c : ascii) :
  like ((stamp +:+ "_" +:+ suffix) +:+ "%") (stamp +:+ String c (suffix +:+ tail)) = true.
Proof.
  replace ((stamp +:+ "_" +:+ suffix) +:+ "%")
    with (stamp +:+ String "_" (suffix +:+ "%")).
  - apply like_same_prefix. cbn [like].
    change (Ascii.eqb "_" "%") with false. cbv iota.
    change (Ascii.eqb "_" "_") with true. cbn [orb andb].
    apply like_starts_with, starts_with_app.
  - change (String "_" (suffix +:+ "%")) with (("_" +:+ suffix) +:+ "%").
    induction stamp as [|d stamp IH]; [reflexivity|].
    rewrite !(append_cons d). now rewrite IH.
Qed.

Section Underscore.
Context `{JsonCodec}.

Lemma final_teardown_run (w : world) (schema_name : string) :
  has_credentials w ->
  faults (mysql w) = [] ->
  files (fs w) !! generated_schema_file = Some schema_name ->
  exists w',
    final_teardown w = (Ret tt, w') /\
    (forall name,
       live (mysql w') !! name =
         if like (schema_name +:+ "%") name then None else live (mysql w) !! name) /\
    committed (mysql w') = live (mysql w').
Proof.
  intros Hcred Hfaults Hfile.
  pose (w1 := set_stdout (fun out => (out ++ ["delete database " +:+ schema_name])%list)
                (after_connect w)).
  destruct (delete_schemas_ok Connection schema_name w1)
    as (w' & Hrun & Hlive & Hcommitted & _).
  { destruct w as [? [] ? ? ? ?]; cbn in *. now subst. }
  exists w'. split; [|split]; auto.
  unfold final_teardown.
  rewrite (bind_ret _ _ _ _ _ (connect_to_db_ok w Hcred (no_faults_next_call w Hfaults))).
  unfold load_schema_name_from_catalog, open_r, print, mbind, M_bind.
  cbn [fs after_connect set_stdout set_mysql]. rewrite Hfile. exact Hrun.
Qed.

(** X20: [final_teardown] reads the underscore of the persisted identifier
    as a wildcard.  With the server answering every call, a schema whose
    name has any one character where the identifier has its [_], and goes
    on as the identifier does - with or without more after it - is dropped
    as well. *)
Theorem final_teardown_underscore_is_wildcard (w : world) (stamp suffix tail : string)
    (c : ascii) :
  has_credentials w ->
  faults (mysql w) = [] ->
  files (fs w) !! generated_schema_file = Some (stamp +:+ "_" +:+ suffix) ->
  exists w',
    final_teardown w = (Ret tt, w') /\
    live (mysql w') !! (stamp +:+ String c (suffix +:+ tail)) = None /\
    committed (mysql w') = live (mysql w').
Proof.
  intros Hcred Hfaults Hfile.
  destruct (final_teardown_run w _ Hcred Hfaults Hfile) as (w' & Hrun & Hlive & Hcom).
  exists w'. split; [exact Hrun|]. split; [|exact Hcom].
  now rewrite Hlive, like_underscore.
Qed.

End Underscore.

(** ** Seeding again *)

Lemma temp_dir_ready_same_fs (w w' : world) :
  fs w' = fs w -> temp_dir_ready w -> temp_dir_ready w'.
Proof. unfold temp_dir_ready. now intros ->. Qed.

Ltac unwritten :=
  unfold written_files; rewrite !not_elem_of_cons;
  repeat split; try paths_differ; apply not_elem_of_nil.

(** The server part of [setup], whatever the catalog holds. *)
Lemma seed_database_run (conn : connection) (name : string) (records : list row) (w : world) :
  faults (mysql w) = [] ->
  exists w' tables rows,
    (create_schema conn name ;;
     create_table conn name "id_and_name_cat" ;;
     insert_records conn name "id_and_name_cat" records ;;
     conn_close conn) w = (Ret tt, w') /\
    live (mysql w') !! name = Some tables /\
    tables !! "id_and_name_cat" = Some rows /\
    Forall (fun r => has_key (fst r) rows = true) records /\
    committed (mysql w') = live (mysql w') /\
    faults (mysql w') = [] /\
    fs w' = fs w.
Proof.
  intros Hfaults.
  destruct (create_schema_ok conn name w Hfaults)
    as (w1 & Hrun1 & Hlive1 & Hcom1 & Hfaults1 & Hcn1 & Hfs1).
  assert (Hschema : exists tables0, live (mysql w1) !! name = Some tables0).
  { rewrite Hlive1. destruct (live (mysql w) !! name) as [tables0|] eqn:Hs.
    - eauto.
    - exists ∅. apply lookup_insert_eq. }
  destruct Hschema as (tables0 & Hs1).
  destruct (create_table_ok conn name "id_and_name_cat" w1 tables0 Hfaults1 Hs1)
    as (w2 & Hrun2 & Hlive2 & Hcom2 & Hfaults2 & Hcn2 & Hfs2).
  assert (Htables : exists tables2 rows2,
            live (mysql w2) !! name = Some tables2 /\
            tables2 !! "id_and_name_cat" = Some rows2).
  { rewrite Hlive2. destruct (tables0 !! "id_and_name_cat") as [rows0|] eqn:Ht.
    - exists tables0, rows0. auto.
    - exists (<[ "id_and_name_cat" := [] ]> tables0), []. split; apply lookup_insert_eq. }
  destruct Htables as (tables2 & rows2 & Hs2 & Ht2).
  destruct (insert_records_ok conn name "id_and_name_cat" records w2 tables2 rows2
              Hfaults2 Hs2 Ht2)
    as (w3 & Hrun3 & Hlive3 & Hcom3 & Hfaults3 & Hcu3 & Hcn3 & Hout3 & Hfs3).
  eexists. exists (<[ "id_and_name_cat" := upsert_all records rows2 ]> tables2).
  exists (upsert_all records rows2). split.
  - rewrite (bind_ret _ _ _ _ _ Hrun1), (bind_ret _ _ _ _ _ Hrun2),
      (bind_ret _ _ _ _ _ Hrun3).
    reflexivity.
  - cbn [mysql set_mysql committed live faults connections fs].
    rewrite Hcom3, Hlive3, lookup_insert_eq.
    split; [reflexivity|]. split; [apply lookup_insert_eq|].
    split; [apply upsert_all_keys|]. repeat split; congruence.
Qed.

(** The same, on a fixture table that holds the ids of the records. *)
Lemma seed_database_again (conn : connection) (name : string) (records : list row)
    (w : world) (tables : gmap string table) (rows : table) :
  faults (mysql w) = [] ->
  live (mysql w) !! name = Some tables ->
  tables !! "id_and_name_cat" = Some rows ->
  Forall (fun r => has_key (fst r) rows = true) records ->
  exists w',
    (create_schema conn name ;;
     create_table conn name "id_and_name_cat" ;;
     insert_records conn name "id_and_name_cat" records ;;
     conn_close conn) w = (Ret tt, w') /\
    live (mysql w') = live (mysql w) /\
    committed (mysql w') = live (mysql w) /\
    fs w' = fs w.
Proof.
  intros Hfaults Hs Ht Hkeys.
  destruct (create_schema_ok conn name w Hfaults)
    as (w1 & Hrun1 & Hlive1 & Hcom1 & Hfaults1 & Hcn1 & Hfs1).
  rewrite Hs in Hlive1.
  assert (Hs1 : live (mysql w1) !! name = Some tables) by now rewrite Hlive1.
  destruct (create_table_ok conn name "id_and_name_cat" w1 tables Hfaults1 Hs1)
    as (w2 & Hrun2 & Hlive2 & Hcom2 & Hfaults2 & Hcn2 & Hfs2).
  unfold table, row in *. rewrite Ht in Hlive2.
  assert (Hs2 : live (mysql w2) !! name = Some tables) by now rewrite Hlive2.
  destruct (insert_records_ok conn name "id_and_name_cat" records w2 tables rows
              Hfaults2 Hs2 Ht)
    as (w3 & Hrun3 & Hlive3 & Hcom3 & Hfaults3 & Hcu3 & Hcn3 & Hout3 & Hfs3).
  rewrite (upsert_all_present records rows Hkeys) in Hlive3.
  rewrite (insert_id tables _ rows Ht), (insert_id _ name tables Hs2) in Hlive3.
  eexists. split.
  - rewrite (bind_ret _ _ _ _ _ Hrun1), (bind_ret _ _ _ _ _ Hrun2),
      (bind_ret _ _ _ _ _ Hrun3).
    reflexivity.
  - cbn [mysql set_mysql committed live fs]. repeat split; congruence.
Qed.

Section Again.
Context `{JsonCodec}.

(** [setup] up to the connection, when what it reads is in place. *)
Lemma setup_connects (w : world) (name : string)
    (pre post ipre ipost a b c text text' : string) (fields fields' : list (string * json))
    (body : string -> connection -> M unit) :
  files (fs w) !! generated_schema_file = Some name ->
  temp_dir_ready w ->
  templates_ready w pre post ipre ipost a b c ->
  files (fs w) !! secret_config_file = Some text ->
  json_loads text = Some (JObj fields) ->
  files (fs w) !! secret_config_cdc_file = Some text' ->
  json_loads text' = Some (JObj fields') ->
  has_credentials w ->
  next_call_succeeds w ->
  exists wc,
    (schema_name ← load_schema_name_from_catalog;
     write_supporting_file schema_name ;;
     connection ← connect_to_db;
     body schema_name connection) w = body name Connection wc /\
    files (fs wc) =
      files_written (pre +:+ name +:+ post) (ipre +:+ name +:+ ipost)
        (a +:+ name +:+ b +:+ name +:+ c)
        (json_dumps (JObj (assoc_set "database" (JStr name) fields)))
        (json_dumps (JObj (assoc_set "database" (JStr name) fields')))
        (files (fs w)) /\
    temp_dir_ready wc /\
    live (mysql wc) = live (mysql w) /\
    committed (mysql wc) = committed (mysql w) /\
    faults (mysql wc) = tail (faults (mysql w)).
Proof.
  intros Hname Hready Htpl Hf Hl Hf' Hl' Hcred Hnext.
  destruct (write_supporting_file_run name w pre post ipre ipost a b c text text'
              fields fields' Hready Htpl Hf Hl Hf' Hl')
    as (wf & Hwrite & Hfiles & Hready_f & Hmysql & _).
  assert (Hcred_f : has_credentials wf).
  { apply (has_credentials_same_file w); [|exact Hcred].
    rewrite Hfiles. apply files_written_other, not_written. now left. }
  assert (Hnext_f : next_call_succeeds wf).
  { unfold next_call_succeeds. now rewrite Hmysql. }
  assert (Hload : load_schema_name_from_catalog w = (Ret name, w)).
  { unfold load_schema_name_from_catalog, open_r. now rewrite Hname. }
  exists (after_connect wf). split; [|split; [|split; [|split; [|split]]]].
  - rewrite (bind_ret _ _ _ _ _ Hload), (bind_ret _ _ _ _ _ Hwrite).
    now rewrite (bind_ret _ _ _ _ _ (connect_to_db_ok wf Hcred_f Hnext_f)).
  - exact Hfiles.
  - now apply (temp_dir_ready_same_fs wf).
  - change (live (mysql (after_connect wf))) with (live (mysql wf)). now rewrite Hmysql.
  - change (committed (mysql (after_connect wf))) with (committed (mysql wf)).
    now rewrite Hmysql.
  - change (faults (mysql (after_connect wf))) with (tail (faults (mysql wf))).
    now rewrite Hmysql.
Qed.

(** X21: [setup] is idempotent.  With what it reads in place and the
    server answering every call, [setup] returns whatever the catalog
    holds, and a second [setup] after it - the command [setup_cdc] of a
    run is one - returns and leaves the catalog, seen and committed, and
    every file as the first left them: nothing is created or inserted
    twice. *)
Theorem setup_is_idempotent (w : world) (name : string) :
  setup_files_ready w name ->
  faults (mysql w) = [] ->
  exists w1 w2,
    setup w = (Ret tt, w1) /\
    setup w1 = (Ret tt, w2) /\
    live (mysql w2) = live (mysql w1) /\
    committed (mysql w2) = committed (mysql w1) /\
    files (fs w2) = files (fs w1).
Proof.
  intros (Hname & Hready & (pre & post & ipre & ipost & a & b & c & Htpl) & Hconfigs & Hcred)
    Hfaults.
  destruct (configs_ready_items w Hconfigs)
    as (text & fields & text' & fields' & Hf & Hl & Hf' & Hl').
  (* the first run *)
  destruct (setup_connects w name pre post ipre ipost a b c text text' fields fields'
              (fun schema_name connection =>
                 create_schema connection schema_name ;;
                 create_table connection schema_name "id_and_name_cat" ;;
                 insert_records connection schema_name "id_and_name_cat" seed_records ;;
                 conn_close connection)
              Hname Hready Htpl Hf Hl Hf' Hl' Hcred (no_faults_next_call w Hfaults))
    as (wc & Hrun & Hfiles & Hready_c & _ & _ & Hfaults_c).
  rewrite Hfaults in Hfaults_c. cbn [tail] in Hfaults_c.
  destruct (seed_database_run Connection name seed_records wc Hfaults_c)
    as (w1 & tables & rows & Hseed & Hs & Ht & Hkeys & Hcom1 & Hfaults1 & Hfs1).
  assert (Hfiles1 : forall path, path ∉ written_files ->
                      files (fs w1) !! path = files (fs w) !! path).
  { intros path Hpath. rewrite Hfs1, Hfiles. now apply files_written_other. }
  (* the second *)
  destruct Htpl as [Hcat Hp1 Hinc Hp2 Habn Hp3].
  destruct (setup_connects w1 name pre post ipre ipost a b c text text' fields fields'
              (fun schema_name connection =>
                 create_schema connection schema_name ;;
                 create_table connection schema_name "id_and_name_cat" ;;
                 insert_records connection schema_name "id_and_name_cat" seed_records ;;
                 conn_close connection))
    as (wc2 & Hrun2 & Hfiles2 & _ & Hlive_c2 & Hcom_c2 & Hfaults_c2);
    try (rewrite Hfiles1 by unwritten; assumption); try assumption.
  { now apply (temp_dir_ready_same_fs wc). }
  { split; try assumption; rewrite Hfiles1 by unwritten; assumption. }
  { apply (has_credentials_same_file w); [|exact Hcred]. apply Hfiles1. unwritten. }
  { now apply no_faults_next_call. }
  rewrite Hfaults1 in Hfaults_c2. cbn [tail] in Hfaults_c2.
  destruct (seed_database_again Connection name seed_records wc2 tables rows)
    as (w2 & Hseed2 & Hlive2 & Hcom2 & Hfs2); try assumption.
  { now rewrite Hlive_c2. }
  exists w1, w2. split; [|split; [|split; [|split]]].
  - exact (eq_trans Hrun Hseed).
  - exact (eq_trans Hrun2 Hseed2).
  - now rewrite Hlive2, Hlive_c2.
  - now rewrite Hcom2, Hlive_c2, Hcom1.
  - rewrite Hfs2, Hfiles2, Hfs1, Hfiles. apply files_written_twice.
Qed.

End Again.

(** *** Sample runs *)

Lemma active_config_names_the_schema_witness :
  exists active,
    files (fs (write_supporting_file sample_name
                 (sample_world plain_fs ∅ [] (jan 3))).2) !! secret_active_config_file
    = Some (json_dumps active) /\
    getitem active "database" = Ret (JStr sample_name) /\
    (forall key, key <> "database" -> getitem active key = getitem sample_secret key).
Proof.
  eapply (active_config_names_the_schema sample_name (sample_world plain_fs ∅ [] (jan 3))
            "catalog: " "" "incremental: " "" "state: " " " ""
            sample_secret_text sample_secret_cdc_text).
  - apply sample_temp_dir_ready.
  - apply plain_templates_ready.
  - reflexivity.
  - reflexivity.
  - reflexivity.
  - reflexivity.
Defined.

Lemma setup_writes_files_before_connecting_witness :
  let w := sample_world plain_fs two_runs [Some "refused"] (jan 3) in
  (setup w).1 = Raise (SystemExit 1) /\
  Forall (fun path => is_Some (files (fs (setup w).2) !! path)) written_files /\
  live (mysql (setup w).2) = live (mysql w) /\
  committed (mysql (setup w).2) = committed (mysql w) /\
  connections (mysql (setup w).2) = connections (mysql w) /\
  stdout (setup w).2
  = (stdout w ++ ["writing schema name to files: " +:+ sample_name;
                  "Error connecting to the database: " +:+ "refused"])%list.
Proof.
  apply (setup_writes_files_before_connecting
           (sample_world plain_fs two_runs [Some "refused"] (jan 3)) sample_name "refused" []).
  - apply sample_setup_files_ready.
  - reflexivity.
Defined.

(** The run [20240101_abcd1234] takes the schema [20240101xabcd1234] with
    it. *)
Lemma final_teardown_underscore_is_wildcard_witness :
  exists w',
    final_teardown
      (sample_world plain_fs {[ "20240101xabcd1234" := fixture_table ]} [] (jan 3))
    = (Ret tt, w') /\
    live (mysql w') !! ("20240101" +:+ String "x" ("abcd1234" +:+ "")) = None /\
    committed (mysql w') = live (mysql w').
Proof.
  apply (final_teardown_underscore_is_wildcard
           (sample_world plain_fs {[ "20240101xabcd1234" := fixture_table ]} [] (jan 3))
           "20240101" "abcd1234" "" "x").
  - apply sample_has_credentials.
  - reflexivity.
  - reflexivity.
Defined.

Lemma setup_is_idempotent_witness :
  exists w1 w2,
    setup (sample_world plain_fs two_runs [] (jan 3)) = (Ret tt, w1) /\
    setup w1 = (Ret tt, w2) /\
    live (mysql w2) = live (mysql w1) /\
    committed (mysql w2) = committed (mysql w1) /\
    files (fs w2) = files (fs w1).
Proof.
  apply (setup_is_idempotent (sample_world plain_fs two_runs [] (jan 3)) sample_name).
  - apply sample_setup_files_ready.
  - reflexivity.
Defined.

Lemma seeding_closes_its_connection_witness :
  let w := sample_world plain_fs two_runs [Some "refused"] (jan 3) in
  connections (mysql (setup w).2) = connections (mysql w).
Proof.
  apply (proj1 (seeding_closes_its_connection
                  (sample_world plain_fs two_runs [Some "refused"] (jan 3)))).
  right. exists 1. vm_compute. reflexivity.
Defined.

Lemma server_commands_write_no_file_witness :
  let w := sample_world plain_fs three_days [None; None; None; Some "gone away"] (jan 3) in
  fs (main ["hook.py"; "teardown"] w).2 = fs w.
Proof.
  apply (server_commands_write_no_file "hook.py" "teardown" []
           (sample_world plain_fs three_days [None; None; None; Some "gone away"] (jan 3))).
  cbn. auto.
Defined.

(** ** From one day to the next *)

Lemma generate_run (w : world) :
  exists suffix,
    generate_schema_date_with_suffix w
    = (Ret (strftime_Ymd (now_la w) +:+ "_" +:+ suffix),
       {| fs := fs w; mysql := mysql w; stdout := stdout w;
          now_la := now_la w; tape := tape w; drawn := 8 + drawn w |}).
Proof.
  destruct (random_choices_run (ascii_lowercase +:+ digits) 8 w) as (suffix & Hrun).
  exists suffix. unfold generate_schema_date_with_suffix, datetime_now.
  unfold mbind, M_bind at 1. unfold mbind, M_bind at 1. now rewrite Hrun.
Qed.

Section NextDay.
Context `{JsonCodec}.

Lemma teardown_run (w : world) (yesterday : date) :
  has_credentials w ->
  faults (mysql w) = [] ->
  minus_one_day (now_la w) = Ret yesterday ->
  exists w',
    teardown w = (Ret tt, w') /\
    (forall name,
       live (mysql w') !! name =
         if starts_with (strftime_Ymd yesterday) name then None
         else live (mysql w) !! name) /\
    committed (mysql w') = live (mysql w').
Proof.
  intros Hcred Hfaults Hminus.
  destruct (delete_schemas_ok Connection (strftime_Ymd yesterday) (after_connect w))
    as (w' & Hrun & Hlive & Hcommitted & _); [now apply after_connect_faults|].
  exists w'. split; [|split].
  - unfold teardown.
    rewrite (bind_ret _ _ _ _ _ (connect_to_db_ok w Hcred (no_faults_next_call w Hfaults))).
    unfold datetime_now, lift, mbind, M_bind. cbn [now_la after_connect set_stdout set_mysql].
    rewrite Hminus. exact Hrun.
  - intros name. rewrite Hlive, like_stamp. reflexivity.
  - exact Hcommitted.
Qed.

(** X22: the schema of a run is removed by the [teardown] of the next day.
    Whatever name the generator makes on a day, a [teardown] that runs on
    the day after and finds the server answering drops the schema of that
    name. *)
Theorem next_day_teardown_drops_the_run (w0 w0' w : world) (name : string) :
  generate_schema_date_with_suffix w0 = (Ret name, w0') ->
  minus_one_day (now_la w) = Ret (now_la w0) ->
  has_credentials w ->
  faults (mysql w) = [] ->
  exists w',
    teardown w = (Ret tt, w') /\
    live (mysql w') !! name = None /\
    committed (mysql w') = live (mysql w').
Proof.
  intros Hgen Hminus Hcred Hfaults.
  destruct (generate_run w0) as (suffix & Hgen').
  assert (Hname : name = strftime_Ymd (now_la w0) +:+ "_" +:+ suffix)
    by (rewrite Hgen' in Hgen; congruence).
  destruct (teardown_run w (now_la w0) Hcred Hfaults Hminus) as (w' & Hrun' & Hlive & Hcom).
  exists w'. split; [exact Hrun'|]. split; [|exact Hcom].
  now rewrite Hlive, Hname, starts_with_app.
Qed.

(** ** A teardown that fails halfway *)

(** X23: [delete_schemas_with_prefix] is not atomic.  When the enumeration
    answers two schemas or more and the second [DROP] fails, the function
    leaves through [exit(1)] with the first schema gone for good - a
    [DROP DATABASE] commits - and every other schema still there. *)
Theorem teardown_is_not_atomic (conn : connection) (prefix first second msg : string)
    (others : list string) (schedule : list (option string)) (w : world) :
  enumerated prefix (live (mysql w)) = first :: second :: others ->
  refused_after 3 msg schedule w ->
  let rw := delete_schemas_with_prefix conn prefix w in
  rw.1 = Raise (SystemExit 1) /\
  live (mysql rw.2) = delete first (live (mysql w)) /\
  committed (mysql rw.2) = delete first (live (mysql w)) /\
  stdout rw.2 = (stdout w ++ ["Database " +:+ first +:+ " has been dropped.";
                              "An error occurred: " +:+ msg])%list.
Proof.
  destruct w as [fsys [lv cm fl cn cu fe] out now tp dr].
  unfold refused_after, enumerated. cbn [mysql live faults stdout run_stmt replicate app].
  intros Hsel ->.
  unfold delete_schemas_with_prefix. run. rewrite Hsel. cbn [for_each]. run.
  repeat split. now rewrite <- app_assoc.
Qed.

(** ** Before [prepare] *)

(** X24: what the commands do when the schema file is not there.  [setup]
    and [cdc_insert] read it first: they stop with [FileNotFoundError]
    before a file is written or the server called.  [final_teardown]
    connects first: it stops with the same error once the connection is
    made, which it leaves open. *)
Theorem commands_before_prepare (w : world) :
  files (fs w) !! generated_schema_file = None ->
  generated_schema_file ∉ dirs (fs w) ->
  setup w = (Raise (FileNotFoundError generated_schema_file), w) /\
  cdc_insert w = (Raise (FileNotFoundError generated_schema_file), w) /\
  (has_credentials w -> next_call_succeeds w ->
   final_teardown w = (Raise (FileNotFoundError generated_schema_file), after_connect w)).
Proof.
  intros Hnone Hnd.
  assert (Hload : forall w', fs w' = fs w ->
            load_schema_name_from_catalog w'
            = (Raise (FileNotFoundError generated_schema_file), w')).
  { intros w' Hfs. unfold load_schema_name_from_catalog, open_r. rewrite Hfs, Hnone.
    now rewrite decide_False. }
  split; [|split].
  - unfold setup. now rewrite (bind_raise _ _ _ _ _ (Hload w eq_refl)).
  - unfold cdc_insert. now rewrite (bind_raise _ _ _ _ _ (Hload w eq_refl)).
  - intros Hcred Hnext. unfold final_teardown.
    rewrite (bind_ret _ _ _ _ _ (connect_to_db_ok w Hcred Hnext)).
    now rewrite (bind_raise _ _ _ _ _ (Hload (after_connect w) eq_refl)).
Qed.

(** ** A setup that creates nothing *)

(** X25: [setup] reports success when it created nothing.  With what it
    reads in place and the connection made, when the server refuses the
    [CREATE DATABASE], the [CREATE TABLE] and the first [INSERT] and answers
    the rollback after each, [setup] returns normally - the process ends
    with status 0 - and the catalog, seen and committed, is the committed
    one it found. *)
Theorem setup_succeeds_with_nothing_created (w : world) (name m1 m2 m3 : string)
    (rest : list (option string)) :
  setup_files_ready w name ->
  faults (mysql w)
  = ([None; None; Some m1; None; None; Some m2; None; None; Some m3; None] ++ rest)%list ->
  (setup w).1 = Ret tt /\
  exit_status (setup w).1 = 0 /\
  live (mysql (setup w).2) = committed (mysql w) /\
  committed (mysql (setup w).2) = committed (mysql w).
Proof.
  intros (Hname & Hready & (pre & post & ipre & ipost & a & b & c & Htpl) & Hconfigs & Hcred)
    Hfaults.
  destruct (configs_ready_items w Hconfigs)
    as (text & fields & text' & fields' & Hf & Hl & Hf' & Hl').
  destruct (setup_connects w name pre post ipre ipost a b c text text' fields fields'
              (fun schema_name connection =>
                 create_schema connection schema_name ;;
                 create_table connection schema_name "id_and_name_cat" ;;
                 insert_records connection schema_name "id_and_name_cat" seed_records ;;
                 conn_close connection)
              Hname Hready Htpl Hf Hl Hf' Hl' Hcred)
    as (wc & Hrun & _ & _ & _ & Hcom_c & Hfaults_c).
  { intros msg rest' E. rewrite Hfaults in E. discriminate E. }
  change (setup w) with
    ((schema_name ← load_schema_name_from_catalog;
      write_supporting_file schema_name ;;
      connection ← connect_to_db;
      create_schema connection schema_name ;;
      create_table connection schema_name "id_and_name_cat" ;;
      insert_records connection schema_name "id_and_name_cat" seed_records ;;
      conn_close connection) w).
  rewrite Hrun, <- Hcom_c. rewrite Hfaults in Hfaults_c. clear Hrun Hcom_c.
  destruct wc as [fsys [lv cm fl cn cu fe] out now tp dr].
  cbn [mysql faults tail app] in Hfaults_c. subst fl.
  unfold create_schema, create_table, insert_records, seed_records. cbn [for_each].
  run. auto.
Qed.

End NextDay.

(** ** A cursor that is not obtained *)

Section Unbound.
Context `{JsonCodec}.

(** X26: when [conn.cursor()] fails, the [finally] block finds [cursor]
    unbound.  In the deletion the handler has logged the error and called
    [sys.exit(1)], and the [UnboundLocalError] of the [finally] block takes
    the place of the exit: the process ends with a traceback and status 1,
    the catalog as it was.  In the schema creation the error is logged as
    a failed creation and the same [UnboundLocalError] ends the command,
    nothing being committed. *)
Theorem refused_cursor_is_unbound (conn : connection) (prefix name msg : string)
    (rest : list (option string)) (w : world) :
  faults (mysql w) = Some msg :: rest ->
  let rd := delete_schemas_with_prefix conn prefix w in
  let rc := create_schema conn name w in
  (rd.1 = Raise (UnboundLocalError "cursor") /\
   exit_status rd.1 = 1 /\
   stdout rd.2 = (stdout w ++ ["An error occurred: " +:+ connection_not_available])%list /\
   live (mysql rd.2) = live (mysql w) /\
   committed (mysql rd.2) = committed (mysql w) /\
   cursors (mysql rd.2) = cursors (mysql w)) /\
  (rc.1 = Raise (UnboundLocalError "cursor") /\
   stdout rc.2
   = (stdout w ++ ["Error creating database: " +:+ connection_not_available])%list /\
   committed (mysql rc.2) = committed (mysql w) /\
   cursors (mysql rc.2) = cursors (mysql w)).
Proof.
  destruct w as [fsys [lv cm fl cn cu fe] out now tp dr].
  cbn [mysql faults stdout live committed cursors]. intros ->.
  unfold delete_schemas_with_prefix, create_schema. run.
  split; [repeat split|].
  destruct rest as [|[msg'|] rest]; cbn; repeat split.
Qed.

End Unbound.

(** *** Sample runs *)

(** A name made on the second of January, a teardown on the third. *)
Lemma next_day_teardown_drops_the_run_witness :
  exists name w0',
    generate_schema_date_with_suffix (sample_world plain_fs ∅ [] (jan 2)) = (Ret name, w0') /\
    exists w',
      teardown (sample_world plain_fs three_days [] (jan 3)) = (Ret tt, w') /\
      live (mysql w') !! name = None /\
      committed (mysql w') = live (mysql w').
Proof.
  destruct (generate_run (sample_world plain_fs ∅ [] (jan 2))) as (suffix & Hgen).
  eexists. eexists. split; [exact Hgen|].
  apply (next_day_teardown_drops_the_run
           (sample_world plain_fs ∅ [] (jan 2)) _
           (sample_world plain_fs three_days [] (jan 3)) _ Hgen).
  - reflexivity.
  - apply sample_has_credentials.
  - reflexivity.
Defined.

Lemma commands_before_prepare_witness :
  let w := sample_world
             {| files := delete generated_schema_file (files plain_fs);
                dirs := dirs plain_fs |} ∅ [] (jan 3) in
  setup w = (Raise (FileNotFoundError generated_schema_file), w) /\
  cdc_insert w = (Raise (FileNotFoundError generated_schema_file), w) /\
  (has_credentials w -> next_call_succeeds w ->
   final_teardown w = (Raise (FileNotFoundError generated_schema_file), after_connect w)).
Proof.
  apply (commands_before_prepare
           (sample_world
              {| files := delete generated_schema_file (files plain_fs);
                 dirs := dirs plain_fs |} ∅ [] (jan 3))).
  - reflexivity.
  - cbn. set_unfold. intros [[E|E]|E]; vm_compute in E; discriminate E.
Defined.

(** The connection is made and every statement after it is refused. *)
Lemma setup_succeeds_with_nothing_created_witness :
  let w := sample_world plain_fs two_runs
             [None; None; Some "denied"; None; None; Some "denied"; None;
              None; Some "denied"; None] (jan 3) in
  (setup w).1 = Ret tt /\
  exit_status (setup w).1 = 0 /\
  live (mysql (setup w).2) = committed (mysql w) /\
  committed (mysql (setup w).2) = committed (mysql w).
Proof.
  apply (setup_succeeds_with_nothing_created
           (sample_world plain_fs two_runs
              [None; None; Some "denied"; None; None; Some "denied"; None;
               None; Some "denied"; None] (jan 3))
           sample_name "denied" "denied" "denied" []).
  - apply sample_setup_files_ready.
  - reflexivity.
Defined.

(** The enumeration answers the three runs and the second [DROP] fails. *)
Lemma teardown_is_not_atomic_witness :
  let w := sample_world plain_fs three_days [None; None; None; Some "gone away"] (jan 3) in
  let rw := delete_schemas_with_prefix Connection "2024010" w in
  rw.1 = Raise (SystemExit 1) /\
  live (mysql rw.2) = delete "20240103_cccccccc" (live (mysql w)) /\
  committed (mysql rw.2) = delete "20240103_cccccccc" (live (mysql w)) /\
  stdout rw.2 = (stdout w ++ ["Database " +:+ "20240103_cccccccc" +:+ " has been dropped.";
                              "An error occurred: " +:+ "gone away"])%list.
Proof.
  apply (teardown_is_not_atomic Connection "2024010" "20240103_cccccccc"
           "20240101_aaaaaaaa" "gone away" ["20240102_bbbbbbbb"] []
           (sample_world plain_fs three_days [None; None; None; Some "gone away"] (jan 3))).
  - vm_compute. reflexivity.
  - reflexivity.
Defined.

(** A connection lost before the teardown asks for its cursor. *)
Lemma refused_cursor_is_unbound_witness :
  (delete_schemas_with_prefix Connection "20240102"
     (sample_world plain_fs three_days [Some "gone away"] (jan 3))).1
  = Raise (UnboundLocalError "cursor").
Proof.
  apply (refused_cursor_is_unbound Connection "20240102" sample_name "gone away" []
           (sample_world plain_fs three_days [Some "gone away"] (jan 3))).
  reflexivity.
Defined.
